(** * A shallow embedding of [lexer.py] (class [Lexer]) and its properties.

    The scanner object of the source is a record [Lexer]; every method is a
    computation in a small state-and-exception monad [M] that threads the
    record.  Python [while] loops are run by the combinator [while_], whose
    fuel is taken from the number of characters left, so every method is a
    total Rocq function.  Python exceptions that the methods can meet
    ([TypeError], [ValueError], [KeyError]) are results of their own.

    Source characters are code points 0..255 (Rocq [ascii]); the predicates
    [isalpha], [isdigit], [isalnum] and [lower] follow Python's [str] methods
    on that range. *)

From Stdlib Require Import List Ascii String Arith NArith Bool Lia.
Import ListNotations.

Local Open Scope list_scope.

(** ** Characters and Python strings *)

Definition str := list ascii.

(** A Python string literal of the source. *)
Definition py (lit : string) : str := list_ascii_of_string lit.

Definition ord (c : ascii) : N := N_of_ascii c.

Definition in_range (lo hi : N) (c : ascii) : bool :=
  ((lo <=? ord c) && (ord c <=? hi))%N.

Definition is_code (n : N) (c : ascii) : bool := (ord c =? n)%N.

(** [str.isdecimal]: the digits 0-9. *)
Definition isdecimal (c : ascii) : bool := in_range 48 57 c.

(** [str.isdigit]: decimal digits and the superscript digits U+00B2, U+00B3,
    U+00B9. *)
Definition isdigit (c : ascii) : bool :=
  isdecimal c || is_code 178 c || is_code 179 c || is_code 185 c.

(** [str.isnumeric]: the above and the vulgar fractions U+00BC..U+00BE. *)
Definition isnumeric (c : ascii) : bool := isdigit c || in_range 188 190 c.

(** [str.isalpha]: the letters of general category L* below U+0100. *)
Definition isalpha (c : ascii) : bool :=
  in_range 65 90 c || in_range 97 122 c
  || is_code 170 c || is_code 181 c || is_code 186 c
  || in_range 192 214 c || in_range 216 246 c || in_range 248 255 c.

Definition isalnum (c : ascii) : bool :=
  isalpha c || isdecimal c || isdigit c || isnumeric c.

(** [str.lower] on one character. *)
Definition lower (c : ascii) : ascii :=
  if in_range 65 90 c || in_range 192 214 c || in_range 216 222 c
  then ascii_of_N (ord c + 32) else c.

Definition lower_str (v : str) : str := map lower v.

Fixpoint str_eqb (a b : str) : bool :=
  match a, b with
  | [], [] => true
  | x :: a', y :: b' => Ascii.eqb x y && str_eqb a' b'
  | _, _ => false
  end.

(** [c in "..."] for a one-character string [c]. *)
Definition char_in (c : ascii) (lit : str) : bool :=
  existsb (Ascii.eqb c) lit.

(** [v in collection] for a set or a list of strings. *)
Definition str_in (v : str) (l : list str) : bool := existsb (str_eqb v) l.

(** ** The tables of the module *)

Definition KEYWORDS : list str :=
  map py ["if"; "then"; "else"; "begin"; "end"; "int"; "float"; "char";
          "while"; "do"; "return"; "for"; "void"; "break"; "continue";
          "switch"; "case"; "default"; "struct"; "const"; "typedef"]%string.

Definition SINGLE_OPS : list str :=
  map py ["+"; "-"; "*"; "/"; "%"; "="; "&"; "|"; "^"; "~"; "!"; "<"; ">"]%string.

Definition DOUBLE_OPS : list str :=
  map py ["++"; "--"; "+="; "-="; "*="; "/="; "%="; "&&"; "||";
          "<<"; ">>"; "&="; "|="; "^="; "<="; ">="; "<>"; "=="; "!="; "->"]%string.

Definition TRIPLE_OPS : list str := map py ["<<="; ">>="]%string.

Definition DELIMITERS : list str :=
  map py ["("; ")"; "["; "]"; "{"; "}"; ";"; "#"; ","; ":"; "."]%string.

Definition CODE : list (str * nat) :=
  map (fun kv => (py (fst kv), snd kv))
    [("if", 1); ("then", 2); ("else", 3); ("begin", 4); ("end", 5);
     ("int", 6); ("float", 7); ("char", 8); ("while", 9); ("do", 10);
     ("return", 11); ("for", 12); ("void", 13); ("break", 14); ("continue", 15);
     ("switch", 16); ("case", 17); ("default", 18); ("struct", 19);
     ("const", 20); ("typedef", 21);
     ("ID", 50); ("INT", 51); ("FLOAT", 52); ("CHAR", 53);
     ("STRING", 54); ("HEX", 55); ("OCT", 56);
     ("+", 60); ("-", 61); ("*", 62); ("/", 63); ("%", 64); ("=", 65);
     ("++", 66); ("--", 67); ("+=", 68); ("-=", 69); ("*=", 70); ("/=", 71);
     ("%=", 72);
     ("&", 80); ("|", 81); ("^", 82); ("~", 83); ("<<", 84); (">>", 85);
     ("&=", 86); ("|=", 87); ("^=", 88); ("<<=", 89); (">>=", 90);
     ("&&", 100); ("||", 101); ("!", 102);
     ("<", 110); (">", 111); ("<=", 112); (">=", 113); ("<>", 114);
     ("==", 115); ("!=", 116);
     ("->", 120);
     ("(", 130); (")", 131); ("[", 132); ("]", 133); ("{", 134); ("}", 135);
     (";", 136); ("#", 137); (",", 138); (":", 139); (".", 140)]%string.

(** The keys of [ESCAPE_CHARS]; the values are the decoded code points. *)
Definition ESCAPE_CHARS : list (ascii * N) :=
  [("n", 10); ("t", 9); ("r", 13); ("0", 0); ("\", 92); ("'", 39);
   ("034", 34); ("a", 7); ("b", 8); ("f", 12); ("v", 11)]%char%N.

Fixpoint assoc {V} (eqb : str -> str -> bool) (k : str) (d : list (str * V))
  : option V :=
  match d with
  | [] => None
  | (k', v) :: d' => if eqb k k' then Some v else assoc eqb k d'
  end.

Fixpoint escape_lookup (c : ascii) (d : list (ascii * N)) : option N :=
  match d with
  | [] => None
  | (k, v) :: d' => if Ascii.eqb c k then Some v else escape_lookup c d'
  end.

(** ** Tokens, errors and the scanner object *)

(** The attribute strings ['-'], [f'SYM:{n}'] and [f'CONST:{n}']. *)
Inductive attr_t : Type :=
| NoAttr
| SYM (n : nat)
| CONST (n : nat).

Record Token : Type := mkToken {
  code : nat;
  value : str;
  attr : attr_t;
  tline : nat;
  tcol : nat
}.

Inductive error_type_t : Type :=
| ILLEGAL_CHAR | ILLEGAL_ID | ILLEGAL_NUMBER | ILLEGAL_HEX | ILLEGAL_OCT
| ILLEGAL_FLOAT | UNCLOSED_STRING | UNCLOSED_CHAR | UNCLOSED_COMMENT
| EMPTY_CHAR | MULTI_CHAR | ILLEGAL_ESCAPE | LEADING_ZERO.

Record LexError : Type := mkLexError {
  error_type : error_type_t;
  eline : nat;
  ecol : nat;
  evalue : str;
  extra_info : string
}.

Record Lexer : Type := mkLexer {
  src : str;
  pos : nat;
  line : nat;
  col : nat;
  tokens : list Token;
  errors : list LexError;
  sym_table : list str;
  const_table : list str
}.

(** [Lexer.__init__]. *)
Definition Lexer_init (source : str) : Lexer :=
  mkLexer source 0 1 1 [] [] [] [].

(** ** The monad of the methods *)

Inductive exn : Type :=
| TypeError | ValueError | KeyError | IndexError | AttributeError.

Inductive result (A : Type) : Type :=
| Ok (a : A) (s : Lexer)
| Raise (e : exn)
| OutOfFuel.

Arguments Ok {A} a s.
Arguments Raise {A} e.
Arguments OutOfFuel {A}.

Definition M (A : Type) : Type := Lexer -> result A.

Definition ret {A} (a : A) : M A := fun s => Ok a s.

Definition bind {A B} (m : M A) (k : A -> M B) : M B :=
  fun s =>
    match m s with
    | Ok a s' => k a s'
    | Raise e => Raise e
    | OutOfFuel => OutOfFuel
    end.

Definition raise {A} (e : exn) : M A := fun _ => Raise e.

Declare Scope lex_scope.
Delimit Scope lex_scope with lex.
Notation "x <- m ;; k" := (bind m (fun x => k))
  (at level 61, m at next level, right associativity) : lex_scope.
Notation "m ;; k" := (bind m (fun _ => k))
  (at level 61, right associativity) : lex_scope.
Local Open Scope lex_scope.

(** Reading a field of [self]. *)
Definition get {A} (f : Lexer -> A) : M A := fun s => Ok (f s) s.

(** What is left of a loop iteration: go on with the loop's local variables,
    [break], or [return] from the enclosing method. *)
Inductive ctl (A R : Type) : Type :=
| Continue (a : A)
| Break (a : A)
| Return (r : R).

Arguments Continue {A R} a.
Arguments Break {A R} a.
Arguments Return {A R} r.

Fixpoint while_fuel {A R} (fuel : nat) (cond : A -> M bool)
    (body : A -> M (ctl A R)) (a : A) : M (A + R) :=
  fun s =>
    match fuel with
    | O => OutOfFuel
    | S fuel' =>
        match cond a s with
        | Ok true s1 =>
            match body a s1 with
            | Ok (Continue a') s2 => while_fuel fuel' cond body a' s2
            | Ok (Break a') s2 => Ok (inl a') s2
            | Ok (Return r) s2 => Ok (inr r) s2
            | Raise e => Raise e
            | OutOfFuel => OutOfFuel
            end
        | Ok false s1 => Ok (inl a) s1
        | Raise e => Raise e
        | OutOfFuel => OutOfFuel
        end
    end.

(** The characters not yet consumed; every loop of the scanner consumes one
    at least per iteration, so one more than their number is fuel enough. *)
Definition remaining (s : Lexer) : nat := List.length (src s) - pos s.

(** [while cond: body], with the loop's local variables [a]; the result is
    [inl] of the locals when the loop ends or breaks and [inr r] when the body
    returns [r] from the method. *)
Definition while_ {A R} (cond : A -> M bool) (body : A -> M (ctl A R)) (a : A)
  : M (A + R) :=
  fun s => while_fuel (S (remaining s)) cond body a s.

(** ** Symbol and constant table *)

Fixpoint index_of (v : str) (l : list str) : option nat :=
  match l with
  | [] => None
  | x :: l' => if str_eqb x v then Some 0
               else match index_of v l' with
                    | Some i => Some (S i)
                    | None => None
                    end
  end.

(** [list.index] raises [ValueError] when the value is absent. *)
Definition list_index (v : str) (l : list str) : M nat :=
  match index_of v l with
  | Some i => ret i
  | None => raise ValueError
  end.

Definition with_sym_table (t : list str) (s : Lexer) : Lexer :=
  mkLexer (src s) (pos s) (line s) (col s) (tokens s) (errors s) t
          (const_table s).

Definition with_const_table (t : list str) (s : Lexer) : Lexer :=
  mkLexer (src s) (pos s) (line s) (col s) (tokens s) (errors s)
          (sym_table s) t.

Definition set_sym_table (t : list str) : M unit :=
  fun s => Ok tt (with_sym_table t s).

Definition set_const_table (t : list str) : M unit :=
  fun s => Ok tt (with_const_table t s).

Definition _add_sym (name : str) : M nat :=
  t <- get sym_table ;;
  (if negb (str_in name t) then set_sym_table (t ++ [name]) else ret tt) ;;
  t' <- get sym_table ;;
  list_index name t'.

Definition _add_const (val : str) : M nat :=
  t <- get const_table ;;
  (if negb (str_in val t) then set_const_table (t ++ [val]) else ret tt) ;;
  t' <- get const_table ;;
  list_index val t'.

Definition push_error (e : LexError) (s : Lexer) : Lexer :=
  mkLexer (src s) (pos s) (line s) (col s) (tokens s) (errors s ++ [e])
          (sym_table s) (const_table s).

Definition push_token (t : Token) (s : Lexer) : Lexer :=
  mkLexer (src s) (pos s) (line s) (col s) (tokens s ++ [t]) (errors s)
          (sym_table s) (const_table s).

Definition errors_append (e : LexError) : M unit :=
  fun s => Ok tt (push_error e s).

Definition tokens_append (t : Token) : M unit :=
  fun s => Ok tt (push_token t s).

(** [CODE[key]], a [KeyError] when the key is missing. *)
Definition CODE_get (key : str) : M nat :=
  match assoc str_eqb key CODE with
  | Some c => ret c
  | None => raise KeyError
  end.

(** ** Reading characters *)

Definition _char : M (option ascii) :=
  fun s => Ok (nth_error (src s) (pos s)) s.

Definition _peek (offset : nat) : M (option ascii) :=
  fun s => Ok (nth_error (src s) (pos s + offset)) s.

(** The state after consuming the character [ch]: a newline starts a line,
    any other character moves one column on. *)
Definition advanced (ch : ascii) (s : Lexer) : Lexer :=
  mkLexer (src s) (S (pos s))
          (if Ascii.eqb ch "010" then S (line s) else line s)
          (if Ascii.eqb ch "010" then 1 else S (col s))
          (tokens s) (errors s) (sym_table s) (const_table s).

Definition _advance : M (option ascii) :=
  fun s =>
    match nth_error (src s) (pos s) with
    | Some ch => Ok (Some ch) (advanced ch s)
    | None => Ok None s
    end.

(** A string operand that may be [None]: [val += x] and [x + y] raise
    [TypeError] then. *)
Definition nonnull (e : exn) (x : option ascii) : M ascii :=
  match x with
  | Some c => ret c
  | None => raise e
  end.

Definition as_str : option ascii -> M ascii := nonnull TypeError.

(** [acc += self._advance()]. *)
Definition append_advance (acc : str) : M str :=
  x <- _advance ;; c <- as_str x ;; ret (acc ++ [c]).

(** The test [self._char() and p(self._char())]. *)
Definition char_is (p : ascii -> bool) : M bool :=
  x <- _char ;;
  ret (match x with Some c => p c | None => false end).

(** The idiom [while self._char() and p(self._char()): acc += self._advance()]
    of the sub-scanners. *)
Definition take_run (p : ascii -> bool) (acc : str) : M str :=
  r <- while_ (R := unit) (fun _ => char_is p)
         (fun acc => acc' <- append_advance acc ;; ret (Continue acc')) acc ;;
  match r with
  | inl acc' => ret acc'
  | inr _ => ret acc
  end.

(** The same loop when the characters are dropped:
    [while self._char() and p(self._char()): self._advance()]. *)
Definition skip_run (p : ascii -> bool) : M unit :=
  while_ (R := unit) (fun _ => char_is p)
    (fun _ => _advance ;; ret (Continue tt)) tt ;;
  ret tt.

(** [x == c] for a character or [None] [x]. *)
Definition opt_is (x : option ascii) (c : ascii) : bool :=
  match x with
  | Some y => Ascii.eqb y c
  | None => false
  end.

(** [x and p(x)]. *)
Definition opt_test (p : ascii -> bool) (x : option ascii) : bool :=
  match x with
  | Some y => p y
  | None => false
  end.

Definition nonempty (v : str) : bool :=
  match v with
  | [] => false
  | _ :: _ => true
  end.

Definition NL : ascii := "010"%char.

(** The string [' \t\r\n']. *)
Definition WHITESPACE : str := [" "; "009"; "013"; "010"]%char.

(** ** Whitespace and comments *)

(** [None in ' \t\r\n'] is a [TypeError]. *)
Definition _skip_ws : M unit :=
  while_ (R := unit)
    (fun _ => x <- _char ;; c <- as_str x ;; ret (char_in c WHITESPACE))
    (fun _ => _advance ;; ret (Continue tt)) tt ;;
  ret tt.

Definition _skip_comment : M bool :=
  c <- _char ;;
  if negb (opt_is c "/") then ret false
  else
    p <- _peek 1 ;;
    if opt_is p "/" then
      skip_run (fun c => negb (Ascii.eqb c NL)) ;;
      ret true
    else if opt_is p "*" then
      sl <- get line ;;
      sc <- get col ;;
      _advance ;;
      _advance ;;
      r <- while_ (fun _ => char_is (fun _ => true))
             (fun _ =>
                c <- _char ;;
                p <- _peek 1 ;;
                if opt_is c "*" && opt_is p "/" then
                  _advance ;; _advance ;; ret (Return true)
                else _advance ;; ret (Continue tt)) tt ;;
      match r with
      | inr b => ret b
      | inl _ =>
          errors_append (mkLexError UNCLOSED_COMMENT sl sc (py "/*") "") ;;
          ret true
      end
    else ret false.

(** ** Identifiers and keywords *)

Definition is_ident_char (c : ascii) : bool := isalnum c || Ascii.eqb c "_".

Definition _scan_id : M Token :=
  sl <- get line ;;
  sc <- get col ;;
  val <- take_run is_ident_char [] ;;
  if str_in (lower_str val) KEYWORDS then
    c <- CODE_get (lower_str val) ;;
    ret (mkToken c val NoAttr sl sc)
  else
    idx <- _add_sym val ;;
    c <- CODE_get (py "ID") ;;
    ret (mkToken c val (SYM idx) sl sc).

Definition _scan_illegal_id : M (option Token) :=
  sl <- get line ;;
  sc <- get col ;;
  val <- take_run is_ident_char [] ;;
  errors_append (mkLexError ILLEGAL_ID sl sc val "标识符不能以数字开头") ;;
  ret None.

(** ** Numbers *)

Definition const_token (kind : string) (val : str) (sl sc : nat)
  : M (option Token) :=
  idx <- _add_const val ;;
  c <- CODE_get (py kind) ;;
  ret (Some (mkToken c val (CONST idx) sl sc)).

Definition is_hex_char (c : ascii) : bool :=
  isdigit c || char_in (lower c) (py "abcdef").

Definition _scan_hex (sl sc : nat) : M (option Token) :=
  a <- _advance ;;
  b <- _advance ;;
  a <- as_str a ;;
  b <- as_str b ;;
  let val := [a; b] in
  hex_digits <- take_run is_hex_char [] ;;
  if negb (nonempty hex_digits) then
    c <- _char ;;
    if opt_test isalpha c then
      hex_digits <- take_run is_ident_char hex_digits ;;
      errors_append
        (mkLexError ILLEGAL_HEX sl sc (val ++ hex_digits) "包含非法字符") ;;
      ret None
    else
      errors_append (mkLexError ILLEGAL_HEX sl sc val "缺少十六进制数字") ;;
      ret None
  else
    const_token "HEX" (val ++ hex_digits) sl sc.

Definition _scan_decimal_part (int_part : str) (sl sc : nat)
  : M (option Token) :=
  let val := int_part in
  c <- _char ;;
  (* the fraction: [inr] is a [return] inside it, [inl] the locals after it *)
  r <- (if opt_is c "." then
          p <- _peek 1 ;;
          if opt_is p "." then
            if nonempty val then
              t <- const_token "INT" val sl sc ;; ret (inr t)
            else ret (inr None)
          else
            val <- append_advance val ;;
            frac_digits <- take_run isdigit [] ;;
            if negb (nonempty frac_digits) && negb (nonempty int_part) then
              errors_append (mkLexError ILLEGAL_FLOAT sl sc val "缺少数字") ;;
              ret (inr None)
            else
              let val := val ++ frac_digits in
              c <- _char ;;
              if opt_is c "." then
                extra <- take_run (fun c => isdigit c || Ascii.eqb c ".") [] ;;
                errors_append
                  (mkLexError ILLEGAL_FLOAT sl sc (val ++ extra) "多个小数点") ;;
                ret (inr None)
              else ret (inl (val, true))
        else ret (inl (val, false))) ;;
  match r with
  | inr t => ret t
  | inl (val, has_dot) =>
      c <- _char ;;
      (* the exponent *)
      r <- (if opt_test (fun c => Ascii.eqb (lower c) "e") c then
              val <- append_advance val ;;
              c <- _char ;;
              val <- (if opt_is c "+" || opt_is c "-"
                      then append_advance val else ret val) ;;
              exp_digits <- take_run isdigit [] ;;
              if negb (nonempty exp_digits) then
                errors_append
                  (mkLexError ILLEGAL_FLOAT sl sc val "指数部分缺少数字") ;;
                ret (inr None)
              else ret (inl (val ++ exp_digits, true))
            else ret (inl (val, false))) ;;
      match r with
      | inr t => ret t
      | inl (val, has_exp) =>
          c <- _char ;;
          if opt_test (fun c => isalpha c || Ascii.eqb c "_") c then
            extra <- take_run is_ident_char [] ;;
            errors_append
              (mkLexError ILLEGAL_NUMBER sl sc (val ++ extra)
                 "数字后不能直接跟字母") ;;
            ret None
          else if negb (nonempty val) then ret None
          else
            const_token (if has_dot || has_exp then "FLOAT" else "INT")
              val sl sc
      end
  end.

Definition _scan_octal (sl sc : nat) : M (option Token) :=
  x <- _advance ;;
  c0 <- as_str x ;;
  r <- while_ (fun _ => char_is isdigit)
         (fun val =>
            x <- _char ;;
            c <- as_str x ;;
            if char_in c (py "89") then
              val <- take_run isdigit val ;;
              errors_append
                (mkLexError ILLEGAL_OCT sl sc val "八进制数不能包含8或9") ;;
              ret (Return None)
            else
              val <- append_advance val ;;
              ret (Continue val)) [c0] ;;
  match r with
  | inr t => ret t
  | inl val =>
      c <- _char ;;
      if opt_test isalpha c then
        val <- take_run is_ident_char val ;;
        errors_append (mkLexError ILLEGAL_NUMBER sl sc val "") ;;
        ret None
      else
        p <- _peek 1 ;;
        if opt_is c "." && opt_test isdigit p then
          _scan_decimal_part val sl sc
        else const_token "OCT" val sl sc
  end.

Definition _scan_decimal (sl sc : nat) : M (option Token) :=
  val <- take_run isdigit [] ;;
  _scan_decimal_part val sl sc.

Definition _scan_num : M (option Token) :=
  sl <- get line ;;
  sc <- get col ;;
  c <- _char ;;
  p <- _peek 1 ;;
  if opt_is c "0" && (opt_is p "x" || opt_is p "X") then _scan_hex sl sc
  else if opt_is c "0" && opt_test isdigit p then _scan_octal sl sc
  else _scan_decimal sl sc.

Definition _scan_leading_dot_number : M (option Token) :=
  sl <- get line ;;
  sc <- get col ;;
  c <- _char ;;
  p <- _peek 1 ;;
  if opt_is c "." && opt_test isdigit p then _scan_decimal_part [] sl sc
  else ret None.

(** ** Escape sequences *)

Definition digit_value (c : ascii) : option N :=
  if in_range 48 57 c then Some (ord c - 48)%N
  else if in_range 97 102 c then Some (ord c - 87)%N
  else if in_range 65 70 c then Some (ord c - 55)%N
  else None.

Fixpoint int_digits (base : N) (v : str) (acc : N) : option N :=
  match v with
  | [] => Some acc
  | c :: v' =>
      match digit_value c with
      | Some d => if (d <? base)%N then int_digits base v' (acc * base + d)%N
                  else None
      | None => None
      end
  end.

(** [int(v, base)] on a run of digit characters: a [ValueError] when a
    character is not a digit of the base or the run is empty. *)
Definition int_base (base : N) (v : str) : M N :=
  match v with
  | [] => raise ValueError
  | _ => match int_digits base v 0 with
         | Some n => ret n
         | None => raise ValueError
         end
  end.

(** [v[-1]]. *)
Definition str_last (v : str) : M ascii :=
  match v with
  | [] => raise IndexError
  | c :: v' => ret (last v' c)
  end.

Definition is_hex_digit (c : ascii) : bool :=
  char_in (lower c) (py "0123456789abcdef").

Definition is_oct_digit (c : ascii) : bool :=
  isdigit c && (ord c <? ord "8")%N.

(** One round of the [for _ in range(2)] loops of the escapes: if the current
    character passes [p], append it to the digits and to the lexeme. *)
Definition escape_digit (p : ascii -> bool) (st : str * str) : M (str * str) :=
  let '(digits, val) := st in
  b <- char_is p ;;
  if b then
    digits <- append_advance digits ;;
    c <- str_last digits ;;
    ret (digits, val ++ [c])
  else ret (digits, val).

Definition twice {A} (f : A -> M A) (a : A) : M A :=
  a <- f a ;; f a.

(** ** Character literals *)

Definition not_quote_nl (c : ascii) : bool :=
  negb (Ascii.eqb c "'") && negb (Ascii.eqb c NL).

Definition _scan_char : M (option Token) :=
  sl <- get line ;;
  sc <- get col ;;
  _advance ;;
  c <- _char ;;
  if match c with None => true | Some c => Ascii.eqb c NL end then
    errors_append (mkLexError UNCLOSED_CHAR sl sc (py "'") "") ;;
    ret None
  else if opt_is c "'" then
    _advance ;;
    errors_append (mkLexError EMPTY_CHAR sl sc (py "''") "") ;;
    ret None
  else
    let display_val := py "'" in
    (* [inr] is a [return] inside the branch, [inl] is
       [(char_val, display_val)] after it *)
    r <- (if opt_is c "\" then
            display_val <- append_advance display_val ;;
            c <- _char ;;
            match c with
            | None =>
                errors_append (mkLexError UNCLOSED_CHAR sl sc display_val "") ;;
                ret (inr None)
            | Some escape_char =>
                display_val <- append_advance display_val ;;
                if Ascii.eqb escape_char "x" then
                  hd <- twice (escape_digit is_hex_digit) ([], display_val) ;;
                  let '(hex_val, display_val) := hd in
                  if nonempty hex_val then
                    n <- int_base 16 hex_val ;;
                    ret (inl (n, display_val))
                  else
                    errors_append
                      (mkLexError ILLEGAL_ESCAPE sl sc display_val "") ;;
                    skip_run not_quote_nl ;;
                    c <- _char ;;
                    (if opt_is c "'" then _advance ;; ret tt else ret tt) ;;
                    ret (inr None)
                else
                  match escape_lookup escape_char ESCAPE_CHARS with
                  | Some v => ret (inl (v, display_val))
                  | None =>
                      if isdigit escape_char then
                        od <- twice (escape_digit is_oct_digit)
                                ([escape_char], display_val) ;;
                        let '(oct_val, display_val) := od in
                        n <- int_base 8 oct_val ;;
                        ret (inl (n, display_val))
                      else
                        errors_append
                          (mkLexError ILLEGAL_ESCAPE sl sc
                             ("\"%char :: [escape_char]) "") ;;
                        ret (inl (ord escape_char, display_val))
                  end
            end
          else
            x <- _char ;;
            char_val <- as_str x ;;
            display_val <- append_advance display_val ;;
            ret (inl (ord char_val, display_val))) ;;
    match r with
    | inr t => ret t
    | inl (char_val, display_val) =>
        r <- while_ (R := unit) (fun _ => char_is not_quote_nl)
               (fun st =>
                  let '(extra_chars, display_val) := st in
                  extra_chars <- append_advance extra_chars ;;
                  c <- str_last extra_chars ;;
                  ret (Continue (extra_chars, display_val ++ [c])))
               ([], display_val) ;;
        let '(extra_chars, display_val) :=
          match r with inl st => st | inr _ => ([], display_val) end in
        c <- _char ;;
        if negb (opt_is c "'") then
          errors_append (mkLexError UNCLOSED_CHAR sl sc display_val "") ;;
          ret None
        else
          display_val <- append_advance display_val ;;
          if nonempty extra_chars then
            errors_append (mkLexError MULTI_CHAR sl sc display_val "") ;;
            ret None
          else const_token "CHAR" display_val sl sc
    end.

(** ** String literals *)

Definition DQUOTE : ascii := "034"%char.

Definition not_dquote_nl (c : ascii) : bool :=
  negb (Ascii.eqb c DQUOTE) && negb (Ascii.eqb c NL).

(** One iteration of the loop of [_scan_string]; the locals are
    [(val, string_content)], the decoded content as code points. *)
Definition string_body (sl sc : nat) (st : str * list N)
  : M (ctl (str * list N) unit) :=
  let '(val, string_content) := st in
  c <- _char ;;
  if opt_is c "\" then
    val <- append_advance val ;;
    c <- _char ;;
    match c with
    | None => ret (Break (val, string_content))
    | Some escape_char =>
        if Ascii.eqb escape_char NL then ret (Break (val, string_content))
        else
          val <- append_advance val ;;
          if Ascii.eqb escape_char "x" then
            hd <- twice (escape_digit is_hex_digit) ([], val) ;;
            let '(hex_val, val) := hd in
            if nonempty hex_val then
              n <- int_base 16 hex_val ;;
              ret (Continue (val, string_content ++ [n]))
            else
              errors_append
                (mkLexError ILLEGAL_ESCAPE sl sc (py "\x") "") ;;
              ret (Continue (val, string_content))
          else
            match escape_lookup escape_char ESCAPE_CHARS with
            | Some v => ret (Continue (val, string_content ++ [v]))
            | None =>
                if isdigit escape_char then
                  od <- twice (escape_digit is_oct_digit)
                          ([escape_char], val) ;;
                  let '(oct_val, val) := od in
                  n <- int_base 8 oct_val ;;
                  ret (Continue (val, string_content ++ [n]))
                else
                  errors_append
                    (mkLexError ILLEGAL_ESCAPE sl sc
                       ("\"%char :: [escape_char]) "") ;;
                  ret (Continue (val, string_content ++ [ord escape_char]))
            end
    end
  else
    x <- _char ;;
    ch <- as_str x ;;
    val <- append_advance val ;;
    ret (Continue (val, string_content ++ [ord ch])).

Definition _scan_string : M (option Token) :=
  sl <- get line ;;
  sc <- get col ;;
  _advance ;;
  r <- while_ (fun _ => char_is not_dquote_nl) (string_body sl sc)
         ([DQUOTE], []) ;;
  let '(val, string_content) :=
    match r with inl st => st | inr _ => ([DQUOTE], []) end in
  c <- _char ;;
  if negb (opt_is c DQUOTE) then
    errors_append (mkLexError UNCLOSED_STRING sl sc val "") ;;
    ret None
  else
    val <- append_advance val ;;
    const_token "STRING" val sl sc.

(** ** Operators and delimiters *)

Definition _scan_op : M (option Token) :=
  sl <- get line ;;
  sc <- get col ;;
  ch <- _char ;;
  p1 <- _peek 1 ;;
  p2 <- _peek 2 ;;
  (* [inr]: a token was returned by the three-character attempt *)
  r <- match p1, p2 with
       | Some c1, Some c2 =>
           c0 <- as_str ch ;;
           let three := [c0; c1; c2] in
           if str_in three TRIPLE_OPS then
             _advance ;; _advance ;; _advance ;;
             c <- CODE_get three ;;
             ret (inr (mkToken c three NoAttr sl sc))
           else ret (inl tt)
       | _, _ => ret (inl tt)
       end ;;
  match r with
  | inr t => ret (Some t)
  | inl _ =>
      r <- match p1 with
           | Some c1 =>
               c0 <- as_str ch ;;
               let two := [c0; c1] in
               if str_in two DOUBLE_OPS then
                 _advance ;; _advance ;;
                 c <- CODE_get two ;;
                 ret (inr (mkToken c two NoAttr sl sc))
               else ret (inl tt)
           | None => ret (inl tt)
           end ;;
      match r with
      | inr t => ret (Some t)
      | inl _ =>
          match ch with
          | Some c0 =>
              if str_in [c0] SINGLE_OPS then
                _advance ;;
                c <- CODE_get [c0] ;;
                ret (Some (mkToken c [c0] NoAttr sl sc))
              else ret None
          | None => ret None
          end
      end
  end.

Definition _scan_delim : M (option Token) :=
  sl <- get line ;;
  sc <- get col ;;
  ch <- _char ;;
  match ch with
  | Some c0 =>
      if str_in [c0] DELIMITERS then
        _advance ;;
        c <- CODE_get [c0] ;;
        ret (Some (mkToken c [c0] NoAttr sl sc))
      else ret None
  | None => ret None
  end.

(** ** The driver loop *)

Fixpoint take_while (p : ascii -> bool) (l : str) : str :=
  match l with
  | [] => []
  | c :: l' => if p c then c :: take_while p l' else []
  end.

Definition starts_with (pre v : str) : bool :=
  str_eqb (firstn (List.length pre) v) pre.

(** The look-ahead of the digit branch: the condition of its [if ...: pass]. *)
Definition number_prescan (s : Lexer) : bool :=
  let temp_val := take_while is_ident_char (skipn (pos s) (src s)) in
  let has_letter := existsb isalpha temp_val in
  let is_hex := starts_with (py "0x") (lower_str temp_val) in
  let is_exp :=
    char_in "e" (lower_str temp_val)
    && negb (existsb (fun c => isalpha c
                               && negb (char_in (lower c) (py "abcdefx")))
               temp_val) in
  has_letter && negb is_hex && negb is_exp.

(** [if tok: self.tokens.append(tok)]. *)
Definition append_if_token (tok : option Token) : M unit :=
  match tok with
  | Some t => tokens_append t
  | None => ret tt
  end.

(** The part of an iteration after whitespace and comments were skipped:
    the dispatch on the current character. *)
Definition dispatch : M (ctl unit unit) :=
  x <- _char ;;
  ch <- nonnull AttributeError x ;;
  sl <- get line ;;
  sc <- get col ;;
  p <- _peek 1 ;;
  if isalpha ch || Ascii.eqb ch "_" then
    t <- _scan_id ;;
    tokens_append t ;;
    ret (Continue tt)
  else if isdigit ch then
    flag <- get number_prescan ;;
    (if flag then ret tt else ret tt) ;;
    tok <- _scan_num ;;
    append_if_token tok ;;
    ret (Continue tt)
  else if Ascii.eqb ch "." && opt_test isdigit p then
    tok <- _scan_leading_dot_number ;;
    append_if_token tok ;;
    ret (Continue tt)
  else if Ascii.eqb ch "'" then
    tok <- _scan_char ;;
    append_if_token tok ;;
    ret (Continue tt)
  else if Ascii.eqb ch DQUOTE then
    tok <- _scan_string ;;
    append_if_token tok ;;
    ret (Continue tt)
  else if str_in [ch] SINGLE_OPS
          || str_in (ch :: match p with Some c => [c] | None => [] end)
               DOUBLE_OPS then
    if Ascii.eqb ch "/" && (opt_is p "/" || opt_is p "*") then
      ret (Continue tt)
    else
      tok <- _scan_op ;;
      append_if_token tok ;;
      ret (Continue tt)
  else if str_in [ch] DELIMITERS then
    tok <- _scan_delim ;;
    append_if_token tok ;;
    if Ascii.eqb ch "#" then ret (Break tt) else ret (Continue tt)
  else
    errors_append (mkLexError ILLEGAL_CHAR sl sc [ch] "") ;;
    _advance ;;
    ret (Continue tt).

(** The part of an iteration after the whitespace was skipped: leave the
    loop at the end of the input, skip a comment, or dispatch. *)
Definition scan_lexeme : M (ctl unit unit) :=
  c <- _char ;;
  match c with
  | None => ret (Break tt)
  | Some _ =>
      skipped <- _skip_comment ;;
      if skipped then ret (Continue tt) else dispatch
  end.

(** One iteration of the loop of [tokenize]. *)
Definition tokenize_body : M (ctl unit unit) :=
  _skip_ws ;;
  scan_lexeme.

Definition tokenize_loop : M unit :=
  while_ (R := unit)
    (fun _ => p <- get pos ;; n <- get (fun s => List.length (src s)) ;;
              ret (p <? n))
    (fun _ => tokenize_body) tt ;;
  ret tt.

Definition tokenize : M (list Token * list LexError) :=
  tokenize_loop ;;
  t <- get tokens ;;
  e <- get errors ;;
  ret (t, e).

(** [Lexer(source).tokenize()] with the scanner it leaves behind. *)
Definition run (source : string) : result (list Token * list LexError) :=
  tokenize (Lexer_init (py source)).

Definition final (source : string) : option Lexer :=
  match tokenize_loop (Lexer_init (py source)) with
  | Ok _ s => Some s
  | _ => None
  end.

(** * Vocabulary of the properties *)

(** Lookup-or-insert on a table: what [_add_sym] and [_add_const] leave. *)
Definition add_to (v : str) (t : list str) : list str :=
  if str_in v t then t else t ++ [v].

(** The distinct values of a list, in the order of their first occurrence. *)
Definition distinct (l : list str) : list str :=
  fold_left (fun t v => add_to v t) l [].

(** [wp E m Q s]: run from [s], the method [m] does not run out of fuel, its
    result and final state satisfy [Q], and [E] holds if it raises. *)
Definition wp {A} (E : Prop) (m : M A) (Q : A -> Lexer -> Prop) (s : Lexer)
  : Prop :=
  match m s with
  | Ok a s' => Q a s'
  | Raise _ => E
  | OutOfFuel => False
  end.

(** A property of the scanner that [_advance] keeps. *)
Definition adv_closed (P : Lexer -> Prop) : Prop :=
  forall s ch, P s -> nth_error (src s) (pos s) = Some ch -> P (advanced ch s).

(** A property that recording an error at line [sl], column [sc] keeps. *)
Definition err_closed (sl sc : nat) (P : Lexer -> Prop) : Prop :=
  forall s e, P s -> eline e = sl -> ecol e = sc -> P (push_error e s).

(** [s] satisfies [P], has the source of [s0] and is [k] characters further
    at least. *)
Definition stepped (P : Lexer -> Prop) (s0 : Lexer) (k : nat) (s : Lexer)
  : Prop :=
  P s /\ src s = src s0 /\ pos s0 + k <= pos s.

(** The source text between the cursors of two states. *)
Definition between (s0 s : Lexer) : str :=
  firstn (pos s - pos s0) (skipn (pos s0) (src s0)).

(** The codes of the constant kinds. *)
Definition const_kinds : list string :=
  ["INT"; "FLOAT"; "CHAR"; "STRING"; "HEX"; "OCT"]%string.

(** What a sub-scanner of constants leaves when it was started in [s0] for
    a lexeme at line [sl], column [sc]: either no token and a state that is
    [k] characters further, or a token of a constant kind whose spelling was
    looked up or inserted in the constant table of such a state. *)
Definition const_scanned (P : Lexer -> Prop) (sl sc : nat) (s0 : Lexer)
    (k : nat) (r : option Token) (s' : Lexer) : Prop :=
  match r with
  | None => stepped P s0 k s'
  | Some t =>
      tline t = sl /\ tcol t = sc /\ 51 <= code t <= 56 /\
      exists idx s1,
        attr t = CONST idx /\ stepped P s0 k s1 /\
        index_of (value t) (add_to (value t) (const_table s1)) = Some idx /\
        s' = with_const_table (add_to (value t) (const_table s1)) s1
  end.

(** What [_scan_string] leaves: as [const_scanned], and the token is a
    STRING whose lexeme is the source text that was consumed. *)
Definition string_scanned (P : Lexer -> Prop) (sl sc : nat) (s0 : Lexer)
    (r : option Token) (s' : Lexer) : Prop :=
  match r with
  | None => stepped P s0 1 s'
  | Some t =>
      tline t = sl /\ tcol t = sc /\ code t = 54 /\
      exists idx s1,
        attr t = CONST idx /\ stepped P s0 1 s1 /\
        value t = between s0 s1 /\
        (exists body, value t = DQUOTE :: body ++ [DQUOTE]) /\
        index_of (value t) (add_to (value t) (const_table s1)) = Some idx /\
        s' = with_const_table (add_to (value t) (const_table s1)) s1
  end.

(** The cursor is at [//] or at [/*]. *)
Definition comment_start (s : Lexer) : bool :=
  opt_is (nth_error (src s) (pos s)) "/"
  && (opt_is (nth_error (src s) (pos s + 1)) "/"
      || opt_is (nth_error (src s) (pos s + 1)) "*").

(** What emitting the token [t] does to the tables of [s1]: nothing for a
    keyword, operator or delimiter, a lookup-or-insert of its spelling in the
    identifier table for an ID and in the constant table for a constant. *)
Definition token_added (t : Token) (s1 s2 : Lexer) : Prop :=
  (attr t = NoAttr /\ (code t < 50 \/ 56 < code t) /\ s2 = s1)
  \/ (code t = 50 /\
      exists idx,
        attr t = SYM idx /\
        index_of (value t) (add_to (value t) (sym_table s1)) = Some idx /\
        s2 = with_sym_table (add_to (value t) (sym_table s1)) s1)
  \/ (51 <= code t <= 56 /\
      exists idx,
        attr t = CONST idx /\
        index_of (value t) (add_to (value t) (const_table s1)) = Some idx /\
        s2 = with_const_table (add_to (value t) (const_table s1)) s1).

(** What a scanner of any token kind leaves: no token, or a token at line
    [sl], column [sc] with its table entry made. *)
Definition scanned (P : Lexer -> Prop) (sl sc : nat) (s0 : Lexer)
    (r : option Token) (s' : Lexer) : Prop :=
  match r with
  | None => stepped P s0 1 s'
  | Some t =>
      tline t = sl /\ tcol t = sc /\
      exists s1, stepped P s0 1 s1 /\ token_added t s1 s'
  end.

(** What one dispatch leaves: a state that is one character further at
    least, to which at most one token was appended after its table entry
    was made; the token carries the line and column of the dispatch. *)
Definition dispatched (P : Lexer -> Prop) (s s' : Lexer) : Prop :=
  exists s1,
    stepped P s 1 s1 /\
    (s' = s1 \/
     exists t s2,
       tline t = line s /\ tcol t = col s /\
       token_added t s1 s2 /\ s' = push_token t s2).

(** What the rest of an iteration leaves when it starts in [s0], after the
    whitespace: as [dispatched], but a comment leaves no token, and nothing
    is consumed at the end of the input, where the loop is left. *)
Definition lexeme_scanned (P : Lexer -> Prop) (s0 : Lexer)
    (c : ctl unit unit) (s' : Lexer) : Prop :=
  match c with
  | Continue _ => src s' = src s0 /\ pos s0 < pos s'
  | _ => True
  end /\
  exists s1,
    stepped P s0 0 s1 /\
    (s' = s1 \/
     exists t s2,
       tline t = line s0 /\ tcol t = col s0 /\
       token_added t s1 s2 /\ s' = push_token t s2).

(** The tokens of the identifier table and of the constant table. *)
Definition is_id (t : Token) : bool := code t =? 50.

Definition is_const (t : Token) : bool := (51 <=? code t) && (code t <=? 56).

(** The spellings of the ID tokens and of the constant tokens, in the order
    of the token list. *)
Definition id_spellings (ts : list Token) : list str :=
  map value (filter is_id ts).

Definition const_spellings (ts : list Token) : list str :=
  map value (filter is_const ts).

(** The attribute of a token of a table points to the first occurrence of the
    token's spelling in that table. *)
Definition attr_ok (syms consts : list str) (t : Token) : Prop :=
  (is_id t = true ->
   exists idx, attr t = SYM idx /\ index_of (value t) syms = Some idx) /\
  (is_const t = true ->
   exists idx, attr t = CONST idx /\ index_of (value t) consts = Some idx).

(** The invariant of the driver loop: each table is what lookup-or-insert
    makes of the spellings of the tokens emitted so far. *)
Definition tables_ok (s : Lexer) : Prop :=
  sym_table s = distinct (id_spellings (tokens s)) /\
  const_table s = distinct (const_spellings (tokens s)) /\
  Forall (attr_ok (sym_table s) (const_table s)) (tokens s).

(** The tables and the token list as they were in [s]. *)
Definition same_output (s x : Lexer) : Prop :=
  tokens x = tokens s /\ sym_table x = sym_table s /\
  const_table x = const_table s.

(** Equality of Python strings is decidable. *)
Definition str_eq_dec : forall a b : str, {a = b} + {a <> b} :=
  list_eq_dec ascii_dec.

(** The scanner left by [x = x + 1;]. *)
Definition example_tables : Lexer :=
  Eval vm_compute in
    match tokenize_loop (Lexer_init (py "x = x + 1;")) with
    | Ok _ s => s
    | _ => Lexer_init []
    end.

(** The line and column of the character that follows the text [l], counted
    from line 1, column 1. *)
Definition line_col (l : str) : nat * nat :=
  fold_left
    (fun lc ch =>
       if Ascii.eqb ch NL then (S (fst lc), 1) else (fst lc, S (snd lc)))
    l (1, 1).

(** The counters of the scanner are the line and column of its cursor. *)
Definition tracked (s : Lexer) : Prop :=
  (line s, col s) = line_col (firstn (pos s) (src s)).

(** The errors recorded since [s] all carry line [sl] and column [sc]. *)
Definition errors_since (s : Lexer) (sl sc : nat) (x : Lexer) : Prop :=
  exists new,
    errors x = errors s ++ new /\
    Forall (fun e => eline e = sl /\ ecol e = sc) new.

(** The scanners left by the first iteration on [  "ab\q" ;], before and
    after the whitespace, and at its end. *)
Definition example_escape : Lexer :=
  Lexer_init (py "  " ++ [DQUOTE] ++ py "ab\q" ++ [DQUOTE] ++ py " ;").

Definition example_escape_start : Lexer :=
  Eval vm_compute in
    match _skip_ws example_escape with
    | Ok _ s => s
    | _ => example_escape
    end.

Definition example_escape_end : Lexer :=
  Eval vm_compute in
    match tokenize_body example_escape with
    | Ok _ s => s
    | _ => example_escape
    end.

(** The tokens and errors that [tokenize] returns for a source text; [None]
    when it raises. *)
Definition lex (source : string) : option (list Token * list LexError) :=
  match run source with
  | Ok r _ => Some r
  | _ => None
  end.

(** The scanner at the literal ["a\nb"] (a backslash and an [n] between [a]
    and [b]), the token that [_scan_string] returns and the scanner it
    leaves. *)
Definition example_string : Lexer :=
  Lexer_init ([DQUOTE] ++ py "a\nb" ++ [DQUOTE]).

Definition example_string_token : Token :=
  Eval vm_compute in
    match _scan_string example_string with
    | Ok (Some t) _ => t
    | _ => mkToken 0 [] NoAttr 0 0
    end.

Definition example_string_end : Lexer :=
  Eval vm_compute in
    match _scan_string example_string with
    | Ok _ s => s
    | _ => example_string
    end.

(** The scanner at [  #y;] and after its whitespace. *)
Definition example_hash : Lexer := Lexer_init (py "  #y;").

Definition example_hash_start : Lexer :=
  Eval vm_compute in
    match _skip_ws example_hash with
    | Ok _ s => s
    | _ => example_hash
    end.

(** The text [l] contains the two characters that close a block comment. *)
Fixpoint has_close (l : str) : bool :=
  match l with
  | [] => false
  | c :: l' =>
      (Ascii.eqb c "*"
       && match l' with
          | d :: _ => Ascii.eqb d "/"
          | [] => false
          end)
      || has_close l'
  end.

(** The scanner after an unclosed comment that started in [s]: the input is
    consumed and one error was recorded, at the line and column of [s]. *)
Definition comment_swallowed (s s' : Lexer) : Prop :=
  src s' = src s /\ pos s' = List.length (src s) /\
  tokens s' = tokens s /\
  errors s'
  = errors s ++ [mkLexError UNCLOSED_COMMENT (line s) (col s) (py "/*") ""] /\
  sym_table s' = sym_table s /\ const_table s' = const_table s.

(** A scanner in front of a comment that is not closed ([* /] does not close
    it), and after the whitespace. *)
Definition example_unclosed : Lexer := Lexer_init (py "  /* a * / b").

Definition example_unclosed_start : Lexer :=
  Eval vm_compute in
    match _skip_ws example_unclosed with
    | Ok _ s => s
    | _ => example_unclosed
    end.

(** The longest operator at the head of the text [l]: its first three
    characters if they form an operator, else its first two if they do, else
    its first if it is one. *)
Definition longest_operator (l : str) : option str :=
  if str_in (firstn 3 l) TRIPLE_OPS then Some (firstn 3 l)
  else if str_in (firstn 2 l) DOUBLE_OPS then Some (firstn 2 l)
  else if str_in (firstn 1 l) SINGLE_OPS then Some (firstn 1 l)
  else None.

(** The scanner after the characters of [v] were consumed. *)
Definition consumed (v : str) (s : Lexer) : Lexer :=
  fold_left (fun s c => advanced c s) v s.

(** The code of a spelling in [CODE]. *)
Definition code_of (v : str) : nat :=
  match assoc str_eqb v CODE with
  | Some c => c
  | None => 0
  end.

(** The token of an operator or delimiter [v] that starts in [s]. *)
Definition plain_token (v : str) (s : Lexer) : Token :=
  mkToken (code_of v) v NoAttr (line s) (col s).

(** The scanner at [>>=b]. *)
Definition example_shift : Lexer := Lexer_init (py ">>=b").

(** The scanner at [0x1g]. *)
Definition example_hex : Lexer := Lexer_init (py "0x1g").

(** The text that is left to scan. *)
Definition rest (s : Lexer) : str := skipn (pos s) (src s).

(** A character of a string body that stands for itself. *)
Definition plain_char (c : ascii) : bool :=
  not_dquote_nl c && negb (Ascii.eqb c "\").

(** A character that may follow the backslash of an escape: not a newline,
    and an octal digit if it is a digit. *)
Definition escape_char_ok (e : ascii) : bool :=
  negb (Ascii.eqb e NL) && (negb (isdigit e) || in_range 48 55 e).

(** The body of a string literal that its closing quote can end: plain
    characters and escapes.  A body without illegal escapes is of this kind,
    and so is one with an escape like [\q], which the scanner records as an
    error before it goes on. *)
Inductive literal_body : str -> Prop :=
| body_nil : literal_body []
| body_plain (c : ascii) (l : str) :
    plain_char c = true -> literal_body l -> literal_body (c :: l)
| body_escape (e : ascii) (l : str) :
    escape_char_ok e = true -> literal_body l ->
    literal_body ("\"%char :: e :: l).

(** What the loop of [_scan_string] keeps of the scanner [s]. *)
Definition string_frame (s x : Lexer) : Prop :=
  src x = src s /\ tokens x = tokens s /\
  sym_table x = sym_table s /\ const_table x = const_table s.

(** [c in ' \t\r\n']. *)
Definition is_space (c : ascii) : bool := char_in c WHITESPACE.

(** The first character of what is left to scan. *)
Definition current (s : Lexer) : option ascii := hd_error (rest s).

(** The scanner in front of two spaces and a newline, and in front of two
    spaces and an [x]. *)
Definition example_blank : Lexer := Lexer_init (py "  " ++ [NL]).

Definition example_indented : Lexer := Lexer_init (py "  x").

(** No character of the text is a newline. *)
Definition one_line (l : str) : Prop :=
  Forall (fun c => negb (Ascii.eqb c NL) = true) l.

(** The scanner in front of a line comment and of a block comment that is
    closed. *)
Definition example_line_comment : Lexer :=
  Lexer_init (py "// a" ++ [NL] ++ py "b").

Definition example_block_comment : Lexer :=
  Lexer_init (py "/* a" ++ [NL] ++ py "*/b").

(** The run of identifier characters at the cursor. *)
Definition ident_run (s : Lexer) : str := take_while is_ident_char (rest s).

(** A run of digits. *)
Definition digits (l : str) : Prop := Forall (fun c => isdigit c = true) l.

(** The fraction of a decimal literal: nothing, or a point and digits. *)
Definition fraction (frac : str) : Prop :=
  frac = [] \/ exists fd, frac = "."%char :: fd /\ digits fd.

(** The exponent of a decimal literal: nothing, or [e] or [E], a sign or
    none, and one digit at least. *)
Definition exponent (ex : str) : Prop :=
  ex = [] \/
  exists e sg ed,
    ex = e :: sg ++ ed /\ (e = "e"%char \/ e = "E"%char) /\
    (sg = [] \/ sg = ["+"%char] \/ sg = ["-"%char]) /\
    ed <> [] /\ digits ed.

(** What may follow a number: no digit, letter, underscore or point. *)
Definition number_end (tail : str) : Prop :=
  opt_test (fun c => isdigit c || isalpha c || Ascii.eqb c "_"
                     || Ascii.eqb c ".") (hd_error tail) = false.

(** Where the text of a number stops: in front of no digit or point, and of
    no [e] or [E] when there is no exponent yet. *)
Definition literal_stop (ex tail : str) : Prop :=
  opt_test (fun c => isdigit c || Ascii.eqb c ".") (hd_error tail) = false /\
  (ex = [] ->
   opt_test (fun c => Ascii.eqb (lower c) "e") (hd_error tail) = false).

(** The text starts like a name: with a letter or an underscore. *)
Definition starts_name (tail : str) : bool :=
  opt_test (fun c => isalpha c || Ascii.eqb c "_") (hd_error tail).

(** The scanner in front of [12.5e-3;] and of [12abc;]. *)
Definition example_float : Lexer := Lexer_init (py "12.5e-3;").

Definition example_bad_number : Lexer := Lexer_init (py "12abc;").

(** The scanner in front of [1..5], of [1.2.3;] and of [1e+;]. *)
Definition example_range : Lexer := Lexer_init (py "1..5").

Definition example_two_points : Lexer := Lexer_init (py "1.2.3;").

Definition example_no_exponent : Lexer := Lexer_init (py "1e+;").

(** [c in '89']. *)
Definition is_89 (c : ascii) : bool := char_in c (py "89").

(** The scanner in front of [0xg1;], of [0x;], of [089abc] and of [017;]. *)
Definition example_bad_hex : Lexer := Lexer_init (py "0xg1;").

Definition example_empty_hex : Lexer := Lexer_init (py "0x;").

Definition example_bad_octal : Lexer := Lexer_init (py "089abc").

Definition example_octal : Lexer := Lexer_init (py "017;").

(** The inside of a character literal of one character: a character that
    stands for itself, or a backslash and a key of [ESCAPE_CHARS]. *)
Definition char_body (h : str) : Prop :=
  (exists c, h = [c] /\ not_quote_nl c = true /\ c <> "\"%char) \/
  (exists e, h = ["\"%char; e] /\ escape_lookup e ESCAPE_CHARS <> None).

(** The scanner in front of the literal of a newline escape, of [''], of
    ['ab'] and of ['a] at the end of the input. *)
Definition example_char : Lexer := Lexer_init (py "'\n';").

Definition example_empty_char : Lexer := Lexer_init (py "'';").

Definition example_multi_char : Lexer := Lexer_init (py "'ab';").

Definition example_open_char : Lexer := Lexer_init (py "'a").

(** A character that starts no lexeme: no letter, underscore, digit, quote,
    operator or delimiter. *)
Definition starts_nothing (c : ascii) : bool :=
  negb (isalpha c || Ascii.eqb c "_" || isdigit c || Ascii.eqb c "'"
        || Ascii.eqb c DQUOTE || str_in [c] SINGLE_OPS
        || str_in [c] DELIMITERS).

(** The scanner in front of [@x]. *)
Definition example_at : Lexer := Lexer_init (py "@x").

(** The exceptions that the methods can let through: the [TypeError] of a
    [None] used as a string and the [ValueError] of [int]. *)
Definition expected (e : exn) : Prop := e = TypeError \/ e = ValueError.

(** The source ends in a whitespace character. *)
Definition ends_in_space (source : str) : Prop :=
  exists l c, source = l ++ [c] /\ is_space c = true.

(** The source has a backslash in front of a digit that is no octal
    digit. *)
Definition bad_escape (source : str) : Prop :=
  exists i d,
    nth_error source i = Some "\"%char /\ nth_error source (S i) = Some d /\
    isdigit d = true /\ is_oct_digit d = false.

(** The exceptions of [tokenize] and what the source is like when they are
    raised. *)
Definition may_raise (source : str) (e : exn) : Prop :=
  (e = TypeError /\ ends_in_space source) \/
  (e = ValueError /\ bad_escape source).

(** [wpe E m Q s]: as [wp], with a condition [E] on the exception that is
    raised. *)
Definition wpe {A} (E : exn -> Prop) (m : M A) (Q : A -> Lexer -> Prop)
    (s : Lexer) : Prop :=
  match m s with
  | Ok a s' => Q a s'
  | Raise e => E e
  | OutOfFuel => False
  end.

(** What a scanner of one token leaves when it was started in [s0]: as
    [scanned], and the value of the token is the text between [s0] and the
    cursor. *)
Definition raw_scanned (P : Lexer -> Prop) (sl sc : nat) (s0 : Lexer)
    (k : nat) (r : option Token) (s' : Lexer) : Prop :=
  match r with
  | None => stepped P s0 k s'
  | Some t =>
      tline t = sl /\ tcol t = sc /\
      exists s1,
        stepped P s0 k s1 /\ value t = between s0 s1 /\ token_added t s1 s'
  end.

(** * Properties *)

(** ** Strings and tables *)

Lemma str_eqb_eq (a b : str) : str_eqb a b = true <-> a = b.
Proof.
  revert b; induction a as [|x a IH]; intros [|y b]; simpl;
    try (split; [discriminate | discriminate]); try tauto.
  rewrite andb_true_iff, Ascii.eqb_eq, IH.
  split; [intros [-> ->]; reflexivity | intros H; inversion H; auto].
Qed.

Lemma str_eqb_refl (a : str) : str_eqb a a = true.
Proof. apply str_eqb_eq; reflexivity. Qed.

Lemma str_in_In (v : str) (l : list str) : str_in v l = true <-> In v l.
Proof.
  unfold str_in; rewrite existsb_exists; split.
  - intros (x & Hx & E); apply str_eqb_eq in E; subst; assumption.
  - intros H; exists v; split; [assumption | apply str_eqb_refl].
Qed.

Lemma index_of_Some_nth (v : str) (l : list str) (i : nat) :
  index_of v l = Some i ->
  nth_error l i = Some v /\ forall j, j < i -> nth_error l j <> Some v.
Proof.
  revert i; induction l as [|x l IH]; simpl; intros i H; [discriminate|].
  destruct (str_eqb x v) eqn:E.
  - inversion H; subst; apply str_eqb_eq in E; subst.
    split; [reflexivity | intros j Hj; lia].
  - destruct (index_of v l) as [k|]; [|discriminate].
    inversion H; subst; destruct (IH k eq_refl) as [H1 H2].
    split; [assumption|].
    intros [|j] Hj; simpl.
    + intros Hx; inversion Hx; subst; rewrite str_eqb_refl in E; discriminate.
    + apply H2; lia.
Qed.

Lemma index_of_In (v : str) (l : list str) :
  In v l -> exists i, index_of v l = Some i.
Proof.
  induction l as [|x l IH]; simpl; [tauto|].
  intros H; destruct (str_eqb x v) eqn:E; [eexists; reflexivity|].
  destruct H as [->|H]; [rewrite str_eqb_refl in E; discriminate|].
  destruct (IH H) as [i ->]; eexists; reflexivity.
Qed.

Lemma index_of_app (v : str) (l l' : list str) (i : nat) :
  index_of v l = Some i -> index_of v (l ++ l') = Some i.
Proof.
  revert i; induction l as [|x l IH]; simpl; intros i H; [discriminate|].
  destruct (str_eqb x v); [assumption|].
  destruct (index_of v l) as [k|]; [|discriminate].
  rewrite (IH k eq_refl); assumption.
Qed.

Lemma add_to_elem (v x : str) (t : list str) :
  In x (add_to v t) <-> In x t \/ x = v.
Proof.
  unfold add_to; destruct (str_in v t) eqn:E.
  - apply str_in_In in E; split; [tauto | intros [H| ->]; assumption].
  - rewrite in_app_iff; simpl; intuition.
Qed.

Lemma add_to_NoDup (v : str) (t : list str) : NoDup t -> NoDup (add_to v t).
Proof.
  unfold add_to; intros H; destruct (str_in v t) eqn:E; [assumption|].
  apply NoDup_app; [assumption | repeat constructor; simpl; tauto |].
  intros x Hx [<-|[]].
  apply str_in_In in Hx; congruence.
Qed.

Lemma add_to_index (v x : str) (t : list str) (i : nat) :
  index_of x t = Some i -> index_of x (add_to v t) = Some i.
Proof.
  unfold add_to; destruct (str_in v t); [tauto | apply index_of_app].
Qed.

Lemma distinct_snoc (l : list str) (v : str) :
  distinct (l ++ [v]) = add_to v (distinct l).
Proof. unfold distinct; rewrite fold_left_app; reflexivity. Qed.

Lemma distinct_NoDup (l : list str) : NoDup (distinct l).
Proof.
  induction l as [|v l IH] using rev_ind; [constructor|].
  rewrite distinct_snoc; apply add_to_NoDup; assumption.
Qed.

Lemma distinct_elem (l : list str) (x : str) : In x (distinct l) <-> In x l.
Proof.
  induction l as [|v l IH] using rev_ind; [reflexivity|].
  rewrite distinct_snoc, add_to_elem, in_app_iff, IH; simpl; intuition.
Qed.

(** ** A weakest-precondition calculus for the monad

    [wp E m Q s]: run from [s], [m] does not run out of fuel, its result
    satisfies [Q], and [E] holds if it raises. *)

Lemma wp_ret {A} E (a : A) Q s : Q a s -> wp E (ret a) Q s.
Proof. exact (fun H => H). Qed.

Lemma wp_bind {A B} E (m : M A) (k : A -> M B) Q s :
  wp E m (fun a s' => wp E (k a) Q s') s -> wp E (bind m k) Q s.
Proof. unfold wp, bind; destruct (m s); auto. Qed.

Lemma wp_mono {A} E (m : M A) (Q Q' : A -> Lexer -> Prop) s :
  wp E m Q s -> (forall a s', Q a s' -> Q' a s') -> wp E m Q' s.
Proof. unfold wp; destruct (m s); auto. Qed.

Lemma wp_get {A} E (f : Lexer -> A) Q s : Q (f s) s -> wp E (get f) Q s.
Proof. exact (fun H => H). Qed.

Lemma wp_char E Q s : Q (nth_error (src s) (pos s)) s -> wp E _char Q s.
Proof. exact (fun H => H). Qed.

Lemma wp_peek E k Q s : Q (nth_error (src s) (pos s + k)) s -> wp E (_peek k) Q s.
Proof. exact (fun H => H). Qed.

Lemma wp_advance E Q s :
  (forall ch, nth_error (src s) (pos s) = Some ch -> Q (Some ch) (advanced ch s)) ->
  (nth_error (src s) (pos s) = None -> Q None s) ->
  wp E _advance Q s.
Proof.
  unfold wp, _advance; intros H1 H2.
  destruct (nth_error (src s) (pos s)); auto.
Qed.

Lemma wp_nonnull (E : Prop) e x Q s :
  match x with Some c => Q c s | None => E end -> wp E (nonnull e x) Q s.
Proof. destruct x; exact (fun H => H). Qed.

Lemma wp_errors_append E e Q s : Q tt (push_error e s) -> wp E (errors_append e) Q s.
Proof. exact (fun H => H). Qed.

Lemma wp_tokens_append E t Q s : Q tt (push_token t s) -> wp E (tokens_append t) Q s.
Proof. exact (fun H => H). Qed.

Lemma remaining_lt (s s' : Lexer) :
  src s' = src s -> pos s < pos s' -> pos s < List.length (src s) ->
  remaining s' < remaining s.
Proof. unfold remaining; intros ->; lia. Qed.

Lemma wp_while_fuel {A R} E (I : A -> Lexer -> Prop) (Q : A + R -> Lexer -> Prop)
    (cond : A -> M bool) (body : A -> M (ctl A R)) :
  (forall a s, I a s ->
     wp E (cond a)
       (fun b s1 =>
          remaining s1 <= remaining s /\
          if b then
            wp E (body a)
              (fun c s2 =>
                 match c with
                 | Continue a' => I a' s2 /\ remaining s2 < remaining s1
                 | Break a' => Q (inl a') s2
                 | Return r => Q (inr r) s2
                 end) s1
          else Q (inl a) s1) s) ->
  forall fuel a s, remaining s < fuel -> I a s ->
    wp E (while_fuel fuel cond body a) Q s.
Proof.
  intros Hstep fuel; induction fuel as [|fuel IH]; intros a s Hf HI; [lia|].
  specialize (Hstep a s HI); unfold wp in *; simpl.
  destruct (cond a s) as [b s1| |]; auto.
  destruct Hstep as [Hle Hstep].
  destruct b; auto.
  destruct (body a s1) as [[a'|a'|r] s2| |]; auto.
  destruct Hstep as [HI' Hlt]; apply IH; [lia | assumption].
Qed.

Lemma wp_while {A R} E (I : A -> Lexer -> Prop) (Q : A + R -> Lexer -> Prop)
    (cond : A -> M bool) (body : A -> M (ctl A R)) a s :
  I a s ->
  (forall a s, I a s ->
     wp E (cond a)
       (fun b s1 =>
          remaining s1 <= remaining s /\
          if b then
            wp E (body a)
              (fun c s2 =>
                 match c with
                 | Continue a' => I a' s2 /\ remaining s2 < remaining s1
                 | Break a' => Q (inl a') s2
                 | Return r => Q (inr r) s2
                 end) s1
          else Q (inl a) s1) s) ->
  wp E (while_ cond body a) Q s.
Proof.
  intros HI Hstep; unfold while_.
  apply (wp_while_fuel E I Q cond body Hstep); [lia | assumption].
Qed.

(** ** Invariants of the cursor operations

    A property [P] of the scanner that consuming a character preserves
    ([adv_closed]) and that recording an error at line [sl], column [sc]
    preserves ([err_closed]) is preserved by every sub-scanner started at
    that line and column.  [stepped P s0 k s]: [s] satisfies [P], reads the
    same source as [s0] and is [k] characters at least further on. *)

Lemma nth_error_lt {A} (l : list A) n x :
  nth_error l n = Some x -> n < List.length l.
Proof. intros H; apply nth_error_Some; congruence. Qed.

Lemma firstn_S_nth {A} (l : list A) n x :
  nth_error l n = Some x -> firstn (S n) l = firstn n l ++ [x].
Proof.
  revert l; induction n as [|n IH]; intros [|y l] H; try discriminate.
  - inversion H; reflexivity.
  - simpl in *; rewrite (IH l H); reflexivity.
Qed.

Lemma between_refl (s : Lexer) : between s s = [].
Proof. unfold between; rewrite Nat.sub_diag; reflexivity. Qed.

Lemma between_advanced (s0 s : Lexer) (ch : ascii) :
  src s = src s0 -> pos s0 <= pos s ->
  nth_error (src s) (pos s) = Some ch ->
  between s0 (advanced ch s) = between s0 s ++ [ch].
Proof.
  unfold between; intros Hsrc Hpos Hch.
  change (pos (advanced ch s)) with (S (pos s)).
  replace (S (pos s) - pos s0) with (S (pos s - pos s0)) by lia.
  apply firstn_S_nth.
  rewrite nth_error_skipn, <- Hsrc.
  replace (pos s0 + (pos s - pos s0)) with (pos s) by lia; assumption.
Qed.

Lemma skipn_nth {A} (l : list A) n x :
  nth_error l n = Some x -> exists rest, skipn n l = x :: rest.
Proof.
  revert l; induction n as [|n IH]; intros [|y l] H; try discriminate.
  - inversion H; eexists; reflexivity.
  - apply (IH l H).
Qed.

Lemma between_cons (s s' : Lexer) (c : ascii) :
  nth_error (src s) (pos s) = Some c -> pos s < pos s' ->
  exists tl, between s s' = c :: tl.
Proof.
  unfold between; intros Hc Hlt.
  destruct (skipn_nth _ _ _ Hc) as [rest ->].
  destruct (pos s' - pos s) as [|k] eqn:Hk; [lia|].
  eexists; reflexivity.
Qed.

Ltac lex_simpl :=
  cbn [src pos line col tokens errors sym_table const_table advanced
       push_error push_token with_sym_table with_const_table] in *.

Ltac wp_step :=
  lazymatch goal with
  | |- wp _ (bind _ _) _ _ => apply wp_bind
  | |- wp _ (ret _) _ _ => apply wp_ret
  | |- wp _ (get _) _ _ => apply wp_get
  | |- wp _ _char _ _ => apply wp_char
  | |- wp _ (_peek _) _ _ => apply wp_peek
  | |- wp _ _advance _ _ => apply wp_advance; [intros ? ? | intros ?]
  | |- wp _ (as_str _) _ _ => unfold as_str
  | |- wp _ (nonnull _ _) _ _ =>
      apply wp_nonnull; cbv beta iota;
      lazymatch goal with
      | |- match ?x with Some _ => _ | None => _ end => destruct x eqn:?
      | |- _ => idtac
      end
  | |- wp _ (errors_append _) _ _ => apply wp_errors_append
  | |- wp _ (tokens_append _) _ _ => apply wp_tokens_append
  | |- wp _ (if ?b then _ else _) _ _ => destruct b eqn:?
  | |- wp _ (match ?x with inl _ => _ | inr _ => _ end) _ _ => destruct x
  | |- wp _ (match ?x with Some _ => _ | None => _ end) _ _ => destruct x eqn:?
  | |- wp _ (match ?x with (_, _) => _ end) _ _ => destruct x
  end; cbv beta.

Ltac wp_run := repeat wp_step.

Ltac wp_call lem := eapply wp_mono; [ eapply lem | cbv beta ].

(** A character test that holds cannot have read [None]. *)
Ltac no_char :=
  match goal with
  | H : nth_error ?l ?n = None, H' : context [nth_error ?l ?n] |- _ =>
      rewrite H in H'; simpl in H'; discriminate
  | H : nth_error ?l ?n = None, H' : nth_error ?l ?n = Some _ |- _ =>
      congruence
  end.

Ltac open_stepped :=
  repeat match goal with
         | H : stepped _ _ _ _ |- _ => destruct H as (? & ? & ?)
         | H : _ /\ _ |- _ => destruct H
         end.

Ltac lex_solve :=
  open_stepped; unfold stepped, adv_closed, err_closed in *; lex_simpl;
  repeat match goal with |- _ /\ _ => split end;
  first
    [ assumption
    | lia
    | congruence
    | no_char
    | apply remaining_lt; lex_simpl;
      [congruence | lia | eauto using nth_error_lt]
    | solve [eauto 8] ].

Lemma wp_char_is E p Q s :
  Q (opt_test p (nth_error (src s) (pos s))) s -> wp E (char_is p) Q s.
Proof. exact (fun H => H). Qed.

Lemma take_run_spec E P p acc s :
  adv_closed P -> P s ->
  wp E (take_run p acc)
    (fun r s' =>
       stepped P s 0 s' /\ r = acc ++ between s s' /\
       (opt_test p (nth_error (src s) (pos s)) = true -> pos s < pos s') /\
       opt_test p (nth_error (src s') (pos s')) = false) s.
Proof.
  intros HP Hs; unfold take_run.
  apply wp_bind.
  apply wp_while with
    (I := fun r s1 => stepped P s 0 s1 /\ r = acc ++ between s s1).
  { rewrite between_refl, app_nil_r; lex_solve. }
  intros a s1 (H1 & ->).
  apply wp_char_is; split; [lia|].
  destruct (opt_test p (nth_error (src s1) (pos s1))) eqn:Hc.
  - unfold append_advance; wp_run; try lex_solve.
    open_stepped.
    rewrite (between_advanced s s1) by (assumption || lia).
    rewrite app_assoc; lex_solve.
  - wp_run; repeat split; try lex_solve; try exact Hc.
    intros Hp; open_stepped.
    assert (pos s < pos s1 \/ pos s1 = pos s) as [?| Heq] by lia; [assumption|].
    rewrite Heq, H0 in Hc; congruence.
Qed.

Lemma skip_run_spec E P p s :
  adv_closed P -> P s ->
  wp E (skip_run p)
    (fun _ s' =>
       stepped P s 0 s' /\
       (opt_test p (nth_error (src s) (pos s)) = true -> pos s < pos s')) s.
Proof.
  intros HP Hs; unfold skip_run.
  apply wp_bind.
  apply wp_while with (I := fun (_ : unit) s1 => stepped P s 0 s1).
  { lex_solve. }
  intros a s1 H1.
  apply wp_char_is; split; [lia|].
  destruct (opt_test p (nth_error (src s1) (pos s1))) eqn:Hc.
  - wp_run; lex_solve.
  - wp_run; repeat split; try lex_solve.
    intros Hp; open_stepped.
    assert (pos s < pos s1 \/ pos s1 = pos s) as [?| Heq] by lia; [assumption|].
    rewrite Heq, H0 in Hc; congruence.
Qed.

Lemma _skip_ws_spec P s :
  adv_closed P -> P s ->
  wp True _skip_ws (fun _ s' => stepped P s 0 s') s.
Proof.
  intros HP Hs; unfold _skip_ws.
  apply wp_bind.
  apply wp_while with (I := fun (_ : unit) s1 => stepped P s 0 s1).
  { lex_solve. }
  intros a s1 H1.
  wp_run; try exact I.
  split; [lia|].
  destruct (char_in a0 WHITESPACE); wp_run; lex_solve.
Qed.


(** ** The tables: lookup-or-insert *)

Lemma with_const_table_same (s : Lexer) : with_const_table (const_table s) s = s.
Proof. destruct s; reflexivity. Qed.

Lemma with_sym_table_same (s : Lexer) : with_sym_table (sym_table s) s = s.
Proof. destruct s; reflexivity. Qed.

Lemma wp_list_index E v l Q s :
  In v l ->
  (forall idx, index_of v l = Some idx -> Q idx s) ->
  wp E (list_index v l) Q s.
Proof.
  intros Hin HQ; unfold list_index.
  destruct (index_of_In v l Hin) as [i Hi]; rewrite Hi.
  apply wp_ret, HQ, Hi.
Qed.

Lemma wp_add_const E val Q s :
  (forall idx,
     index_of val (add_to val (const_table s)) = Some idx ->
     Q idx (with_const_table (add_to val (const_table s)) s)) ->
  wp E (_add_const val) Q s.
Proof.
  intros HQ; unfold _add_const; wp_run.
  - unfold set_const_table at 1; unfold wp at 1; cbv beta.
    wp_run; lex_simpl.
    apply wp_list_index; [apply in_or_app; right; left; reflexivity|].
    intros idx Hidx; unfold add_to in HQ.
    apply negb_true_iff in Heqb; rewrite Heqb in HQ; apply HQ, Hidx.
  - wp_run.
    apply negb_false_iff in Heqb.
    apply wp_list_index; [apply str_in_In, Heqb|].
    intros idx Hidx; unfold add_to in HQ; rewrite Heqb in HQ.
    rewrite <- (with_const_table_same s) at 1; apply HQ, Hidx.
Qed.

Lemma wp_add_sym E val Q s :
  (forall idx,
     index_of val (add_to val (sym_table s)) = Some idx ->
     Q idx (with_sym_table (add_to val (sym_table s)) s)) ->
  wp E (_add_sym val) Q s.
Proof.
  intros HQ; unfold _add_sym; wp_run.
  - unfold set_sym_table at 1; unfold wp at 1; cbv beta.
    wp_run; lex_simpl.
    apply wp_list_index; [apply in_or_app; right; left; reflexivity|].
    intros idx Hidx; unfold add_to in HQ.
    apply negb_true_iff in Heqb; rewrite Heqb in HQ; apply HQ, Hidx.
  - wp_run.
    apply negb_false_iff in Heqb.
    apply wp_list_index; [apply str_in_In, Heqb|].
    intros idx Hidx; unfold add_to in HQ; rewrite Heqb in HQ.
    rewrite <- (with_sym_table_same s) at 1; apply HQ, Hidx.
Qed.

Lemma wp_CODE_get E key c Q s :
  assoc str_eqb key CODE = Some c -> Q c s -> wp E (CODE_get key) Q s.
Proof. intros H HQ; unfold CODE_get; rewrite H; exact HQ. Qed.

Lemma const_kind_code (kind : string) :
  In kind const_kinds ->
  exists c, assoc str_eqb (py kind) CODE = Some c /\ 51 <= c <= 56.
Proof.
  intros H; unfold const_kinds in H; simpl in H.
  repeat (destruct H as [<-|H];
          [eexists; split; [vm_compute; reflexivity | lia]|]).
  destruct H.
Qed.

Lemma wp_const_token E kind val sl sc Q s :
  In kind const_kinds ->
  (forall idx c,
     index_of val (add_to val (const_table s)) = Some idx ->
     assoc str_eqb (py kind) CODE = Some c -> 51 <= c <= 56 ->
     Q (Some (mkToken c val (CONST idx) sl sc))
       (with_const_table (add_to val (const_table s)) s)) ->
  wp E (const_token kind val sl sc) Q s.
Proof.
  intros Hk HQ; unfold const_token.
  apply wp_bind, wp_add_const; intros idx Hidx.
  destruct (const_kind_code kind Hk) as (c & Hc & Hr).
  apply wp_bind, (wp_CODE_get E _ c); [assumption|].
  apply wp_ret, HQ; assumption.
Qed.

Lemma keyword_code (v : str) :
  str_in v KEYWORDS = true ->
  exists c, assoc str_eqb v CODE = Some c /\ c < 50.
Proof.
  intros H; apply str_in_In in H; unfold KEYWORDS in H; simpl in H.
  repeat (destruct H as [<-|H];
          [eexists; split; [vm_compute; reflexivity | lia]|]).
  destruct H.
Qed.

Lemma operator_code (v : str) :
  In v (TRIPLE_OPS ++ DOUBLE_OPS ++ SINGLE_OPS ++ DELIMITERS) ->
  exists c, assoc str_eqb v CODE = Some c /\ 56 < c.
Proof.
  intros H.
  unfold TRIPLE_OPS, DOUBLE_OPS, SINGLE_OPS, DELIMITERS in H; simpl in H.
  repeat (destruct H as [<-|H];
          [eexists; split; [vm_compute; reflexivity | lia]|]).
  destruct H.
Qed.


(** ** The sub-scanners preserve every closed property *)

Lemma const_scanned_shift P sl sc s0 s1 j k r s' :
  src s1 = src s0 -> pos s0 + j <= pos s1 ->
  const_scanned P sl sc s1 k r s' -> const_scanned P sl sc s0 (j + k) r s'.
Proof.
  intros Hsrc Hpos; destruct r as [t|]; simpl.
  - intros (H1 & H2 & H3 & idx & s2 & H4 & (H5 & H6 & H7) & H8).
    split; [assumption|]; split; [assumption|]; split; [assumption|].
    exists idx, s2; unfold stepped; intuition (try congruence; try lia).
  - intros (H5 & H6 & H7); unfold stepped; intuition (try congruence; try lia).
Qed.

Lemma const_scanned_weaken P sl sc s0 j k r s' :
  j <= k -> const_scanned P sl sc s0 k r s' -> const_scanned P sl sc s0 j r s'.
Proof.
  intros Hjk; destruct r as [t|]; simpl.
  - intros (H1 & H2 & H3 & idx & s2 & H4 & (H5 & H6 & H7) & H8).
    split; [assumption|]; split; [assumption|]; split; [assumption|].
    exists idx, s2; unfold stepped; intuition (try congruence; try lia).
  - intros (H5 & H6 & H7); unfold stepped; intuition (try congruence; try lia).
Qed.

Lemma const_scanned_from P sl sc s0 s1 j k r s' :
  stepped P s0 j s1 ->
  const_scanned P sl sc s1 k r s' -> const_scanned P sl sc s0 j r s'.
Proof.
  intros (_ & Hsrc & Hpos) H.
  apply (const_scanned_weaken P sl sc s0 j (j + k)); [lia|].
  apply (const_scanned_shift P sl sc s0 s1); assumption.
Qed.

Lemma firstn_add_skipn {A} (a b : nat) (l : list A) :
  firstn (a + b) l = firstn a l ++ firstn b (skipn a l).
Proof.
  revert l; induction a as [|a IH]; intros [|x l]; simpl;
    rewrite ?firstn_nil; try reflexivity.
  rewrite IH; reflexivity.
Qed.

Lemma between_trans (s0 s1 s2 : Lexer) :
  src s1 = src s0 -> pos s0 <= pos s1 -> pos s1 <= pos s2 ->
  between s0 s2 = between s0 s1 ++ between s1 s2.
Proof.
  unfold between; intros -> H1 H2.
  replace (pos s2 - pos s0) with ((pos s1 - pos s0) + (pos s2 - pos s1)) by lia.
  rewrite firstn_add_skipn, skipn_skipn.
  replace (pos s1 - pos s0 + pos s0) with (pos s1) by lia; reflexivity.
Qed.

Lemma wp_str_last_snoc E (d : str) (c : ascii) Q s :
  Q c s -> wp E (str_last (d ++ [c])) Q s.
Proof.
  intros HQ; destruct d as [|x d]; simpl; [exact HQ|].
  unfold wp, ret; rewrite last_last; exact HQ.
Qed.

Lemma wp_int_base base v Q s :
  (forall n, Q n s) -> wp True (int_base base v) Q s.
Proof.
  intros HQ; unfold int_base; destruct v; [exact I|].
  destruct (int_digits base (a :: v) 0); [apply HQ | exact I].
Qed.

(** One round of an escape's digit loop consumes at most the character it
    appends to the lexeme. *)
Lemma escape_digit_spec E P p digits val s :
  adv_closed P -> P s ->
  wp E (escape_digit p (digits, val))
    (fun r s' => stepped P s 0 s' /\ snd r = val ++ between s s') s.
Proof.
  intros HP Hs; unfold escape_digit.
  apply wp_bind, wp_char_is.
  destruct (opt_test p (nth_error (src s) (pos s))) eqn:Hc.
  - unfold append_advance; wp_run; [|no_char].
    apply wp_str_last_snoc, wp_ret; split; [lex_solve|].
    cbn [snd].
    rewrite (between_advanced s s), between_refl by (assumption || lia || reflexivity).
    reflexivity.
  - wp_run; split; [lex_solve|].
    cbn [snd]; rewrite between_refl, app_nil_r; reflexivity.
Qed.

Lemma twice_escape_digit_spec E P p digits val s :
  adv_closed P -> P s ->
  wp E (twice (escape_digit p) (digits, val))
    (fun r s' => stepped P s 0 s' /\ snd r = val ++ between s s') s.
Proof.
  intros HP Hs; unfold twice.
  apply wp_bind.
  eapply wp_mono; [apply escape_digit_spec; eassumption|].
  cbv beta; intros [d1 v1] s1 (H1 & H2).
  eapply wp_mono; [apply escape_digit_spec; [eassumption | lex_solve]|].
  cbv beta; intros [d2 v2] s2 (H3 & H4).
  split; [lex_solve|].
  cbn [snd] in *; subst v2 v1.
  open_stepped.
  rewrite (between_trans s s1 s2) by (assumption || lia).
  rewrite app_assoc; reflexivity.
Qed.

Ltac use_strict :=
  repeat match goal with
         | H : ?A -> _, H' : ?A |- _ => specialize (H H')
         | H : _ = true -> _ |- _ => specialize (H eq_refl)
         end.

Ltac wp_call_step :=
  lazymatch goal with
  | |- wp _ (take_run _ _) _ _ =>
      eapply wp_mono;
      [ eapply take_run_spec; [eassumption | solve [lex_solve]]
      | cbv beta; intros ? ? (? & ? & ? & ?) ]
  | |- wp _ (skip_run _) _ _ =>
      eapply wp_mono;
      [ eapply skip_run_spec; [eassumption | solve [lex_solve]]
      | cbv beta; intros ? ? (? & ?) ]
  | |- wp _ (append_advance _) _ _ => unfold append_advance
  | |- wp _ (twice (escape_digit _) _) _ _ =>
      eapply wp_mono;
      [ eapply twice_escape_digit_spec; [eassumption | solve [lex_solve]]
      | cbv beta; intros [? ?] ? (? & ?) ]
  | |- wp _ (str_last (_ ++ [_])) _ _ => apply wp_str_last_snoc
  | |- wp _ (int_base _ _) _ _ => apply wp_int_base; intros ?
  | |- wp _ (const_token (if ?b then _ else _) _ _ _) _ _ => destruct b
  | |- wp _ (const_token _ _ _ _) _ _ =>
      apply wp_const_token; [simpl; tauto | intros ? ? ? ? ?]
  | |- _ => wp_step
  end.

Ltac wp_go := repeat wp_call_step.

(** The same, stopping in front of a block that branches and then falls
    through to the rest of the method. *)
Ltac wp_at_block :=
  lazymatch goal with
  | |- wp _ (bind (if _ then _ else _) _) _ _ => idtac
  | |- wp _ (bind (match _ with Some _ => _ | None => _ end) _) _ _ => idtac
  | |- wp _ (bind (match _ with (_, _) => _ end) _) _ _ => idtac
  | |- wp _ (bind (while_ _ _ _) _) _ _ => idtac
  end.

Ltac wp_lin := repeat (tryif wp_at_block then fail else wp_call_step).

(** Sequencing through an intermediate assertion. *)
Ltac wp_seq mid :=
  apply wp_bind; apply wp_mono with (Q := mid); [| cbv beta].

(** Closing a branch: the result is [None], or a token whose table entry is
    the one just made. *)
Ltac leaf :=
  try exact I; try no_char;
  use_strict; unfold const_scanned; cbn [code value attr tline tcol];
  first
    [ solve [lex_solve]
    | solve [split; [reflexivity|]; split; [reflexivity|]; split; [lia|];
             eexists _, _; split; [reflexivity|];
             split; [| split; [| reflexivity]];
             [lex_solve | eassumption]] ].

Lemma string_scanned_const P sl sc s0 r s' :
  string_scanned P sl sc s0 r s' -> const_scanned P sl sc s0 1 r s'.
Proof.
  destruct r as [t|]; simpl; [|tauto].
  intros (H1 & H2 & H3 & idx & s1 & H4 & H5 & H6 & _ & H7 & H8).
  split; [assumption|]; split; [assumption|]; split; [lia|].
  exists idx, s1; tauto.
Qed.

(** Rewriting the text consumed so far after some more steps. *)
Ltac subst_str :=
  repeat match goal with
         | H : ?v = _ |- _ =>
             is_var v;
             lazymatch type of v with
             | str => subst v
             | list ascii => subst v
             end
         end.

Ltac btw :=
  cbn [snd] in *; subst_str;
  repeat match goal with
         | |- context [between ?s0 (push_error ?e ?x)] =>
             change (between s0 (push_error e x)) with (between s0 x)
         end;
  repeat match goal with
         | |- context [between ?s0 (advanced ?ch ?s)] =>
             rewrite (between_advanced s0 s ch)
               by (first [assumption | solve [lex_solve]])
         end;
  try match goal with
      | H : stepped _ ?x 0 ?s' |- _ = between ?s0 ?s' =>
          rewrite (between_trans s0 x s') by (solve [lex_solve]);
          repeat match goal with
                 | |- context [between ?s0 (advanced ?ch ?s)] =>
                     rewrite (between_advanced s0 s ch)
                       by (first [assumption | solve [lex_solve]])
                 end
      end;
  rewrite ?between_refl, ?app_nil_r, ?app_assoc; try reflexivity.

Section SubScanners.

Variable P : Lexer -> Prop.
Variables sl sc : nat.
Hypothesis HP : adv_closed P.
Hypothesis HE : err_closed sl sc P.

Lemma _scan_hex_spec s :
  P s -> wp True (_scan_hex sl sc) (const_scanned P sl sc s 1) s.
Proof.
  intros Hs; unfold _scan_hex; wp_go; leaf.
Qed.

(** [_scan_decimal_part] consumes nothing when there is neither a
    fraction, an exponent nor a letter; it consumes the point at least when
    one follows that is not the first of two. *)
Lemma _scan_decimal_part_spec int_part s :
  P s ->
  wp True (_scan_decimal_part int_part sl sc)
    (const_scanned P sl sc s
       (if opt_is (nth_error (src s) (pos s)) "."
           && negb (opt_is (nth_error (src s) (pos s + 1)) ".")
        then 1 else 0)) s.
Proof.
  intros Hs; unfold _scan_decimal_part; wp_go;
    repeat match goal with
           | H : ?b = true |- context [?b] => rewrite H
           | H : ?b = false |- context [?b] => rewrite H
           end; cbn [andb negb]; leaf.
Qed.

Lemma _scan_octal_spec s :
  P s -> wp True (_scan_octal sl sc) (const_scanned P sl sc s 1) s.
Proof.
  intros Hs; unfold _scan_octal; wp_go; try leaf.
  apply wp_while with (I := fun (_ : str) s1 => stepped P s 1 s1).
  { leaf. }
  intros val s1 H1.
  apply wp_char_is; split; [lia|].
  destruct (opt_test isdigit (nth_error (src s1) (pos s1))) eqn:Hd.
  - wp_go; leaf.
  - wp_go; try leaf.
    eapply wp_mono; [apply _scan_decimal_part_spec; lex_solve|].
    cbv beta; intros r s2 Hr.
    eapply const_scanned_from; eassumption.
Qed.

Lemma _scan_decimal_spec s :
  P s -> opt_test isdigit (nth_error (src s) (pos s)) = true ->
  wp True (_scan_decimal sl sc) (const_scanned P sl sc s 1) s.
Proof.
  intros Hs Hd; unfold _scan_decimal; wp_go.
  eapply wp_mono; [apply _scan_decimal_part_spec; lex_solve|].
  cbv beta; intros r s2 Hr.
  eapply const_scanned_from; [|eassumption]; leaf.
Qed.

Lemma _scan_num_spec s :
  P s -> line s = sl -> col s = sc ->
  opt_test isdigit (nth_error (src s) (pos s)) = true ->
  wp True _scan_num (const_scanned P sl sc s 1) s.
Proof.
  intros Hs Hl Hc Hd; unfold _scan_num; wp_go; rewrite Hl, Hc.
  - apply _scan_hex_spec; assumption.
  - apply _scan_octal_spec; assumption.
  - apply _scan_decimal_spec; assumption.
Qed.

Lemma isdigit_not_point p :
  opt_test isdigit p = true -> opt_is p "." = false.
Proof.
  destruct p as [c|]; simpl; [|reflexivity].
  destruct (Ascii.eqb_spec c "."); [subst; discriminate | reflexivity].
Qed.

Lemma _scan_leading_dot_number_spec s :
  P s -> line s = sl -> col s = sc ->
  opt_is (nth_error (src s) (pos s)) "."
  && opt_test isdigit (nth_error (src s) (pos s + 1)) = true ->
  wp True _scan_leading_dot_number (const_scanned P sl sc s 1) s.
Proof.
  intros Hs Hl Hc Hd; unfold _scan_leading_dot_number; wp_go;
    [|congruence].
  rewrite Hl, Hc.
  eapply wp_mono; [apply _scan_decimal_part_spec; assumption|].
  cbv beta; intros r s2.
  match goal with
  | H : _ && _ = true |- _ =>
      apply andb_true_iff in H; destruct H as [-> H];
      rewrite (isdigit_not_point _ H)
  end.
  exact (fun H => H).
Qed.

Lemma _scan_char_spec s :
  P s -> line s = sl -> col s = sc ->
  nth_error (src s) (pos s) <> None ->
  wp True _scan_char (const_scanned P sl sc s 1) s.
Proof.
  intros Hs Hl Hc Hch; unfold _scan_char; wp_lin; rewrite ?Hl, ?Hc in *;
    try contradiction; try leaf.
  wp_seq (fun (r : N * str + option Token) s1 =>
            match r with
            | inl _ => stepped P s 1 s1
            | inr t => const_scanned P sl sc s 1 t s1
            end).
  { wp_go; leaf. }
  intros [[char_val display_val]|t] s1 Hr; [|apply wp_ret; exact Hr].
  wp_seq (fun (_ : str * str + unit) s2 => stepped P s 1 s2).
  { apply wp_while with (I := fun (_ : str * str) s2 => stepped P s 1 s2);
      [assumption|].
    intros [extra dv] s2 H2.
    apply wp_char_is; split; [lia|].
    destruct (opt_test not_quote_nl (nth_error (src s2) (pos s2))) eqn:Hq;
      wp_go; leaf. }
  intros r s2 H2.
  destruct (match r with inl st => st | inr _ => ([], display_val) end)
    as [extra dv].
  wp_go; leaf.
Qed.

Lemma string_body_spec s s1 val content :
  stepped P s 1 s1 -> val = between s s1 ->
  opt_test not_dquote_nl (nth_error (src s1) (pos s1)) = true ->
  wp True (string_body sl sc (val, content))
    (fun c s2 =>
       match c with
       | Continue (val', _) =>
           (stepped P s 1 s2 /\ val' = between s s2) /\
           remaining s2 < remaining s1
       | Break (val', _) => stepped P s 1 s2 /\ val' = between s s2
       | Return _ => False
       end) s1.
Proof.
  intros H1 Hval Hc; unfold string_body; wp_go; try no_char.
  all: repeat split; try solve [leaf].
  all: solve [btw].
Qed.

Lemma _scan_string_spec s :
  P s -> line s = sl -> col s = sc ->
  nth_error (src s) (pos s) = Some DQUOTE ->
  wp True _scan_string (string_scanned P sl sc s) s.
Proof.
  intros Hs Hl Hc Hch; unfold _scan_string; wp_lin; rewrite ?Hl, ?Hc in *;
    try no_char.
  wp_seq (fun (r : str * list N + unit) s2 =>
            match r with
            | inl (val, _) => stepped P s 1 s2 /\ val = between s s2
            | inr _ => False
            end).
  { apply wp_while with
      (I := fun (st : str * list N) s2 =>
              stepped P s 1 s2 /\ fst st = between s s2).
    { split; [leaf|]. cbn [fst]. btw. simpl; congruence. }
    intros [val content] s2 [H2 Hval]; cbn [fst] in Hval.
    apply wp_char_is; split; [lia|].
    destruct (opt_test not_dquote_nl (nth_error (src s2) (pos s2))) eqn:Hq.
    - eapply wp_mono; [apply string_body_spec; eassumption|].
      cbv beta; intros [[v c]|[v c]|u] s3; cbn [fst]; tauto.
    - split; assumption. }
  intros [[val content]|u] s2; [|tauto].
  intros [H2 Hval].
  wp_lin; unfold string_scanned; cbn [code value attr tline tcol];
    try leaf.
  match goal with
  | H : assoc _ _ CODE = Some _ |- _ =>
      vm_compute in H; injection H as <-
  end.
  split; [reflexivity|]; split; [reflexivity|]; split; [reflexivity|].
  eexists _, _; split; [reflexivity|].
  split; [| split; [| split; [| split; [| reflexivity]]]];
    [leaf | btw | | eassumption].
  destruct (between_cons s s2 DQUOTE) as [body Hbody];
    [assumption | destruct H2 as (_ & _ & H2); lia |].
  exists body; rewrite Hval, Hbody; cbn [app]; do 3 f_equal.
  match goal with
  | H : nth_error ?l ?n = Some _,
    H' : negb (opt_is (nth_error ?l ?n) DQUOTE) = false |- _ =>
      rewrite H in H'; cbn [opt_is] in H';
      apply negb_false_iff, Ascii.eqb_eq in H'; exact H'
  end.
Qed.

Lemma opt_is_Some x c : opt_is x c = true -> x = Some c.
Proof.
  destruct x as [y|]; simpl; [|discriminate].
  intros H; apply Ascii.eqb_eq in H; congruence.
Qed.

Lemma _skip_comment_spec E s :
  P s -> line s = sl -> col s = sc ->
  wp E _skip_comment
    (fun r s' =>
       if r then stepped P s 1 s'
       else s' = s /\ comment_start s = false) s.
Proof.
  intros Hs Hl Hc; unfold _skip_comment, comment_start; wp_lin;
    rewrite ?Hl, ?Hc in *; try no_char;
    repeat match goal with
           | H : negb _ = true |- _ => apply (proj1 (negb_true_iff _)) in H
           | H : negb _ = false |- _ => apply (proj1 (negb_false_iff _)) in H
           end;
    repeat match goal with
           | H : ?b = true |- context [?b] => progress (rewrite H)
           | H : ?b = false |- context [?b] => progress (rewrite H)
           end; cbn [andb orb]; try (split; reflexivity).
  - (* a line comment *)
    match goal with
    | H : opt_is _ "/" = true |- _ => apply opt_is_Some in H; rewrite H in *
    end.
    leaf.
  - (* a block comment *)
    wp_seq (fun (r : unit + bool) s2 =>
              match r with
              | inl _ => stepped P s 1 s2
              | inr b => b = true /\ stepped P s 1 s2
              end).
    + apply wp_while with (I := fun (_ : unit) s2 => stepped P s 1 s2);
        [leaf|].
      intros [] s2 H2.
      apply wp_char_is; split; [lia|].
      destruct (opt_test (fun _ => true) (nth_error (src s2) (pos s2)))
        eqn:Hq; wp_go; try no_char; try leaf.
      all: split; [reflexivity | leaf].
    + intros [[]|b] s2 H2; wp_go; [leaf|].
      destruct H2 as [-> H2]; assumption.
  - exfalso; lex_simpl; rewrite Nat.add_1_r in *; no_char.
Qed.

End SubScanners.


(** ** Identifiers, operators, delimiters and the dispatch *)

Lemma const_scanned_scanned P sl sc s0 r s' :
  const_scanned P sl sc s0 1 r s' -> scanned P sl sc s0 r s'.
Proof.
  destruct r as [t|]; simpl; [|tauto].
  intros (H1 & H2 & H3 & idx & s1 & H4 & H5 & H6 & H7).
  split; [assumption|]; split; [assumption|].
  exists s1; split; [assumption|].
  right; right; split; [assumption|]; exists idx; tauto.
Qed.

Lemma single_not_double (c : ascii) : str_in [c] DOUBLE_OPS = false.
Proof.
  unfold str_in, DOUBLE_OPS; cbn; rewrite !andb_false_r; reflexivity.
Qed.

(** The code of an operator or delimiter that was found in its set. *)
Ltac clash := exfalso; lex_simpl; congruence.

Ltac wp_code :=
  lazymatch goal with
  | |- wp _ (CODE_get ?k) _ _ =>
      let c := fresh "c" in
      let Hcode := fresh "Hcode" in
      let Hlt := fresh "Hlt" in
      destruct (operator_code k) as (c & Hcode & Hlt);
      [ repeat match goal with
               | H : str_in _ _ = true |- _ => apply str_in_In in H
               end;
        rewrite !in_app_iff; tauto
      | apply (wp_CODE_get _ _ c); [assumption|] ]
  end.

Ltac op_leaf :=
  unfold scanned; cbn [code value attr tline tcol];
  split; [reflexivity|]; split; [reflexivity|];
  eexists; split;
  [| left; cbn [code value attr tline tcol];
     split; [reflexivity | split; [lia | reflexivity]]];
  leaf.

Section Dispatch.

Variable P : Lexer -> Prop.
Variables sl sc : nat.
Hypothesis HP : adv_closed P.
Hypothesis HE : err_closed sl sc P.

Lemma _scan_id_spec E s :
  P s -> line s = sl -> col s = sc ->
  opt_test is_ident_char (nth_error (src s) (pos s)) = true ->
  wp E _scan_id (fun t s' => scanned P sl sc s (Some t) s') s.
Proof.
  intros Hs Hl Hc Hch; unfold _scan_id; wp_go; rewrite ?Hl, ?Hc in *.
  - match goal with
    | H : str_in _ KEYWORDS = true |- _ =>
        destruct (keyword_code _ H) as (c & Hcode & Hlt)
    end.
    apply (wp_CODE_get E _ c); [assumption|].
    apply wp_ret; simpl.
    split; [reflexivity|]; split; [reflexivity|].
    eexists; split; [leaf|].
    left; simpl; repeat split; lia.
  - apply wp_add_sym; intros idx Hidx.
    apply wp_bind, (wp_CODE_get E _ 50); [reflexivity|].
    apply wp_ret; simpl.
    split; [reflexivity|]; split; [reflexivity|].
    eexists; split; [leaf|].
    right; left; simpl; split; [reflexivity|].
    exists idx; repeat split; assumption.
Qed.

Lemma _scan_op_spec s :
  P s -> line s = sl -> col s = sc ->
  (exists ch,
     nth_error (src s) (pos s) = Some ch /\
     str_in [ch] SINGLE_OPS
     || str_in (ch :: match nth_error (src s) (pos s + 1) with
                      | Some c => [c]
                      | None => []
                      end) DOUBLE_OPS = true) ->
  wp True _scan_op (scanned P sl sc s) s.
Proof.
  intros Hs Hl Hc (ch & Hch & Hop); unfold _scan_op.
  do 10 wp_call_step; rewrite ?Hl, ?Hc, Hch.
  destruct (nth_error (src s) (pos s + 1)) as [c1|] eqn:H1;
    [destruct (nth_error (src s) (pos s + 2)) as [c2|] eqn:H2|];
    repeat first [wp_call_step | wp_code]; try no_char; try solve [op_leaf].
  all: exfalso; rewrite ?single_not_double in Hop;
    repeat match goal with
           | H : ?b = false |- _ => rewrite H in Hop
           end; discriminate.
Qed.

Lemma _scan_delim_spec s :
  P s -> line s = sl -> col s = sc ->
  (exists ch,
     nth_error (src s) (pos s) = Some ch /\ str_in [ch] DELIMITERS = true) ->
  wp True _scan_delim (scanned P sl sc s) s.
Proof.
  intros Hs Hl Hc (ch & Hch & Hop); unfold _scan_delim.
  do 6 wp_call_step; rewrite ?Hl, ?Hc, Hch.
  repeat first [wp_call_step | wp_code]; try no_char; try solve [op_leaf].
  congruence.
Qed.

End Dispatch.

Lemma scanned_dispatched E P s r s1 :
  scanned P (line s) (col s) s r s1 ->
  wp E (append_if_token r) (fun _ s' => dispatched P s s') s1.
Proof.
  destruct r as [t|]; simpl.
  - intros (H1 & H2 & s2 & H3 & H4).
    apply wp_tokens_append; exists s2; split; [assumption|].
    right; exists t, s1; tauto.
  - intros H; apply wp_ret; exists s1; tauto.
Qed.

(** After a sub-scanner returned: append its token, if any. *)
Ltac after_scan P s conv :=
  let r := fresh "r" in
  let s1 := fresh "s" in
  let Hr := fresh "Hr" in
  cbv beta; intros r s1 Hr;
  apply wp_bind;
  eapply wp_mono;
  [ apply (scanned_dispatched True P s r); conv; exact Hr
  | cbv beta; intros; wp_go; assumption ].

Ltac known_char :=
  repeat match goal with
         | H : nth_error ?l ?n = Some _ |- context [nth_error ?l ?n] =>
             rewrite H
         end;
  cbn [opt_test opt_is].

Lemma dispatch_spec P s :
  adv_closed P -> err_closed (line s) (col s) P -> P s ->
  comment_start s = false ->
  wp True dispatch (fun _ s' => dispatched P s s') s.
Proof.
  intros HP HE Hs Hcs; unfold dispatch; wp_go; try exact I; try no_char.
  - (* identifier or keyword *)
    eapply wp_mono;
      [ eapply _scan_id_spec; try eassumption; try reflexivity |].
    + match goal with H : nth_error _ _ = Some _ |- _ => rewrite H end.
      cbn [opt_test]; unfold is_ident_char, isalnum.
      match goal with
      | H : isalpha ?a || _ = true |- _ =>
          destruct (isalpha a); [reflexivity | cbn [orb] in H |- *]
      end.
      rewrite orb_true_iff; right; assumption.
    + cbv beta; intros t s1 Hr.
      apply wp_bind.
      eapply wp_mono; [apply (scanned_dispatched True P s (Some t)), Hr|].
      cbv beta; intros; wp_go; assumption.
  - (* a number, after the look-ahead said yes *)
    eapply wp_mono;
      [ eapply _scan_num_spec; try eassumption; try reflexivity;
        known_char; assumption
      | after_scan P s ltac:(apply const_scanned_scanned) ].
  - (* a number, after the look-ahead said no *)
    eapply wp_mono;
      [ eapply _scan_num_spec; try eassumption; try reflexivity;
        known_char; assumption
      | after_scan P s ltac:(apply const_scanned_scanned) ].
  - (* a number that starts with its point *)
    eapply wp_mono;
      [ eapply _scan_leading_dot_number_spec; try eassumption;
        try reflexivity; known_char; assumption
      | after_scan P s ltac:(apply const_scanned_scanned) ].
  - (* a character literal *)
    eapply wp_mono;
      [ eapply _scan_char_spec; try eassumption; try reflexivity; congruence
      | after_scan P s ltac:(apply const_scanned_scanned) ].
  - (* a string literal *)
    eapply wp_mono;
      [ eapply _scan_string_spec; try eassumption; try reflexivity;
        match goal with
        | H : (_ =? DQUOTE)%char = true |- _ =>
            apply Ascii.eqb_eq in H; congruence
        end
      | after_scan P s
          ltac:(apply const_scanned_scanned, string_scanned_const) ].
  - (* the [continue] of the operator branch: a comment cannot start here *)
    exfalso; unfold comment_start in Hcs; revert Hcs; known_char.
    congruence.
  - (* an operator *)
    eapply wp_mono;
      [ eapply _scan_op_spec; try eassumption; try reflexivity;
        eexists; split; [eassumption | assumption]
      | after_scan P s ltac:(idtac) ].
  - (* a delimiter *)
    eapply wp_mono;
      [ eapply _scan_delim_spec; try eassumption; try reflexivity;
        eexists; split; [eassumption | assumption] |].
    cbv beta; intros r s1 Hr.
    apply wp_bind.
    eapply wp_mono; [apply (scanned_dispatched True P s r), Hr|].
    cbv beta; intros; wp_go; assumption.
  - (* an illegal character *)
    eexists; split; [|left; reflexivity]; leaf.
  - exfalso; lex_simpl; congruence.
Qed.

(** ** One iteration of the driver loop and the whole loop *)

Lemma scan_lexeme_spec P s0 :
  adv_closed P -> err_closed (line s0) (col s0) P -> P s0 ->
  wp True scan_lexeme (lexeme_scanned P s0) s0.
Proof.
  intros HP HE Hs; unfold scan_lexeme, lexeme_scanned; wp_lin.
  - eapply wp_mono;
      [ apply (_skip_comment_spec P (line s0) (col s0)); auto |].
    cbv beta; intros [|] s1 Hc.
    + apply wp_ret; split; [leaf|].
      exists s1; split; [leaf | left; reflexivity].
    + destruct Hc as [-> Hc].
      eapply wp_mono; [apply (dispatch_spec P); auto|].
      cbv beta; intros c s' (s1 & H1 & H2).
      split.
      * destruct c; [|exact I|exact I].
        destruct H2 as [->|(t & s2 & _ & _ & Ht & ->)]; [leaf|].
        destruct Ht as [(_ & _ & ->)|[(_ & idx & _ & _ & ->)
                                     |(_ & idx & _ & _ & ->)]]; leaf.
      * exists s1; split; [leaf | assumption].
  - split; [exact I|].
    exists s0; split; [|left; reflexivity].
    split; [assumption | split; [reflexivity | lia]].
Qed.

(** [P0] is preserved while whitespace is skipped; [P s0] is the property
    followed from the state [s0] in which the lexeme or comment starts, the
    line and column of which the errors of the iteration carry. *)
Lemma tokenize_body_spec (P0 : Lexer -> Prop) (P : Lexer -> Lexer -> Prop) s :
  adv_closed P0 ->
  (forall s0, adv_closed (P s0)) ->
  (forall s0, err_closed (line s0) (col s0) (P s0)) ->
  (forall s0, P0 s0 -> P s0 s0) ->
  P0 s ->
  wp True tokenize_body
    (fun c s' =>
       match c with
       | Continue _ => src s' = src s /\ pos s < pos s'
       | _ => True
       end /\
       exists s0 s1,
         stepped P0 s 0 s0 /\ stepped (P s0) s0 0 s1 /\
         (s' = s1 \/
          exists t s2,
            tline t = line s0 /\ tcol t = col s0 /\
            token_added t s1 s2 /\ s' = push_token t s2)) s.
Proof.
  intros HP0 HP HE H0 Hs; unfold tokenize_body.
  apply wp_bind.
  eapply wp_mono; [apply (_skip_ws_spec P0); assumption|].
  cbv beta; intros [] s0 Hws.
  eapply wp_mono;
    [ apply (scan_lexeme_spec (P s0)); auto; apply H0, Hws |].
  cbv beta; intros c s' (Hc & s1 & H1 & H2).
  split.
  - destruct c; [|exact I|exact I]; leaf.
  - exists s0, s1; tauto.
Qed.

Lemma token_added_cursor t s1 s2 :
  token_added t s1 s2 ->
  src s2 = src s1 /\ pos s2 = pos s1 /\ line s2 = line s1 /\ col s2 = col s1 /\
  errors s2 = errors s1 /\ tokens s2 = tokens s1.
Proof.
  intros [(_ & _ & ->)|[(_ & idx & _ & _ & ->)|(_ & idx & _ & _ & ->)]];
    repeat split; reflexivity.
Qed.

(** An invariant of the iterations is an invariant of the loop; the loop
    never runs out of fuel. *)
Lemma tokenize_loop_spec (Inv : Lexer -> Prop) s :
  Inv s ->
  (forall s1, Inv s1 -> wp True tokenize_body (fun _ s' => Inv s') s1) ->
  wp True tokenize_loop (fun _ s' => Inv s') s.
Proof.
  intros Hs Hbody; unfold tokenize_loop.
  apply wp_bind.
  apply wp_while with (I := fun (_ : unit) s1 => Inv s1); [assumption|].
  intros [] s1 H1; wp_go; (split; [lia|]).
  destruct (pos s1 <? List.length (src s1)) eqn:Hlt; [|apply wp_ret, H1].
  apply Nat.ltb_lt in Hlt.
  pose proof (tokenize_body_spec (fun _ => True) (fun _ _ => True) s1) as Hprog.
  pose proof (Hbody s1 H1) as Hinv.
  unfold wp in *.
  destruct (tokenize_body s1) as [c s2| |];
    [| exact I | apply Hprog; unfold adv_closed, err_closed; tauto].
  destruct Hprog as [Hc _]; try (unfold adv_closed, err_closed; tauto).
  destruct c as [[]|[]|[]]; [|apply wp_ret, Hinv|apply wp_ret, Hinv].
  split; [assumption|].
  apply remaining_lt; tauto.
Qed.


(** ** The identifier table and the constant table *)

Lemma attr_ok_add_sym syms consts v t :
  attr_ok syms consts t -> attr_ok (add_to v syms) consts t.
Proof.
  intros [H1 H2]; split; [|assumption].
  intros Hid; destruct (H1 Hid) as (idx & Ha & Hi).
  exists idx; split; [assumption | apply add_to_index, Hi].
Qed.

Lemma attr_ok_add_const syms consts v t :
  attr_ok syms consts t -> attr_ok syms (add_to v consts) t.
Proof.
  intros [H1 H2]; split; [assumption|].
  intros Hc; destruct (H2 Hc) as (idx & Ha & Hi).
  exists idx; split; [assumption | apply add_to_index, Hi].
Qed.

Lemma spellings_snoc (f : Token -> bool) (ts : list Token) (t : Token) :
  map value (filter f (ts ++ [t]))
  = map value (filter f ts) ++ (if f t then [value t] else []).
Proof.
  rewrite filter_app, map_app; simpl; destruct (f t); reflexivity.
Qed.

Lemma tables_ok_token (t : Token) (s1 s2 : Lexer) :
  tables_ok s1 -> token_added t s1 s2 -> tables_ok (push_token t s2).
Proof.
  unfold tables_ok, id_spellings, const_spellings.
  intros (Hsym & Hconst & Hattr) Hadd;
    cbn [tokens sym_table const_table push_token].
  rewrite !spellings_snoc, Forall_app.
  destruct Hadd as [(Ha & Hcode & ->)
                   |[(Hcode & idx & Ha & Hidx & ->)
                    |(Hcode & idx & Ha & Hidx & ->)]];
    cbn [tokens sym_table const_table with_sym_table with_const_table].
  - (* a keyword, an operator or a delimiter *)
    assert (is_id t = false) as ->
      by (unfold is_id; apply Nat.eqb_neq; lia).
    assert (is_const t = false) as ->
      by (unfold is_const; apply andb_false_iff;
          rewrite !Nat.leb_gt; lia).
    rewrite !app_nil_r; repeat split; try assumption.
    constructor; [|constructor].
    split; intros Hc; exfalso; revert Hc; unfold is_id, is_const;
      [rewrite Nat.eqb_eq | rewrite andb_true_iff, !Nat.leb_le]; lia.
  - (* an identifier *)
    assert (is_id t = true) as -> by (unfold is_id; apply Nat.eqb_eq, Hcode).
    assert (is_const t = false) as Hnc
      by (unfold is_const; apply andb_false_iff; rewrite !Nat.leb_gt; lia).
    rewrite Hnc, app_nil_r, distinct_snoc, <- Hsym.
    repeat split; try assumption.
    + eapply Forall_impl; [|exact Hattr].
      intros t'; apply attr_ok_add_sym.
    + constructor; [|constructor].
      split; [intros _; exists idx; tauto | rewrite Hnc; discriminate].
  - (* a constant *)
    assert (is_const t = true) as ->
      by (unfold is_const; apply andb_true_iff; rewrite !Nat.leb_le; lia).
    assert (is_id t = false) as Hni
      by (unfold is_id; apply Nat.eqb_neq; lia).
    rewrite Hni, app_nil_r, distinct_snoc, <- Hconst.
    repeat split; try assumption.
    + eapply Forall_impl; [|exact Hattr].
      intros t'; apply attr_ok_add_const.
    + constructor; [|constructor].
      split; [rewrite Hni; discriminate | intros _; exists idx; tauto].
Qed.

Lemma tables_ok_same (s x : Lexer) :
  same_output s x -> tables_ok s -> tables_ok x.
Proof.
  intros (H1 & H2 & H3); unfold tables_ok; rewrite H1, H2, H3; tauto.
Qed.

Lemma tables_ok_body (s : Lexer) :
  tables_ok s -> wp True tokenize_body (fun _ s' => tables_ok s') s.
Proof.
  intros Hs.
  eapply wp_mono;
    [ apply (tokenize_body_spec (same_output s) (fun _ => same_output s)) |].
  - intros x ch H _; exact H.
  - intros _ x ch H _; exact H.
  - intros _ x e H _ _; exact H.
  - tauto.
  - repeat split.
  - cbv beta; intros c s' (_ & s0 & s1 & _ & (H1 & _) & H2).
    pose proof (tables_ok_same s s1 H1 Hs) as Hs1.
    destruct H2 as [->|(t & s2 & _ & _ & Hadd & ->)]; [assumption|].
    apply (tables_ok_token t s1 s2); assumption.
Qed.

Lemma tables_ok_loop (s : Lexer) :
  tables_ok s -> wp True tokenize_loop (fun _ s' => tables_ok s') s.
Proof.
  intros Hs; apply (tokenize_loop_spec tables_ok); [assumption|].
  apply tables_ok_body.
Qed.

Lemma tokenize_Ok (s : Lexer) toks errs s' :
  tokenize s = Ok (toks, errs) s' ->
  tokenize_loop s = Ok tt s' /\ toks = tokens s' /\ errs = errors s'.
Proof.
  unfold tokenize, bind, get, ret.
  destruct (tokenize_loop s) as [[] s1| |]; try discriminate.
  intros H; inversion H; subst; repeat split.
Qed.

(** [distinct] lists each value once, so its length is the number of distinct
    values. *)
Lemma distinct_length (l : list str) :
  List.length (distinct l) = List.length (nodup str_eq_dec l).
Proof.
  apply Nat.le_antisymm; apply NoDup_incl_length.
  - apply distinct_NoDup.
  - intros x Hx; apply nodup_In, distinct_elem, Hx.
  - apply NoDup_nodup.
  - intros x Hx; apply distinct_elem; apply nodup_In in Hx; exact Hx.
Qed.


(** C4.  Identifier-table and constant-table determinism.  Whenever
    [tokenize] returns, each table is the list of the distinct spellings of
    the tokens of its kind in the order of their first occurrence, that is,
    what lookup-or-insert alone makes of them; it has no duplicates, as many
    entries as there are distinct spellings, the attribute of every ID or
    constant token is the position of the first (and only) occurrence of its
    spelling in the table, and two tokens with the same spelling have the same
    attribute. *)
Theorem table_determinism (source : str) (toks : list Token)
    (errs : list LexError) (s' : Lexer) :
  tokenize (Lexer_init source) = Ok (toks, errs) s' ->
  sym_table s' = distinct (id_spellings toks) /\
  const_table s' = distinct (const_spellings toks) /\
  NoDup (sym_table s') /\ NoDup (const_table s') /\
  List.length (sym_table s')
  = List.length (nodup str_eq_dec (id_spellings toks)) /\
  List.length (const_table s')
  = List.length (nodup str_eq_dec (const_spellings toks)) /\
  (forall t, In t toks -> code t = 50 ->
     exists idx,
       attr t = SYM idx /\ nth_error (sym_table s') idx = Some (value t) /\
       forall j, j < idx -> nth_error (sym_table s') j <> Some (value t)) /\
  (forall t, In t toks -> 51 <= code t <= 56 ->
     exists idx,
       attr t = CONST idx /\ nth_error (const_table s') idx = Some (value t) /\
       forall j, j < idx -> nth_error (const_table s') j <> Some (value t)) /\
  (forall t1 t2, In t1 toks -> In t2 toks ->
     is_id t1 = true -> is_id t2 = true ->
     value t1 = value t2 -> attr t1 = attr t2) /\
  (forall t1 t2, In t1 toks -> In t2 toks ->
     is_const t1 = true -> is_const t2 = true ->
     value t1 = value t2 -> attr t1 = attr t2).
Proof.
  intros H; apply tokenize_Ok in H; destruct H as (Hloop & -> & ->).
  assert (tables_ok s') as (Hsym & Hconst & Hattr).
  { pose proof (tables_ok_loop (Lexer_init source)) as Hwp.
    unfold wp in Hwp; rewrite Hloop in Hwp; apply Hwp.
    repeat split; constructor. }
  rewrite Forall_forall in Hattr.
  split; [assumption|]; split; [assumption|].
  split; [rewrite Hsym; apply distinct_NoDup|].
  split; [rewrite Hconst; apply distinct_NoDup|].
  split; [rewrite Hsym; apply distinct_length|].
  split; [rewrite Hconst; apply distinct_length|].
  split; [|split; [|split]].
  - intros t Ht Hc; destruct (Hattr t Ht) as [H1 _].
    destruct H1 as (idx & Ha & Hi); [apply Nat.eqb_eq, Hc|].
    exists idx; split; [assumption | apply index_of_Some_nth, Hi].
  - intros t Ht Hc; destruct (Hattr t Ht) as [_ H2].
    destruct H2 as (idx & Ha & Hi);
      [unfold is_const; rewrite andb_true_iff, !Nat.leb_le; lia|].
    exists idx; split; [assumption | apply index_of_Some_nth, Hi].
  - intros t1 t2 Ht1 Ht2 Hc1 Hc2 Hv.
    destruct (Hattr t1 Ht1) as [H1 _]; destruct (Hattr t2 Ht2) as [H2 _].
    destruct (H1 Hc1) as (i1 & -> & Hi1); destruct (H2 Hc2) as (i2 & -> & Hi2).
    congruence.
  - intros t1 t2 Ht1 Ht2 Hc1 Hc2 Hv.
    destruct (Hattr t1 Ht1) as [_ H1]; destruct (Hattr t2 Ht2) as [_ H2].
    destruct (H1 Hc1) as (i1 & -> & Hi1); destruct (H2 Hc2) as (i2 & -> & Hi2).
    congruence.
Qed.

Lemma table_determinism_witness :
  tokenize (Lexer_init (py "x = x + 1;"))
  = Ok (tokens example_tables, errors example_tables) example_tables /\
  sym_table example_tables = distinct (id_spellings (tokens example_tables)).
Proof.
  split; [vm_compute; reflexivity|].
  apply (table_determinism (py "x = x + 1;") (tokens example_tables)
           (errors example_tables) example_tables).
  vm_compute; reflexivity.
Defined.


(** ** Where errors are anchored *)

Lemma tracked_advanced : adv_closed tracked.
Proof.
  unfold adv_closed, tracked, line_col; intros s ch H Hch.
  cbn [advanced pos src line col].
  rewrite (firstn_S_nth _ _ _ Hch), fold_left_app, <- H; cbn.
  unfold NL; destruct (Ascii.eqb ch "010"); reflexivity.
Qed.

Lemma errors_since_adv s sl sc : adv_closed (errors_since s sl sc).
Proof. intros x ch H _; exact H. Qed.

Lemma errors_since_err s sl sc : err_closed sl sc (errors_since s sl sc).
Proof.
  intros x e (new & Hnew & Hall) Hl Hc.
  exists (new ++ [e]); cbn [errors push_error]; split.
  - rewrite Hnew, app_assoc; reflexivity.
  - apply Forall_app; split; [assumption|].
    constructor; [tauto | constructor].
Qed.

Lemma token_added_errors t s1 s2 :
  token_added t s1 s2 -> errors s2 = errors s1.
Proof. intros H; apply token_added_cursor in H; tauto. Qed.

(** The errors of a sub-scan of a lexeme or comment that starts in [s0]
    carry the line and column of [s0]. *)
Lemma scan_lexeme_errors (s0 : Lexer) c s' :
  scan_lexeme s0 = Ok c s' ->
  errors_since s0 (line s0) (col s0) s'.
Proof.
  intros H.
  pose proof (scan_lexeme_spec (errors_since s0 (line s0) (col s0)) s0
                (errors_since_adv _ _ _) (errors_since_err _ _ _)) as Hwp.
  unfold wp in Hwp; rewrite H in Hwp.
  destruct Hwp as (_ & s1 & (H1 & _) & H2).
  { exists []; rewrite app_nil_r; split; [reflexivity | constructor]. }
  destruct H2 as [->|(t & s2 & _ & _ & Hadd & ->)]; [assumption|].
  unfold errors_since in *; cbn [errors push_token].
  rewrite (token_added_errors _ _ _ Hadd); assumption.
Qed.

(** Skipping whitespace moves the cursor only. *)
Lemma _skip_ws_Ok (s s0 : Lexer) :
  _skip_ws s = Ok tt s0 ->
  src s0 = src s /\ pos s <= pos s0 /\
  tokens s0 = tokens s /\ errors s0 = errors s /\
  sym_table s0 = sym_table s /\ const_table s0 = const_table s /\
  (tracked s -> tracked s0).
Proof.
  intros H.
  pose proof (_skip_ws_spec
                (fun x => (same_output s x /\ errors x = errors s) /\
                          (tracked s -> tracked x)) s)
    as Hwp.
  unfold wp in Hwp; rewrite H in Hwp.
  destruct Hwp as ((((H1 & H2 & H3) & H4) & H5) & H6 & H7).
  - intros x ch [Hx1 Hx2] Hch; split; [exact Hx1|].
    intros Ht; apply tracked_advanced; auto.
  - repeat split; tauto.
  - repeat split; try assumption; lia.
Qed.

(** C9.  Every error recorded in an iteration of the driver loop carries the
    line and column of the scanner at the first character of the lexeme or
    comment that the iteration scans, that is, of the state [s0] that skipping
    the whitespace leaves, and not those of the place where the problem is
    met; this line and column are the ones of that character in the source
    text.  An illegal escape inside a character or string literal is thus
    recorded at the opening quote of the literal. *)
Theorem errors_anchored_at_start (s s0 : Lexer) (c : ctl unit unit)
    (s' : Lexer) :
  tracked s ->
  _skip_ws s = Ok tt s0 ->
  tokenize_body s = Ok c s' ->
  exists new,
    errors s' = errors s ++ new /\
    Forall (fun e =>
              eline e = line s0 /\ ecol e = col s0 /\
              (eline e, ecol e) = line_col (firstn (pos s0) (src s))) new.
Proof.
  intros Ht Hws Hbody.
  unfold tokenize_body, bind in Hbody; rewrite Hws in Hbody.
  destruct (_skip_ws_Ok s s0 Hws) as (Hsrc & _ & _ & Herr & _ & _ & Htr).
  destruct (scan_lexeme_errors s0 c s' Hbody) as (new & Hnew & Hall).
  exists new; split; [congruence|].
  eapply Forall_impl; [|exact Hall].
  intros e [-> ->]; split; [reflexivity|]; split; [reflexivity|].
  rewrite <- Hsrc; apply Htr, Ht.
Qed.

Lemma errors_anchored_at_start_witness :
  tracked example_escape /\
  _skip_ws example_escape = Ok tt example_escape_start /\
  tokenize_body example_escape = Ok (Continue tt) example_escape_end /\
  exists new,
    errors example_escape_end = errors example_escape ++ new /\
    Forall (fun e =>
              eline e = line example_escape_start /\
              ecol e = col example_escape_start /\
              (eline e, ecol e)
              = line_col (firstn (pos example_escape_start)
                            (src example_escape))) new.
Proof.
  split; [reflexivity|].
  split; [vm_compute; reflexivity|].
  split; [vm_compute; reflexivity|].
  apply (errors_anchored_at_start example_escape example_escape_start
           (Continue tt) example_escape_end);
    [reflexivity | vm_compute; reflexivity | vm_compute; reflexivity].
Defined.

(** The same for the two literal scanners on their own: what they record,
    illegal escapes included, is anchored at the opening quote. *)
Lemma _scan_string_errors (s : Lexer) r s' :
  nth_error (src s) (pos s) = Some DQUOTE ->
  _scan_string s = Ok r s' ->
  errors_since s (line s) (col s) s'.
Proof.
  intros Hq H.
  pose proof (_scan_string_spec (errors_since s (line s) (col s))
                (line s) (col s)
                (errors_since_adv _ _ _) (errors_since_err _ _ _) s) as Hwp.
  unfold wp in Hwp; rewrite H in Hwp.
  assert (errors_since s (line s) (col s) s) as H0
    by (exists []; rewrite app_nil_r; split; [reflexivity | constructor]).
  specialize (Hwp H0 eq_refl eq_refl Hq).
  destruct r as [t|]; simpl in Hwp.
  - destruct Hwp as (_ & _ & _ & idx & s1 & _ & (H1 & _) & _ & _ & _ & ->).
    exact H1.
  - apply Hwp.
Qed.

Lemma _scan_char_errors (s : Lexer) r s' :
  nth_error (src s) (pos s) = Some "'"%char ->
  _scan_char s = Ok r s' ->
  errors_since s (line s) (col s) s'.
Proof.
  intros Hq H.
  pose proof (_scan_char_spec (errors_since s (line s) (col s))
                (line s) (col s)
                (errors_since_adv _ _ _) (errors_since_err _ _ _) s) as Hwp.
  unfold wp in Hwp; rewrite H in Hwp.
  assert (errors_since s (line s) (col s) s) as H0
    by (exists []; rewrite app_nil_r; split; [reflexivity | constructor]).
  assert (nth_error (src s) (pos s) <> None) as Hn by congruence.
  specialize (Hwp H0 eq_refl eq_refl Hn).
  destruct r as [t|]; simpl in Hwp.
  - destruct Hwp as (_ & _ & _ & idx & s1 & _ & (H1 & _) & _ & ->).
    exact H1.
  - apply Hwp.
Qed.


Example escape_error_at_quote :
  errors example_escape_end
  = [mkLexError ILLEGAL_ESCAPE 1 3 (py "\q") ""].
Proof. reflexivity. Qed.

(** ** The scenarios of the specification *)

(** C1 as stated fails: the error that [1abc;] produces is not an
    illegal-identifier error. *)
Lemma digit_initial_run_not_illegal_id :
  ~ (exists toks errs,
       lex "1abc;" = Some (toks, errs) /\
       exists e, In e errs /\ error_type e = ILLEGAL_ID /\ evalue e = py "1abc").
Proof.
  intros (toks & errs & H & e & Hin & Hty & _).
  vm_compute in H; inversion H; subst.
  destruct Hin as [<-|[]]; discriminate.
Qed.

(** C1, amended.  For the input [1abc;], [tokenize] reports an
    illegal-number error (a letter directly follows a number) whose offending
    text is [1abc], emits no token for that run, and then emits the [;]
    delimiter token: scanning continues past the error. *)
Theorem digit_initial_run_illegal_number :
  lex "1abc;"
  = Some ([mkToken 136 (py ";") NoAttr 1 5],
          [mkLexError ILLEGAL_NUMBER 1 1 (py "1abc")
             "数字后不能直接跟字母"]).
Proof. vm_compute; reflexivity. Qed.

(** C3.  Numeric literal classification: [42] is an INT, [3.14], [.5] and
    [07.5] are FLOATs, [0x1A] is a HEX, [017] is an OCT, and [089] is an
    illegal-octal error with no token. *)
Theorem numeric_classification :
  lex "42" = Some ([mkToken 51 (py "42") (CONST 0) 1 1], []) /\
  lex "3.14" = Some ([mkToken 52 (py "3.14") (CONST 0) 1 1], []) /\
  lex ".5" = Some ([mkToken 52 (py ".5") (CONST 0) 1 1], []) /\
  lex "0x1A" = Some ([mkToken 55 (py "0x1A") (CONST 0) 1 1], []) /\
  lex "017" = Some ([mkToken 56 (py "017") (CONST 0) 1 1], []) /\
  lex "07.5" = Some ([mkToken 52 (py "07.5") (CONST 0) 1 1], []) /\
  lex "089"
  = Some ([], [mkLexError ILLEGAL_OCT 1 1 (py "089")
                 "八进制数不能包含8或9"]) /\
  assoc str_eqb (py "INT") CODE = Some 51 /\
  assoc str_eqb (py "FLOAT") CODE = Some 52 /\
  assoc str_eqb (py "HEX") CODE = Some 55 /\
  assoc str_eqb (py "OCT") CODE = Some 56.
Proof. repeat split; vm_compute; reflexivity. Qed.

(** C5 fails on the code: whitespace at the end of the input makes
    [_skip_ws] test [None in ' \t\r\n'], a [TypeError] that leaves
    [tokenize]; so does an octal escape that starts with [8] or [9], by the
    [ValueError] of [int(oct_val, 8)]. *)
Theorem trailing_whitespace_raises :
  run "x " = Raise TypeError /\
  tokenize (Lexer_init (py "x" ++ [NL])) = Raise TypeError /\
  tokenize (Lexer_init ([DQUOTE] ++ py "\8" ++ [DQUOTE])) = Raise ValueError.
Proof. repeat split; vm_compute; reflexivity. Qed.

(** What does hold of C5: the loop of [tokenize] never runs out of the fuel
    that the characters left give it, so [tokenize] returns or raises. *)
Theorem tokenize_terminates (source : str) :
  tokenize (Lexer_init source) <> OutOfFuel.
Proof.
  pose proof (tokenize_loop_spec (fun _ => True) (Lexer_init source) I) as H.
  unfold tokenize, bind, wp in *.
  destruct (tokenize_loop (Lexer_init source)); try discriminate.
  intros _; apply H; intros s1 _.
  pose proof (tokenize_body_spec (fun _ => True) (fun _ _ => True) s1) as Hb.
  unfold wp in *; destruct (tokenize_body s1); try exact I.
  apply Hb; unfold adv_closed, err_closed; tauto.
Qed.

(** Every iteration that goes on with the loop has consumed a character. *)
Theorem iteration_advances (s : Lexer) (s' : Lexer) :
  tokenize_body s = Ok (Continue tt) s' ->
  src s' = src s /\ pos s < pos s'.
Proof.
  intros H.
  pose proof (tokenize_body_spec (fun _ => True) (fun _ _ => True) s) as Hb.
  unfold wp in Hb; rewrite H in Hb; apply Hb;
    unfold adv_closed, err_closed; tauto.
Qed.


(** ** String literals keep their raw text *)

(** Whenever [_scan_string], started at an opening quote, emits a token,
    the token is a STRING whose lexeme is the source text from the opening
    quote to the closing quote, both included, escape sequences as they are
    written; its attribute is the index of this same text in the constant
    table. *)
Lemma emitted_string_is_raw_text (s : Lexer) (t : Token) (s' : Lexer) :
  nth_error (src s) (pos s) = Some DQUOTE ->
  _scan_string s = Ok (Some t) s' ->
  code t = 54 /\
  value t = between s s' /\
  (exists body, value t = DQUOTE :: body ++ [DQUOTE]) /\
  exists idx,
    attr t = CONST idx /\ nth_error (const_table s') idx = Some (value t).
Proof.
  intros Hq H.
  pose proof (_scan_string_spec (fun _ => True) (line s) (col s)) as Hwp.
  specialize (Hwp (fun _ _ _ _ => I) (fun _ _ _ _ _ => I) s I eq_refl eq_refl Hq).
  unfold wp in Hwp; rewrite H in Hwp; simpl in Hwp.
  destruct Hwp as (_ & _ & Hc & idx & s1 & Ha & _ & Hv & Hb & Hi & ->).
  split; [assumption|].
  split; [exact Hv|].
  split; [assumption|].
  exists idx; split; [assumption|].
  apply index_of_Some_nth in Hi; apply Hi.
Qed.


(** ** Running the scanner on a known character

    Total correctness: [wp False m Q s] says that [m] returns from [s], with
    a result that satisfies [Q]. *)

Lemma wp_False_Ok {A} (m : M A) (Q : A -> Lexer -> Prop) (s : Lexer) :
  wp False m Q s -> exists a s', m s = Ok a s' /\ Q a s'.
Proof.
  unfold wp; destruct (m s) as [a s'| |]; [|tauto|tauto].
  intros H; exists a, s'; split; [reflexivity | assumption].
Qed.

Lemma wp_advance_known E ch Q s :
  nth_error (src s) (pos s) = Some ch ->
  Q (Some ch) (advanced ch s) -> wp E _advance Q s.
Proof. intros H HQ; unfold wp, _advance; rewrite H; exact HQ. Qed.

(** Conditions on known characters are computed, not split. *)
Ltac eval_if :=
  lazymatch goal with
  | |- wp _ (if ?b then _ else _) _ _ =>
      let v := eval vm_compute in b in
      lazymatch v with
      | true => change b with true; cbv iota
      | false => change b with false; cbv iota
      end
  end.

Ltac rewrite_chars :=
  repeat match goal with
         | H : nth_error ?l ?n = _ |- context [nth_error ?l ?n] => rewrite H
         end.

Ltac wp_known_step :=
  lazymatch goal with
  | |- wp _ (bind _ _) _ _ => apply wp_bind
  | |- wp _ (ret _) _ _ => apply wp_ret
  | |- wp _ (get _) _ _ => apply wp_get
  | |- wp _ _char _ _ => apply wp_char; lex_simpl; rewrite_chars
  | |- wp _ (_peek _) _ _ =>
      apply wp_peek; lex_simpl; rewrite ?Nat.add_1_r; rewrite_chars
  | |- wp _ (char_is _) _ _ =>
      apply wp_char_is; lex_simpl; rewrite_chars; cbn [opt_test]
  | |- wp _ _advance _ _ =>
      eapply wp_advance_known; [lex_simpl; eassumption|]
  | |- wp _ (as_str _) _ _ => unfold as_str
  | |- wp _ (nonnull _ (Some _)) _ _ => apply wp_nonnull; cbv beta iota
  | |- wp _ (errors_append _) _ _ => apply wp_errors_append
  | |- wp _ (tokens_append _) _ _ => apply wp_tokens_append
  | |- wp _ (append_if_token (Some _)) _ _ => apply wp_tokens_append
  | |- wp _ (append_if_token None) _ _ => apply wp_ret
  | |- wp _ (append_advance _) _ _ => unfold append_advance
  | |- wp _ (if _ then _ else _) _ _ => eval_if
  | |- wp _ (match Some _ with Some _ => _ | None => _ end) _ _ => cbv iota
  | |- wp _ (match @None _ with Some _ => _ | None => _ end) _ _ => cbv iota
  | |- wp _ (match inl _ with inl _ => _ | inr _ => _ end) _ _ => cbv iota
  | |- wp _ (match inr _ with inl _ => _ | inr _ => _ end) _ _ => cbv iota
  | |- wp _ (CODE_get _) _ _ => eapply wp_CODE_get; [vm_compute; reflexivity|]
  end; cbv beta.

Ltac wp_known := repeat wp_known_step.

(** The loop of [tokenize] makes one iteration where a [#] is the current
    character. *)
Lemma hash_stops (s0 s : Lexer) :
  _skip_ws s0 = Ok tt s ->
  nth_error (src s) (pos s) = Some "#"%char ->
  tokenize_loop s0
  = Ok tt (push_token (mkToken 137 (py "#") NoAttr (line s) (col s))
             (advanced "#" s)).
Proof.
  intros Hws Hch.
  set (final := push_token _ _).
  destruct (_skip_ws_Ok s0 s Hws) as (Hsrc & Hpos & _).
  assert (wp False tokenize_loop (fun _ s' => s' = final) s0) as Hwp.
  { unfold tokenize_loop; apply wp_bind.
    eapply wp_mono;
      [ apply wp_while with
          (I := fun (_ : unit) s1 => s1 = s0)
          (Q := fun (_ : unit + unit) s1 => s1 = final); [reflexivity|]
      | cbv beta; intros; wp_known; assumption ].
    intros [] s1 ->; wp_known; split; [lia|].
    assert ((pos s0 <? List.length (src s0)) = true) as ->
      by (apply Nat.ltb_lt; apply nth_error_lt in Hch; rewrite <- Hsrc; lia).
    unfold tokenize_body; apply wp_bind.
    unfold wp at 1; rewrite Hws.
    unfold scan_lexeme; wp_known.
    unfold _skip_comment; wp_known.
    unfold dispatch; wp_known.
    unfold _scan_delim; wp_known.
    reflexivity. }
  destruct (wp_False_Ok _ _ _ Hwp) as ([] & s' & -> & ->); reflexivity.
Qed.

(** C7.  Consuming a [#] delimiter ends the scan right after its token is
    emitted, whatever source text remains: when an iteration of the loop
    starts in [s0] and, the whitespace skipped, finds [#] as the current
    character of [s], [tokenize] returns the tokens so far and the [#] token,
    the errors so far, and a cursor just after the [#].  The input [x;#y;]
    gives the tokens of [x], [;] and [#] only. *)
Theorem hash_ends_scan :
  (forall s0 s : Lexer,
     _skip_ws s0 = Ok tt s ->
     nth_error (src s) (pos s) = Some "#"%char ->
     exists s',
       tokenize s0
       = Ok (tokens s0 ++ [mkToken 137 (py "#") NoAttr (line s) (col s)],
             errors s0) s' /\
       pos s' = S (pos s)) /\
  lex "x;#y;"
  = Some ([mkToken 50 (py "x") (SYM 0) 1 1;
           mkToken 136 (py ";") NoAttr 1 2;
           mkToken 137 (py "#") NoAttr 1 3], []).
Proof.
  split; [|vm_compute; reflexivity].
  intros s0 s Hws Hch; eexists; split.
  - unfold tokenize, bind; rewrite (hash_stops s0 s Hws Hch).
    destruct (_skip_ws_Ok s0 s Hws) as (_ & _ & Htok & Herr & _).
    unfold get, ret; cbn [tokens errors push_token advanced].
    rewrite Htok, Herr; reflexivity.
  - reflexivity.
Qed.

Lemma hash_ends_scan_witness :
  _skip_ws example_hash = Ok tt example_hash_start /\
  nth_error (src example_hash_start) (pos example_hash_start)
  = Some "#"%char /\
  exists s',
    tokenize example_hash
    = Ok ([mkToken 137 (py "#") NoAttr 1 3], []) s' /\
    pos s' = 3.
Proof.
  split; [vm_compute; reflexivity|]; split; [reflexivity|].
  apply (proj1 hash_ends_scan example_hash example_hash_start);
    [vm_compute; reflexivity | reflexivity].
Defined.


(** ** Unclosed block comments *)

Lemma unclosed_comment_skipped E (s : Lexer) :
  nth_error (src s) (pos s) = Some "/"%char ->
  nth_error (src s) (S (pos s)) = Some "*"%char ->
  has_close (skipn (S (S (pos s))) (src s)) = false ->
  wp E _skip_comment (fun r s' => r = true /\ comment_swallowed s s') s.
Proof.
  intros H0 H1 Hclose; unfold _skip_comment; wp_known.
  eapply wp_mono;
    [ apply wp_while with
        (I := fun (_ : unit) s1 =>
                src s1 = src s /\ S (S (pos s)) <= pos s1 /\
                pos s1 <= List.length (src s) /\
                has_close (skipn (pos s1) (src s)) = false /\
                tokens s1 = tokens s /\ errors s1 = errors s /\
                sym_table s1 = sym_table s /\ const_table s1 = const_table s)
        (Q := fun (r : unit + bool) s1 =>
                r = inl tt /\
                src s1 = src s /\ pos s1 = List.length (src s) /\
                tokens s1 = tokens s /\ errors s1 = errors s /\
                sym_table s1 = sym_table s /\ const_table s1 = const_table s)
    | ].
  - lex_simpl; repeat split; try assumption; try lia.
    apply nth_error_lt in H1; lia.
  - intros [] s1 (Hsrc & Hlo & Hhi & Hc & Htok & Herr & Hsym & Hconst).
    apply wp_char_is; split; [lia|].
    destruct (nth_error (src s1) (pos s1)) as [c|] eqn:Hch; cbn [opt_test].
    + (* a character of the comment: it does not close it *)
      rewrite Hsrc in Hch.
      destruct (skipn_nth _ _ _ Hch) as [rest Hrest].
      assert (nth_error (src s1) (pos s1 + 1) = nth_error rest 0) as Hpeek.
      { rewrite Hsrc, <- (nth_error_skipn (pos s1) (src s) 1), Hrest.
        reflexivity. }
      rewrite Hrest in Hc; cbn [has_close] in Hc.
      apply orb_false_iff in Hc; destruct Hc as [Hc1 Hc2].
      apply wp_bind, wp_char; rewrite Hsrc, Hch.
      apply wp_bind, wp_peek; rewrite Hpeek.
      assert (opt_is (Some c) "*" && opt_is (nth_error rest 0) "/" = false)
        as -> by (destruct rest; exact Hc1).
      apply wp_bind.
      apply (wp_advance_known E c); [rewrite Hsrc; exact Hch|].
      apply wp_ret; lex_simpl.
      assert (skipn (S (pos s1)) (src s) = rest) as ->.
      { change (S (pos s1)) with (1 + pos s1).
        rewrite <- skipn_skipn, Hrest; reflexivity. }
      apply nth_error_lt in Hch.
      repeat split; try assumption; try lia.
      apply remaining_lt; lex_simpl; [reflexivity | lia | rewrite Hsrc; lia].
    + (* the end of the input *)
      apply nth_error_None in Hch; rewrite Hsrc in Hch.
      repeat split; try assumption; lia.
  - cbv beta; intros r s1 (-> & Hsrc & Hpos & Htok & Herr & Hsym & Hconst).
    wp_known; split; [reflexivity|].
    unfold comment_swallowed; lex_simpl; rewrite Herr.
    repeat split; assumption.
Qed.

(** C6.  If a block comment is never closed, the scan ends with it: when an
    iteration of the loop starts in [s0] and, the whitespace skipped, finds in
    [s] a [/*] after which no [*/] follows, [tokenize] returns the tokens
    there were, the errors there were and exactly one unclosed-comment error,
    which carries the line and column of the opening [/*]; the rest of the
    input is consumed, and the tables are as they were. *)
Theorem unclosed_comment_swallows_rest (s0 s : Lexer) :
  _skip_ws s0 = Ok tt s ->
  nth_error (src s) (pos s) = Some "/"%char ->
  nth_error (src s) (pos s + 1) = Some "*"%char ->
  has_close (skipn (pos s + 2) (src s)) = false ->
  exists s',
    tokenize s0
    = Ok (tokens s0,
          errors s0
          ++ [mkLexError UNCLOSED_COMMENT (line s) (col s) (py "/*") ""]) s' /\
    pos s' = List.length (src s0) /\
    sym_table s' = sym_table s0 /\ const_table s' = const_table s0.
Proof.
  rewrite Nat.add_1_r, (Nat.add_comm (pos s) 2); cbn [Nat.add].
  intros Hws H0 H1 Hclose.
  destruct (_skip_ws_Ok s0 s Hws)
    as (Hsrc0 & Hpos0 & Htok0 & Herr0 & Hsym0 & Hconst0 & _).
  assert (wp False tokenize_loop (fun _ s' => comment_swallowed s s') s0)
    as Hwp.
  { unfold tokenize_loop; apply wp_bind.
    eapply wp_mono;
      [ apply wp_while with
          (I := fun (_ : unit) s1 => s1 = s0 \/ comment_swallowed s s1)
          (Q := fun (_ : unit + unit) s1 => comment_swallowed s s1);
        [left; reflexivity|]
      | cbv beta; intros; wp_known; assumption ].
    intros [] s1 [->|Hfin]; wp_known; (split; [lia|]).
    - assert ((pos s0 <? List.length (src s0)) = true) as ->
        by (apply Nat.ltb_lt; apply nth_error_lt in H0; rewrite <- Hsrc0; lia).
      unfold tokenize_body; apply wp_bind.
      unfold wp at 1; rewrite Hws.
      unfold scan_lexeme; wp_known.
      eapply wp_mono; [apply unclosed_comment_skipped; assumption|].
      cbv beta; intros r s1 [-> Hfin]; wp_known.
      split; [right; exact Hfin|].
      destruct Hfin as (Hsrc & Hpos & _).
      apply nth_error_lt in H0.
      unfold remaining; rewrite Hsrc, Hpos, Hsrc0; rewrite Hsrc0 in H0; lia.
    - pose proof Hfin as (Hsrc & Hpos & _).
      rewrite Hsrc, Hpos, Nat.ltb_irrefl.
      exact Hfin. }
  destruct (wp_False_Ok _ _ _ Hwp) as ([] & s' & Hrun & Hfin).
  exists s'; unfold tokenize, bind, get, ret; rewrite Hrun.
  destruct Hfin as (Hsrc & Hpos & -> & -> & Hsym & Hconst).
  rewrite Htok0, Herr0; repeat split; congruence.
Qed.

Lemma unclosed_comment_swallows_rest_witness :
  _skip_ws example_unclosed = Ok tt example_unclosed_start /\
  nth_error (src example_unclosed_start) (pos example_unclosed_start)
  = Some "/"%char /\
  nth_error (src example_unclosed_start) (pos example_unclosed_start + 1)
  = Some "*"%char /\
  has_close (skipn (pos example_unclosed_start + 2)
               (src example_unclosed_start)) = false /\
  exists s',
    tokenize example_unclosed
    = Ok ([], [mkLexError UNCLOSED_COMMENT 1 3 (py "/*") ""]) s' /\
    pos s' = 12 /\ sym_table s' = [] /\ const_table s' = [].
Proof.
  split; [vm_compute; reflexivity|].
  split; [reflexivity|]; split; [reflexivity|]; split; [reflexivity|].
  apply (unclosed_comment_swallows_rest example_unclosed
           example_unclosed_start);
    [vm_compute; reflexivity | reflexivity | reflexivity | reflexivity].
Defined.

(** The same after some tokens: nothing follows the error. *)
Example unclosed_comment_after_tokens :
  lex "x = 1; /* y = 2;"
  = Some ([mkToken 50 (py "x") (SYM 0) 1 1;
           mkToken 65 (py "=") NoAttr 1 3;
           mkToken 51 (py "1") (CONST 0) 1 5;
           mkToken 136 (py ";") NoAttr 1 6],
          [mkLexError UNCLOSED_COMMENT 1 8 (py "/*") ""]).
Proof. vm_compute; reflexivity. Qed.


(** ** Maximal munch *)

Lemma rest_chars (s : Lexer) (k : nat) :
  nth_error (src s) (pos s + k) = nth_error (skipn (pos s) (src s)) k.
Proof. symmetry; apply nth_error_skipn. Qed.

Lemma first_chars (s : Lexer) :
  nth_error (src s) (pos s)
  = match skipn (pos s) (src s) with c :: _ => Some c | [] => None end /\
  nth_error (src s) (S (pos s))
  = match skipn (pos s) (src s) with _ :: c :: _ => Some c | _ => None end /\
  nth_error (src s) (S (S (pos s)))
  = match skipn (pos s) (src s) with
    | _ :: _ :: c :: _ => Some c
    | _ => None
    end.
Proof.
  pose proof (rest_chars s 0) as H0; rewrite Nat.add_0_r in H0.
  pose proof (rest_chars s 1) as H1; rewrite Nat.add_1_r in H1.
  pose proof (rest_chars s 2) as H2.
  replace (pos s + 2) with (S (S (pos s))) in H2 by lia.
  rewrite H0, H1, H2.
  destruct (skipn (pos s) (src s)) as [|c0 [|c1 [|c2 l]]]; repeat split.
Qed.

Lemma in_triple_length (v : str) :
  str_in v TRIPLE_OPS = true -> List.length v = 3.
Proof.
  intros H; apply str_in_In in H.
  repeat (destruct H as [<-|H]; [reflexivity|]); destruct H.
Qed.

Lemma in_double_length (v : str) :
  str_in v DOUBLE_OPS = true -> List.length v = 2.
Proof.
  intros H; apply str_in_In in H.
  repeat (destruct H as [<-|H]; [reflexivity|]); destruct H.
Qed.

Lemma in_single_length (v : str) :
  str_in v SINGLE_OPS = true -> List.length v = 1.
Proof.
  intros H; apply str_in_In in H.
  repeat (destruct H as [<-|H]; [reflexivity|]); destruct H.
Qed.

Ltac op_code :=
  lazymatch goal with
  | |- wp _ (CODE_get ?k) _ _ =>
      let c := fresh "c" in
      let Hcode := fresh "Hcode" in
      let Hlt := fresh "Hlt" in
      destruct (operator_code k) as (c & Hcode & Hlt);
      [ repeat match goal with
               | H : str_in _ _ = true |- _ => apply str_in_In in H
               end;
        rewrite !in_app_iff; tauto
      | apply (wp_CODE_get _ _ c); [assumption|];
        unfold plain_token, code_of; try rewrite Hcode ]
  end.

(** [_scan_op] returns the token of the longest operator at the cursor and
    consumes it, or returns [None] and consumes nothing. *)
Lemma _scan_op_longest (s : Lexer) :
  _scan_op s
  = match longest_operator (skipn (pos s) (src s)) with
    | Some op => Ok (Some (plain_token op s)) (consumed op s)
    | None => Ok None s
    end.
Proof.
  assert (wp False _scan_op
            (fun r s' =>
               match longest_operator (skipn (pos s) (src s)) with
               | Some op => r = Some (plain_token op s) /\ s' = consumed op s
               | None => r = None /\ s' = s
               end) s) as Hwp.
  { destruct (first_chars s) as (H0 & H1 & H2).
    unfold longest_operator, _scan_op.
    destruct (skipn (pos s) (src s)) as [|c0 [|c1 [|c2 l]]];
      cbv match in H0, H1, H2; cbn [firstn];
      repeat first
        [ wp_known_step
        | op_code
        | progress (rewrite ?Nat.add_succ_r, ?Nat.add_0_r, ?H0, ?H1, ?H2;
                    cbv beta iota)
        | match goal with
          | |- wp _ (if ?b then _ else _) _ _ => destruct b eqn:?
          end ];
      repeat match goal with
             | |- context [if ?b then _ else _] => destruct b eqn:?
             end;
      unfold plain_token, code_of;
      repeat match goal with
             | H : assoc _ _ CODE = Some _ |- _ => rewrite H
             end;
      try (split; reflexivity).
    all: exfalso.
    all:
      repeat match goal with
             | H : str_in _ TRIPLE_OPS = true |- _ =>
                 apply in_triple_length in H
             | H : str_in _ DOUBLE_OPS = true |- _ =>
                 apply in_double_length in H
             | H : str_in _ SINGLE_OPS = true |- _ =>
                 apply in_single_length in H
             end; cbn [List.length] in *; discriminate. }
  destruct (wp_False_Ok _ _ _ Hwp) as (r & s' & -> & Hr).
  destruct (longest_operator (skipn (pos s) (src s)));
    destruct Hr as [-> ->]; reflexivity.
Qed.
Lemma longest_operator_Some (l : str) (c0 : ascii) :
  nth_error l 0 = Some c0 -> str_in [c0] SINGLE_OPS = true ->
  exists op, longest_operator l = Some op.
Proof.
  intros H0 H1; unfold longest_operator.
  destruct l as [|c l]; [discriminate|]; inversion H0; subst.
  repeat match goal with
         | |- context [if ?b then _ else _] => destruct b eqn:?
         end; try (eexists; reflexivity).
  cbn [firstn] in *; congruence.
Qed.

(** At a character that starts an operator and no comment, the dispatch
    appends the token of the longest operator and consumes it. *)
Lemma dispatch_operator (s : Lexer) (c0 : ascii) :
  nth_error (src s) (pos s) = Some c0 ->
  str_in [c0] SINGLE_OPS = true ->
  comment_start s = false ->
  exists op,
    longest_operator (skipn (pos s) (src s)) = Some op /\
    dispatch s
    = Ok (Continue tt) (push_token (plain_token op s) (consumed op s)).
Proof.
  intros Hch Hop Hcs.
  destruct (longest_operator_Some (skipn (pos s) (src s)) c0) as [op Hlong];
    [rewrite <- rest_chars, Nat.add_0_r; exact Hch | exact Hop |].
  exists op; split; [exact Hlong|].
  assert (wp False dispatch
            (fun c s' =>
               c = Continue tt /\
               s' = push_token (plain_token op s) (consumed op s)) s) as Hwp.
  { unfold comment_start in Hcs; rewrite Hch in Hcs; cbn [opt_is] in Hcs.
    apply str_in_In in Hop; unfold SINGLE_OPS in Hop; simpl in Hop.
    unfold dispatch.
    repeat (destruct Hop as [Hop|Hop];
            [ injection Hop as <-; wp_known;
              rewrite ?Nat.add_1_r in *; try rewrite Hcs; wp_known;
              unfold wp at 1; rewrite _scan_op_longest, Hlong;
              wp_known; split; reflexivity |]).
    destruct Hop. }
  destruct (wp_False_Ok _ _ _ Hwp) as (c & s' & -> & -> & ->); reflexivity.
Qed.

(** C2.  Maximal munch.  [_scan_op] emits the three-character operator if
    the next three characters form one, else the two-character operator if
    the next two form one, else the one-character operator, and consumes
    exactly the operator it emits; at every character that starts an operator
    (and no comment) the driver appends that token.  The input [a>>=b] gives
    ID [a], the operator [>>=] and ID [b]. *)
Theorem maximal_munch :
  (forall s : Lexer,
     _scan_op s
     = match longest_operator (skipn (pos s) (src s)) with
       | Some op => Ok (Some (plain_token op s)) (consumed op s)
       | None => Ok None s
       end) /\
  (forall (s : Lexer) (c0 : ascii),
     nth_error (src s) (pos s) = Some c0 ->
     str_in [c0] SINGLE_OPS = true ->
     comment_start s = false ->
     exists op,
       longest_operator (skipn (pos s) (src s)) = Some op /\
       dispatch s
       = Ok (Continue tt) (push_token (plain_token op s) (consumed op s))) /\
  longest_operator (py ">>=b") = Some (py ">>=") /\
  lex "a>>=b"
  = Some ([mkToken 50 (py "a") (SYM 0) 1 1;
           mkToken 90 (py ">>=") NoAttr 1 2;
           mkToken 50 (py "b") (SYM 1) 1 5], []).
Proof.
  split; [exact _scan_op_longest|].
  split; [exact dispatch_operator|].
  split; vm_compute; reflexivity.
Qed.

Lemma maximal_munch_witness :
  nth_error (src example_shift) (pos example_shift) = Some ">"%char /\
  str_in [">"%char] SINGLE_OPS = true /\
  comment_start example_shift = false /\
  exists op,
    longest_operator (skipn (pos example_shift) (src example_shift)) = Some op /\
    dispatch example_shift
    = Ok (Continue tt)
        (push_token (plain_token op example_shift)
           (consumed op example_shift)).
Proof.
  split; [reflexivity|]; split; [reflexivity|]; split; [reflexivity|].
  apply (proj1 (proj2 maximal_munch) example_shift ">"%char); reflexivity.
Defined.


(** ** Hexadecimal literals and a following letter *)

Lemma errors_kept_adv (s : Lexer) : adv_closed (fun x => errors x = errors s).
Proof. intros x ch H _; exact H. Qed.

(** After [0x] and a hexadecimal digit, [_scan_num] returns a HEX token for
    the prefix and the run of hexadecimal digits, and records no error,
    whatever follows the run. *)
Lemma hex_literal_scanned (s : Lexer) (x h : ascii) :
  nth_error (src s) (pos s) = Some "0"%char ->
  nth_error (src s) (pos s + 1) = Some x ->
  x = "x"%char \/ x = "X"%char ->
  nth_error (src s) (pos s + 2) = Some h ->
  is_hex_char h = true ->
  exists t s',
    _scan_num s = Ok (Some t) s' /\
    code t = 55 /\ value t = between s s' /\
    tline t = line s /\ tcol t = col s /\
    errors s' = errors s /\ pos s + 3 <= pos s' /\
    opt_test is_hex_char (nth_error (src s') (pos s')) = false.
Proof.
  rewrite Nat.add_1_r, (Nat.add_comm (pos s) 2); cbn [Nat.add].
  intros H0 H1 Hx H2 Hh.
  assert (wp False _scan_num
            (fun r s' =>
               exists t,
                 r = Some t /\
                 code t = 55 /\ value t = between s s' /\
                 tline t = line s /\ tcol t = col s /\
                 errors s' = errors s /\ pos s + 3 <= pos s' /\
                 opt_test is_hex_char (nth_error (src s') (pos s')) = false)
            s) as Hwp.
  { unfold _scan_num; wp_known.
    assert (opt_is (Some "0"%char) "0"
            && (opt_is (Some x) "x" || opt_is (Some x) "X") = true) as ->
      by (destruct Hx as [-> | ->]; reflexivity).
    unfold _scan_hex; wp_known.
    eapply wp_mono;
      [ apply (take_run_spec False (fun y => errors y = errors s));
        [apply errors_kept_adv | reflexivity] |].
    cbv beta; intros digits s2 ((Herr & Hsrc & Hpos) & Hval & Hstrict & Hstop).
    lex_simpl; rewrite H2 in Hstrict; specialize (Hstrict Hh).
    destruct (between_cons (advanced x (advanced "0" s)) s2 h) as [tl Htl];
      [exact H2 | exact Hstrict |].
    rewrite Htl in Hval; cbn [app] in Hval; subst digits; cbn [nonempty negb].
    apply wp_const_token; [simpl; tauto|].
    intros idx c Hidx Hcode _; vm_compute in Hcode; injection Hcode as <-.
    eexists; split; [reflexivity|]; cbn [code value tline tcol].
    split; [reflexivity|];
      split; [|lex_simpl; repeat split; try assumption; try reflexivity; lia].
    change (between s (with_const_table _ s2)) with (between s s2).
    rewrite (between_trans s (advanced x (advanced "0" s)) s2), Htl
      by (try assumption; try reflexivity; lex_simpl; lia).
    rewrite (between_advanced s (advanced "0" s) x),
      (between_advanced s s "0"), between_refl
      by (try reflexivity; try assumption; lex_simpl; lia).
    reflexivity. }
  destruct (wp_False_Ok _ _ _ Hwp) as (r & s' & Hrun & t & -> & Hrest).
  exists t, s'; split; [exact Hrun | exact Hrest].
Qed.

(** C10.  A letter that follows a hexadecimal literal does not make it an
    error once a hexadecimal digit was consumed: the HEX token ends where the
    digits end.  For [0x1g] the tokens are the HEX [0x1] and the ID [g], and
    there is no error, whereas [1g] and [01g] are illegal numbers as a
    whole. *)
Theorem hex_literal_then_letter :
  (forall (s : Lexer) (x h : ascii),
     nth_error (src s) (pos s) = Some "0"%char ->
     nth_error (src s) (pos s + 1) = Some x ->
     x = "x"%char \/ x = "X"%char ->
     nth_error (src s) (pos s + 2) = Some h ->
     is_hex_char h = true ->
     exists t s',
       _scan_num s = Ok (Some t) s' /\
       code t = 55 /\ value t = between s s' /\
       tline t = line s /\ tcol t = col s /\
       errors s' = errors s /\ pos s + 3 <= pos s' /\
       opt_test is_hex_char (nth_error (src s') (pos s')) = false) /\
  lex "0x1g"
  = Some ([mkToken 55 (py "0x1") (CONST 0) 1 1;
           mkToken 50 (py "g") (SYM 0) 1 4], []) /\
  lex "1g"
  = Some ([], [mkLexError ILLEGAL_NUMBER 1 1 (py "1g")
                 "数字后不能直接跟字母"]) /\
  lex "01g" = Some ([], [mkLexError ILLEGAL_NUMBER 1 1 (py "01g") ""]).
Proof.
  split; [exact hex_literal_scanned|].
  repeat split; vm_compute; reflexivity.
Qed.

Lemma hex_literal_then_letter_witness :
  nth_error (src example_hex) (pos example_hex) = Some "0"%char /\
  nth_error (src example_hex) (pos example_hex + 1) = Some "x"%char /\
  nth_error (src example_hex) (pos example_hex + 2) = Some "1"%char /\
  is_hex_char "1" = true /\
  exists t s',
    _scan_num example_hex = Ok (Some t) s' /\
    code t = 55 /\ value t = between example_hex s' /\
    tline t = line example_hex /\ tcol t = col example_hex /\
    errors s' = errors example_hex /\ pos example_hex + 3 <= pos s' /\
    opt_test is_hex_char (nth_error (src s') (pos s')) = false.
Proof.
  split; [reflexivity|]; split; [reflexivity|]; split; [reflexivity|].
  split; [reflexivity|].
  apply (proj1 hex_literal_then_letter example_hex "x"%char "1"%char);
    try reflexivity.
  left; reflexivity.
Defined.


(** ** String literals that are closed *)

Lemma rest_head (s : Lexer) (c : ascii) (r : str) :
  rest s = c :: r -> nth_error (src s) (pos s) = Some c.
Proof.
  unfold rest; intros H.
  rewrite <- (Nat.add_0_r (pos s)), rest_chars, H; reflexivity.
Qed.

Lemma rest_advanced (s : Lexer) (c : ascii) (r : str) :
  rest s = c :: r -> rest (advanced c s) = r.
Proof.
  unfold rest; cbn [pos src advanced]; intros H.
  change (S (pos s)) with (1 + pos s).
  rewrite <- skipn_skipn, H; reflexivity.
Qed.

Lemma literal_body_cons (c : ascii) (l : str) :
  literal_body (c :: l) ->
  (plain_char c = true /\ literal_body l)
  \/ (c = "\"%char /\
      exists e l',
        l = e :: l' /\ escape_char_ok e = true /\ literal_body l').
Proof.
  intros H; inversion H; subst; [left; tauto|].
  right; split; [reflexivity|]; eexists _, _; repeat split; assumption.
Qed.

Lemma literal_body_tail (c : ascii) (l : str) :
  plain_char c = true -> literal_body (c :: l) -> literal_body l.
Proof.
  intros Hc H; inversion H; subst; [assumption|].
  discriminate.
Qed.

(** One round of an escape's digit loop in front of a body [l] and its
    closing quote: it consumes a digit of [l] or nothing. *)
Lemma escape_digit_body E (p : ascii -> bool) (s0 s : Lexer)
    (digits val l tail : str) :
  (forall c, p c = true -> plain_char c = true) ->
  string_frame s0 s ->
  rest s = l ++ DQUOTE :: tail -> literal_body l ->
  wp E (escape_digit p (digits, val))
    (fun r s' =>
       exists ds l',
         l = ds ++ l' /\ literal_body l' /\ Forall (fun c => p c = true) ds /\
         r = (digits ++ ds, val ++ ds) /\
         rest s' = l' ++ DQUOTE :: tail /\ string_frame s0 s' /\
         pos s <= pos s') s.
Proof.
  intros Hp Hfr Hrest Hl; unfold escape_digit.
  apply wp_bind, wp_char_is.
  destruct l as [|c l].
  - (* the closing quote is next *)
    rewrite (rest_head s DQUOTE tail Hrest); cbn [opt_test].
    destruct (p DQUOTE) eqn:Hq; [apply Hp in Hq; discriminate|].
    apply wp_ret; exists [], []; rewrite !app_nil_r.
    repeat split; try assumption; try apply Hfr; constructor.
  - rewrite (rest_head s c (l ++ DQUOTE :: tail) Hrest); cbn [opt_test].
    destruct (p c) eqn:Hc.
    + unfold append_advance; apply wp_bind, wp_bind.
      apply (wp_advance_known E c);
        [exact (rest_head s c _ Hrest)|].
      apply wp_bind, wp_nonnull; cbv beta iota.
      apply wp_ret, wp_bind, wp_str_last_snoc, wp_ret.
      exists [c], l; repeat split; try apply Hfr.
      * apply (literal_body_tail c); [apply Hp, Hc | exact Hl].
      * constructor; [exact Hc | constructor].
      * apply (rest_advanced s c), Hrest.
      * cbn; lia.
    + apply wp_ret; exists [], (c :: l); rewrite !app_nil_r.
      repeat split; try assumption; try apply Hfr; constructor.
Qed.
Lemma twice_escape_digit_body E (p : ascii -> bool) (s0 s : Lexer)
    (digits val l tail : str) :
  (forall c, p c = true -> plain_char c = true) ->
  string_frame s0 s ->
  rest s = l ++ DQUOTE :: tail -> literal_body l ->
  wp E (twice (escape_digit p) (digits, val))
    (fun r s' =>
       exists ds l',
         l = ds ++ l' /\ literal_body l' /\ Forall (fun c => p c = true) ds /\
         r = (digits ++ ds, val ++ ds) /\
         rest s' = l' ++ DQUOTE :: tail /\ string_frame s0 s' /\
         pos s <= pos s') s.
Proof.
  intros Hp Hfr Hrest Hl; unfold twice.
  apply wp_bind.
  eapply wp_mono; [apply (escape_digit_body E p s0 s); eassumption|].
  cbv beta; intros r s1 (ds1 & l1 & -> & Hl1 & Hds1 & -> & Hr1 & Hfr1 & Hp1).
  eapply wp_mono; [apply (escape_digit_body E p s0 s1); eassumption|].
  cbv beta; intros r s2 (ds2 & l2 & -> & Hl2 & Hds2 & -> & Hr2 & Hfr2 & Hp2).
  exists (ds1 ++ ds2), l2; rewrite <- !app_assoc.
  repeat split; try assumption; try apply Hfr2; try lia.
  apply Forall_app; split; assumption.
Qed.

(** The digits that the escapes collect are digits of their base. *)
Lemma hex_digit_value (c : ascii) :
  is_hex_digit c = true ->
  plain_char c = true /\
  exists d, digit_value c = Some d /\ (d <? 16)%N = true.
Proof.
  destruct c as [[] [] [] [] [] [] [] []]; vm_compute; intros H;
    try discriminate; (split; [reflexivity | eexists; split; reflexivity]).
Qed.

Lemma oct_digit_value (c : ascii) :
  is_oct_digit c = true ->
  plain_char c = true /\
  exists d, digit_value c = Some d /\ (d <? 8)%N = true.
Proof.
  destruct c as [[] [] [] [] [] [] [] []]; vm_compute; intros H;
    try discriminate; (split; [reflexivity | eexists; split; reflexivity]).
Qed.

Lemma oct_escape_value (e : ascii) :
  escape_char_ok e = true -> isdigit e = true ->
  exists d, digit_value e = Some d /\ (d <? 8)%N = true.
Proof.
  destruct e as [[] [] [] [] [] [] [] []]; vm_compute; intros H1 H2;
    try discriminate; eexists; split; reflexivity.
Qed.

Lemma int_digits_Some (base : N) (v : str) (acc : N) :
  Forall (fun c => exists d, digit_value c = Some d /\ (d <? base)%N = true) v ->
  exists n, int_digits base v acc = Some n.
Proof.
  intros H; revert acc; induction H as [|c v (d & Hd & Hlt) _ IH]; intros acc.
  - eexists; reflexivity.
  - cbn [int_digits]; rewrite Hd, Hlt; apply IH.
Qed.

Lemma wp_int_base_digits E (base : N) (v : str) Q s :
  v <> [] ->
  Forall (fun c => exists d, digit_value c = Some d /\ (d <? base)%N = true) v ->
  (forall n, Q n s) -> wp E (int_base base v) Q s.
Proof.
  intros Hne Hv HQ; unfold int_base.
  destruct v as [|c v]; [congruence|].
  destruct (int_digits_Some base (c :: v) 0 Hv) as [n ->].
  apply HQ.
Qed.
Ltac body_done :=
  repeat split; try assumption;
  try (rewrite <- ?app_assoc, ?app_nil_r; reflexivity);
  try (lex_simpl; lia);
  try solve [match goal with H : string_frame _ _ |- _ => apply H end].

(** One iteration of the loop of [_scan_string] in front of a body that is
    not empty: it consumes a plain character, or an escape and the digits
    that belong to it, appends what it consumes to the lexeme, and goes
    on. *)
Lemma string_body_total (s0 s : Lexer) (sl sc : nat) (val : str)
    (content : list N) (c : ascii) (l tail : str) :
  string_frame s0 s ->
  rest s = (c :: l) ++ DQUOTE :: tail -> literal_body (c :: l) ->
  wp False (string_body sl sc (val, content))
    (fun r s' =>
       exists ds l' content',
         c :: l = ds ++ l' /\ literal_body l' /\
         r = Continue (val ++ ds, content') /\
         rest s' = l' ++ DQUOTE :: tail /\ string_frame s0 s' /\
         pos s < pos s') s.
Proof.
  intros Hfr Hrest Hl; unfold string_body.
  pose proof (rest_head s c _ Hrest) as Hc.
  pose proof (rest_advanced s c _ Hrest) as Hrest1.
  destruct (literal_body_cons c l Hl)
    as [[Hplain Hl']|(-> & e & l' & -> & He & Hl')].
  - (* a plain character *)
    apply andb_true_iff in Hplain; destruct Hplain as [_ Hplain].
    apply negb_true_iff in Hplain.
    wp_known; cbn [opt_is]; rewrite Hplain; wp_known.
    exists [c], l; eexists; body_done.
  - (* an escape *)
    pose proof (rest_head _ e _ Hrest1) as He1.
    pose proof (rest_advanced _ e _ Hrest1) as Hrest2.
    apply andb_true_iff in He; destruct He as [Hnl Hoct].
    apply negb_true_iff in Hnl.
    wp_known; rewrite Hnl; wp_known.
    destruct (Ascii.eqb e "x") eqn:Hx.
    + (* a hexadecimal escape *)
      apply wp_bind.
      eapply wp_mono;
        [ apply (twice_escape_digit_body False is_hex_digit s0 _ [] _ l' tail);
          [ intros d Hd; apply hex_digit_value, Hd
          | exact Hfr | exact Hrest2 | exact Hl' ] |].
      cbv beta; intros r s2 (ds & l2 & -> & Hl2 & Hds & -> & Hr2 & Hfr2 & Hp2).
      cbv beta iota; cbn [app]; destruct ds as [|d ds]; cbn [nonempty].
      * wp_known.
        exists ["\"%char; e], l2; eexists.
        body_done.
      * apply wp_bind, wp_int_base_digits; [discriminate| |].
        { eapply Forall_impl; [|exact Hds].
          intros a Ha; apply hex_digit_value, Ha. }
        intros n; wp_known.
        exists ("\"%char :: e :: d :: ds), l2; eexists.
        body_done.
    + destruct (escape_lookup e ESCAPE_CHARS) as [v|] eqn:Hesc.
      * (* an escape of the table *)
        wp_known.
        exists ["\"%char; e], l'; eexists.
        body_done.
      * destruct (isdigit e) eqn:Hd.
        -- (* an octal escape *)
           apply wp_bind.
           eapply wp_mono;
             [ apply (twice_escape_digit_body False is_oct_digit s0 _ [e] _
                        l' tail);
               [ intros d Hd'; apply oct_digit_value, Hd'
               | exact Hfr | exact Hrest2 | exact Hl' ] |].
           cbv beta;
             intros r s2 (ds & l2 & -> & Hl2 & Hds & -> & Hr2 & Hfr2 & Hp2).
           cbv beta iota.
           apply wp_bind, wp_int_base_digits; [discriminate| |].
           { constructor.
             - apply oct_escape_value; [|exact Hd].
               apply andb_true_iff; split;
                 [apply negb_true_iff, Hnl | rewrite Hd; exact Hoct].
             - eapply Forall_impl; [|exact Hds].
               intros a Ha; apply oct_digit_value, Ha. }
           intros n; wp_known.
           exists ("\"%char :: e :: ds), l2; eexists.
           body_done.
        -- (* an escape that is recorded as illegal *)
           wp_known.
           exists ["\"%char; e], l'; eexists.
           body_done.
Qed.
Lemma literal_body_head (c : ascii) (l : str) :
  literal_body (c :: l) -> not_dquote_nl c = true.
Proof.
  intros H; destruct (literal_body_cons c l H) as [[Hp _]|[-> _]];
    [|reflexivity].
  apply andb_true_iff in Hp; tauto.
Qed.

(** [_scan_string] reads a closed literal to its closing quote and returns a
    STRING token whose lexeme is the literal as it is written. *)
Lemma closed_literal_scanned (s : Lexer) (body tail : str) :
  rest s = DQUOTE :: body ++ DQUOTE :: tail ->
  literal_body body ->
  exists t s',
    _scan_string s = Ok (Some t) s' /\
    t = mkToken 54 (DQUOTE :: body ++ [DQUOTE])
          (attr t) (line s) (col s) /\
    rest s' = tail /\
    tokens s' = tokens s /\
    const_table s' = add_to (value t) (const_table s).
Proof.
  intros Hrest Hbody.
  pose proof (rest_head s _ _ Hrest) as Hq.
  pose proof (rest_advanced s _ _ Hrest) as Hrest1.
  assert (wp False _scan_string
            (fun r s' =>
               exists t,
                 r = Some t /\
                 t = mkToken 54 (DQUOTE :: body ++ [DQUOTE])
                       (attr t) (line s) (col s) /\
                 rest s' = tail /\ tokens s' = tokens s /\
                 const_table s' = add_to (value t) (const_table s)) s) as Hwp.
  { unfold _scan_string; wp_known.
    eapply wp_mono;
      [ apply wp_while with
          (I := fun (st : str * list N) s1 =>
                  exists done todo,
                    body = done ++ todo /\ literal_body todo /\
                    rest s1 = todo ++ DQUOTE :: tail /\
                    fst st = DQUOTE :: done /\ string_frame s s1)
          (Q := fun (r : str * list N + unit) s2 =>
                  match r with
                  | inl (val, _) =>
                      val = DQUOTE :: body /\ rest s2 = DQUOTE :: tail /\
                      string_frame s s2
                  | inr _ => False
                  end)
      | ].
    - exists [], body; repeat split; assumption.
    - intros [val content] s1 (done & todo & -> & Htodo & Hr1 & Hval & Hfr).
      cbn [fst] in Hval; subst val.
      apply wp_char_is; split; [lia|].
      destruct todo as [|c l].
      + rewrite (rest_head s1 _ _ Hr1); cbn.
        rewrite app_nil_r; repeat split; try assumption; apply Hfr.
      + pose proof (rest_head s1 _ _ Hr1) as Hc.
        rewrite Hc; cbn [opt_test]; rewrite (literal_body_head c l Htodo).
        eapply wp_mono; [apply string_body_total; eassumption|].
        cbv beta;
          intros r s2 (ds & l' & content' & Hsplit & Hl' & -> & Hr2 & Hfr2 & Hp).
        split.
        * exists (done ++ ds), l'; cbn [fst].
          rewrite <- app_assoc, <- Hsplit; repeat split; try assumption;
            apply Hfr2.
        * apply remaining_lt;
            [ destruct Hfr as [-> _]; apply Hfr2 | exact Hp
            | apply (nth_error_lt _ _ _ Hc) ].
    - cbv beta; intros [[val content]|[]] s2; [|tauto].
      intros (-> & Hr2 & Hfr2).
      pose proof (rest_head s2 _ _ Hr2) as Hq2.
      pose proof (rest_advanced s2 _ _ Hr2) as Hr3.
      wp_known.
      apply wp_const_token; [simpl; tauto|].
      intros idx c Hidx Hcode _; vm_compute in Hcode; injection Hcode as <-.
      eexists; split; [reflexivity|]; cbn [value attr].
      destruct Hfr2 as (_ & Htok & _ & Hconst).
      repeat split; try assumption.
      cbn [const_table with_const_table advanced]; rewrite Hconst.
      reflexivity. }
  destruct (wp_False_Ok _ _ _ Hwp) as (r & s' & Hrun & t & -> & Hrest').
  exists t, s'; split; [exact Hrun | exact Hrest'].
Qed.

(** C8.  Every string literal whose body is closed by a quote on its line
    (plain characters and escapes, the well-formed literals among them) makes
    [_scan_string] emit a STRING token whose lexeme is the literal as it is
    written in the source, the quotes and the escape sequences included and
    not decoded; the cursor is then after the closing quote, and the constant
    table holds this same raw text at the index that the token carries. *)
Theorem string_lexeme_is_raw_text (s : Lexer) (body tail : str) :
  rest s = DQUOTE :: body ++ DQUOTE :: tail ->
  literal_body body ->
  exists t s',
    _scan_string s = Ok (Some t) s' /\
    code t = 54 /\
    value t = DQUOTE :: body ++ [DQUOTE] /\
    value t = between s s' /\
    rest s' = tail /\
    const_table s' = add_to (value t) (const_table s) /\
    exists idx,
      attr t = CONST idx /\ nth_error (const_table s') idx = Some (value t).
Proof.
  intros Hrest Hbody.
  destruct (closed_literal_scanned s body tail Hrest Hbody)
    as (t & s' & Hrun & Ht & Htail & _ & Hconst).
  destruct (emitted_string_is_raw_text s t s' (rest_head s _ _ Hrest) Hrun)
    as (Hcode & Hbetween & _ & Hidx).
  assert (value t = DQUOTE :: body ++ [DQUOTE]) as Hvalue
    by (rewrite Ht; reflexivity).
  exists t, s'.
  split; [exact Hrun|].
  split; [exact Hcode|].
  split; [exact Hvalue|].
  split; [exact Hbetween|].
  split; [exact Htail|].
  split; [exact Hconst | exact Hidx].
Qed.

Lemma string_lexeme_is_raw_text_witness :
  rest example_string = DQUOTE :: py "a\nb" ++ DQUOTE :: [] /\
  literal_body (py "a\nb") /\
  exists t s',
    _scan_string example_string = Ok (Some t) s' /\
    code t = 54 /\
    value t = DQUOTE :: py "a\nb" ++ [DQUOTE] /\
    value t = between example_string s' /\
    rest s' = [] /\
    const_table s' = add_to (value t) (const_table example_string) /\
    exists idx,
      attr t = CONST idx /\ nth_error (const_table s') idx = Some (value t).
Proof.
  assert (literal_body (py "a\nb")) as Hbody.
  { apply body_plain; [reflexivity|].
    apply body_escape; [reflexivity|].
    apply body_plain; [reflexivity|].
    apply body_nil. }
  split; [reflexivity|]; split; [exact Hbody|].
  apply (string_lexeme_is_raw_text example_string (py "a\nb") []);
    [reflexivity | exact Hbody].
Defined.

(** ** Scanning a known text: the cursor after a run of characters *)

Lemma consumed_app (a b : str) (s : Lexer) :
  consumed (a ++ b) s = consumed b (consumed a s).
Proof. unfold consumed; apply fold_left_app. Qed.

Lemma consumed_frame (v : str) (s : Lexer) :
  src (consumed v s) = src s /\
  pos (consumed v s) = pos s + List.length v /\
  tokens (consumed v s) = tokens s /\
  errors (consumed v s) = errors s /\
  sym_table (consumed v s) = sym_table s /\
  const_table (consumed v s) = const_table s.
Proof.
  revert s; induction v as [|c v IH]; intros s; cbn [consumed fold_left].
  - cbn [List.length]; rewrite Nat.add_0_r; repeat split.
  - destruct (IH (advanced c s)) as (H1 & H2 & H3 & H4 & H5 & H6).
    unfold consumed in *; rewrite H1, H2, H3, H4, H5, H6.
    cbn [List.length advanced src pos tokens errors sym_table const_table].
    repeat split; lia.
Qed.

Lemma rest_consumed (v tail : str) (s : Lexer) :
  rest s = v ++ tail -> rest (consumed v s) = tail.
Proof.
  revert s; induction v as [|c v IH]; intros s H; cbn [consumed fold_left].
  - exact H.
  - apply IH, (rest_advanced s c); exact H.
Qed.

Lemma current_char (s : Lexer) : nth_error (src s) (pos s) = current s.
Proof.
  unfold current; destruct (first_chars s) as (H & _); rewrite H.
  unfold rest; destruct (skipn (pos s) (src s)); reflexivity.
Qed.

Lemma remaining_rest (s : Lexer) : remaining s = List.length (rest s).
Proof. unfold remaining, rest; rewrite length_skipn; reflexivity. Qed.

Lemma take_while_app (p : ascii -> bool) (v tail : str) :
  Forall (fun c => p c = true) v -> opt_test p (hd_error tail) = false ->
  take_while p (v ++ tail) = v.
Proof.
  intros Hv Ht; induction Hv as [|c v Hc Hv IH]; cbn [app take_while].
  - destruct tail as [|c tail]; [reflexivity|].
    cbn [hd_error opt_test] in Ht; cbn [take_while]; rewrite Ht; reflexivity.
  - rewrite Hc, IH; reflexivity.
Qed.

Lemma take_while_split (p : ascii -> bool) (l : str) :
  exists tail,
    l = take_while p l ++ tail /\
    Forall (fun c => p c = true) (take_while p l) /\
    opt_test p (hd_error tail) = false.
Proof.
  induction l as [|c l (tail & H1 & H2 & H3)]; cbn [take_while].
  - exists []; repeat split; constructor.
  - destruct (p c) eqn:Hc.
    + exists tail; cbn [app]; rewrite <- H1; repeat split; auto.
    + exists (c :: l); repeat split; [constructor | exact Hc].
Qed.

(** A run loop on a known text: it takes the run and stops in front of the
    first character that fails the test. *)
Lemma wp_take_run_text E (p : ascii -> bool) (acc v tail : str) Q s :
  rest s = v ++ tail ->
  Forall (fun c => p c = true) v -> opt_test p (hd_error tail) = false ->
  Q (acc ++ v) (consumed v s) ->
  wp E (take_run p acc) Q s.
Proof.
  intros Hrest Hv Htail HQ; unfold take_run.
  apply wp_bind.
  apply wp_while with
    (I := fun a s1 =>
            exists d t, v = d ++ t /\ a = acc ++ d /\ s1 = consumed d s /\
                        rest s1 = t ++ tail).
  { exists [], v; rewrite app_nil_r; repeat split; assumption. }
  intros a s1 (d & t & -> & -> & -> & Hr).
  apply wp_char_is; split; [lia|].
  rewrite current_char; unfold current; rewrite Hr.
  apply Forall_app in Hv; destruct Hv as [Hd Ht].
  destruct t as [|c t]; cbn [app hd_error].
  - rewrite Htail; apply wp_ret.
    rewrite app_nil_r in HQ; exact HQ.
  - inversion Ht as [|? ? Hc Ht']; subst; cbn [opt_test]; rewrite Hc.
    change ((c :: t) ++ tail) with (c :: (t ++ tail)) in Hr.
    unfold append_advance.
    apply wp_bind, wp_bind.
    apply wp_advance_known with (ch := c).
    { rewrite current_char; unfold current; rewrite Hr; reflexivity. }
    apply wp_bind, wp_nonnull, wp_ret, wp_ret.
    split.
    + exists (d ++ [c]), t; rewrite <- !app_assoc; cbn [app].
      repeat split.
      * rewrite consumed_app; reflexivity.
      * apply (rest_advanced _ c); exact Hr.
    + rewrite !remaining_rest, (rest_advanced _ c _ Hr), Hr.
      cbn [List.length]; lia.
Qed.

Lemma wp_take_run E (p : ascii -> bool) (acc : str) Q s :
  Q (acc ++ take_while p (rest s)) (consumed (take_while p (rest s)) s) ->
  wp E (take_run p acc) Q s.
Proof.
  destruct (take_while_split p (rest s)) as (tail & H1 & H2 & H3).
  apply wp_take_run_text with (tail := tail); assumption.
Qed.

Lemma wp_skip_run_text E (p : ascii -> bool) (v tail : str) Q s :
  rest s = v ++ tail ->
  Forall (fun c => p c = true) v -> opt_test p (hd_error tail) = false ->
  Q tt (consumed v s) ->
  wp E (skip_run p) Q s.
Proof.
  intros Hrest Hv Htail HQ; unfold skip_run.
  apply wp_bind.
  apply wp_mono with (Q := fun _ s1 => s1 = consumed v s);
    [|intros _ s1 ->; apply wp_ret; exact HQ].
  apply wp_while with
    (I := fun (_ : unit) s1 =>
            exists d t, v = d ++ t /\ s1 = consumed d s /\
                        rest s1 = t ++ tail).
  { exists [], v; repeat split; assumption. }
  intros a s1 (d & t & -> & -> & Hr).
  apply wp_char_is; split; [lia|].
  rewrite current_char; unfold current; rewrite Hr.
  apply Forall_app in Hv; destruct Hv as [Hd Ht].
  destruct t as [|c t]; cbn [app hd_error].
  - rewrite Htail, app_nil_r; reflexivity.
  - inversion Ht as [|? ? Hc Ht']; subst; cbn [opt_test]; rewrite Hc.
    change ((c :: t) ++ tail) with (c :: (t ++ tail)) in Hr.
    apply wp_bind.
    apply wp_advance_known with (ch := c).
    { rewrite current_char; unfold current; rewrite Hr; reflexivity. }
    apply wp_ret.
    split.
    + exists (d ++ [c]), t; rewrite <- !app_assoc; cbn [app].
      repeat split.
      * rewrite consumed_app; reflexivity.
      * apply (rest_advanced _ c); exact Hr.
    + rewrite !remaining_rest, (rest_advanced _ c _ Hr), Hr.
      cbn [List.length]; lia.
Qed.

Lemma wp_Ok {A} (m : M A) (a : A) (s s' : Lexer) :
  wp False m (fun r x => r = a /\ x = s') s -> m s = Ok a s'.
Proof.
  intros H; destruct (wp_False_Ok _ _ _ H) as (r & x & Hm & -> & ->).
  exact Hm.
Qed.

(** ** Whitespace *)

Lemma skip_ws_cond (s : Lexer) :
  (x <- _char ;; c <- as_str x ;; ret (char_in c WHITESPACE)) s
  = match current s with
    | Some c => Ok (is_space c) s
    | None => Raise TypeError
    end.
Proof.
  unfold bind, _char; rewrite current_char.
  destruct (current s); reflexivity.
Qed.

Lemma advance_continue (s : Lexer) (c : ascii) (r : str) :
  rest s = c :: r ->
  (_advance ;; ret (Continue (A := unit) (R := unit) tt)) s
  = Ok (Continue tt) (advanced c s).
Proof.
  intros H; unfold bind, _advance; rewrite current_char; unfold current.
  rewrite H; reflexivity.
Qed.

Lemma skip_ws_fuel (ws tail : str) :
  Forall (fun c => is_space c = true) ws ->
  opt_test is_space (hd_error tail) = false ->
  forall (s : Lexer) (fuel : nat),
    rest s = ws ++ tail -> List.length ws < fuel ->
    while_fuel (R := unit) fuel
      (fun _ => x <- _char ;; c <- as_str x ;; ret (char_in c WHITESPACE))
      (fun _ => _advance ;; ret (Continue tt)) tt s
    = match tail with
      | [] => Raise TypeError
      | _ :: _ => Ok (inl tt) (consumed ws s)
      end.
Proof.
  intros Hws Htail; induction Hws as [|c ws Hc Hws IH]; intros s fuel Hrest Hf;
    (destruct fuel as [|fuel]; [cbn [List.length] in Hf; lia|]);
    cbn [while_fuel]; rewrite skip_ws_cond; unfold current; rewrite Hrest;
    cbn [app hd_error].
  - destruct tail as [|c tail]; cbn [hd_error opt_test] in *; [reflexivity|].
    rewrite Htail; reflexivity.
  - rewrite Hc.
    change ((c :: ws) ++ tail) with (c :: (ws ++ tail)) in Hrest.
    rewrite (advance_continue s c _ Hrest).
    rewrite (IH (advanced c s) fuel).
    + reflexivity.
    + apply (rest_advanced s c); exact Hrest.
    + cbn [List.length] in Hf; lia.
Qed.

Lemma skip_ws_eq (ws tail : str) (s : Lexer) :
  rest s = ws ++ tail ->
  Forall (fun c => is_space c = true) ws ->
  opt_test is_space (hd_error tail) = false ->
  _skip_ws s = match tail with
               | [] => Raise TypeError
               | _ :: _ => Ok tt (consumed ws s)
               end.
Proof.
  intros Hrest Hws Htail; unfold _skip_ws, while_, bind at 1.
  rewrite (skip_ws_fuel ws tail Hws Htail s (S (remaining s)) Hrest).
  - destruct tail; reflexivity.
  - rewrite remaining_rest, Hrest, length_app; lia.
Qed.

(** X.  [_skip_ws] consumes the whitespace in front of the next character
    and nothing else; when only whitespace is left (or nothing at all) it
    reads past the end and raises [TypeError], and so does [tokenize] when
    a round of its loop starts there. *)
Theorem skip_ws_stops_or_raises :
  (forall (s : Lexer) (ws : str) (c : ascii) (tail : str),
     rest s = ws ++ c :: tail ->
     Forall (fun c => is_space c = true) ws -> is_space c = false ->
     _skip_ws s = Ok tt (consumed ws s) /\
     rest (consumed ws s) = c :: tail /\
     tokens (consumed ws s) = tokens s /\ errors (consumed ws s) = errors s) /\
  (forall s : Lexer,
     Forall (fun c => is_space c = true) (rest s) ->
     _skip_ws s = Raise TypeError) /\
  (forall s : Lexer,
     rest s <> [] -> Forall (fun c => is_space c = true) (rest s) ->
     tokenize s = Raise TypeError).
Proof.
  split; [|split].
  - intros s ws c tail Hrest Hws Hc.
    rewrite (skip_ws_eq ws (c :: tail) s Hrest Hws Hc).
    destruct (consumed_frame ws s) as (_ & _ & Ht & He & _).
    rewrite (rest_consumed ws (c :: tail) s Hrest); auto.
  - intros s Hws.
    rewrite (skip_ws_eq (rest s) [] s); auto using app_nil_r.
    symmetry; apply app_nil_r.
  - intros s Hne Hws.
    assert (_skip_ws s = Raise TypeError) as Hskip.
    { rewrite (skip_ws_eq (rest s) [] s); auto using app_nil_r.
      symmetry; apply app_nil_r. }
    unfold tokenize, tokenize_loop, while_, bind at 1, bind at 1.
    cbn [while_fuel]; unfold bind at 1, bind at 1, get, ret.
    assert ((pos s <? List.length (src s)) = true) as ->.
    { apply Nat.ltb_lt.
      pose proof (remaining_rest s) as Hr; unfold remaining in Hr.
      destruct (rest s); [congruence | cbn [List.length] in Hr; lia]. }
    unfold tokenize_body, bind at 1; rewrite Hskip; reflexivity.
Qed.

Lemma skip_ws_stops_or_raises_witness :
  _skip_ws example_indented
  = Ok tt (consumed (py "  ") example_indented) /\
  _skip_ws example_blank = Raise TypeError /\
  tokenize example_blank = Raise TypeError.
Proof.
  assert (Forall (fun c => is_space c = true) (rest example_blank)) as Hb
    by (repeat constructor).
  split; [|split].
  - apply (proj1 skip_ws_stops_or_raises example_indented (py "  ") "x"%char []);
      [reflexivity | repeat constructor | reflexivity].
  - apply (proj1 (proj2 skip_ws_stops_or_raises) example_blank); exact Hb.
  - apply (proj2 (proj2 skip_ws_stops_or_raises) example_blank);
      [discriminate | exact Hb].
Defined.

(** ** Running a method on a known text *)

Lemma wp_char_rest E Q s : Q (hd_error (rest s)) s -> wp E _char Q s.
Proof. unfold wp, _char; rewrite current_char; exact (fun H => H). Qed.

Lemma wp_peek_rest E k Q s : Q (nth_error (rest s) k) s -> wp E (_peek k) Q s.
Proof. unfold wp, _peek; rewrite rest_chars; exact (fun H => H). Qed.

Lemma wp_char_is_rest E p Q s :
  Q (opt_test p (hd_error (rest s))) s -> wp E (char_is p) Q s.
Proof. intros H; apply wp_char_is; rewrite current_char; exact H. Qed.

Lemma wp_advance_rest E c r Q s :
  rest s = c :: r -> Q (Some c) (advanced c s) -> wp E _advance Q s.
Proof.
  intros H HQ; apply wp_advance_known with (ch := c); [|exact HQ].
  rewrite current_char; unfold current; rewrite H; reflexivity.
Qed.

Lemma wp_advance_end E Q s : rest s = [] -> Q None s -> wp E _advance Q s.
Proof.
  intros H HQ; unfold wp, _advance; rewrite current_char; unfold current.
  rewrite H; exact HQ.
Qed.

Lemma nth_error_1 {A} (c : A) (l : list A) : nth_error (c :: l) 1 = hd_error l.
Proof. destruct l; reflexivity. Qed.

Lemma nth_error_2 {A} (c d : A) (l : list A) :
  nth_error (c :: d :: l) 2 = hd_error l.
Proof. destruct l; reflexivity. Qed.

(** Errors, tokens and table entries do not move the cursor. *)
Ltac norm_rest :=
  repeat match goal with
         | |- context [rest (push_error ?e ?x)] =>
             change (rest (push_error e x)) with (rest x)
         | |- context [rest (push_token ?t ?x)] =>
             change (rest (push_token t x)) with (rest x)
         | |- context [rest (with_const_table ?t ?x)] =>
             change (rest (with_const_table t x)) with (rest x)
         | |- context [rest (with_sym_table ?t ?x)] =>
             change (rest (with_sym_table t x)) with (rest x)
         end.

Ltac rewrite_rest :=
  norm_rest;
  try match goal with
      | H : rest ?s = _ |- context [rest ?s] => rewrite H
      end.

Ltac advance_rest :=
  match goal with
  | H : rest _ = ?c :: ?r |- wp ?E _advance ?Q ?s =>
      apply (wp_advance_rest E c r Q s H);
      pose proof (rest_advanced s c r H)
  end.

(** A condition is computed when it is closed, and rewritten when a
    hypothesis gives its value. *)
Ltac decide_if :=
  lazymatch goal with
  | |- wp _ (if ?b then _ else _) _ _ =>
      first
        [ eval_if
        | match goal with
          | H : b = true |- _ => rewrite H
          | H : b = false |- _ => rewrite H
          end ]
  end.

Ltac rwp_step :=
  lazymatch goal with
  | |- wp _ (bind _ _) _ _ => apply wp_bind
  | |- wp _ (ret _) _ _ => apply wp_ret
  | |- wp _ (get _) _ _ => apply wp_get
  | |- wp _ _char _ _ => apply wp_char_rest; rewrite_rest; cbn [hd_error app]
  | |- wp _ (_peek _) _ _ =>
      apply wp_peek_rest; rewrite_rest; cbn [app];
      rewrite ?nth_error_1, ?nth_error_2; cbn [hd_error]
  | |- wp _ (char_is _) _ _ =>
      apply wp_char_is_rest; rewrite_rest; cbn [hd_error app opt_test]
  | |- wp _ _advance _ _ => advance_rest
  | |- wp _ (as_str _) _ _ => unfold as_str
  | |- wp _ (nonnull _ (Some _)) _ _ => apply wp_nonnull; cbv beta iota
  | |- wp _ (errors_append _) _ _ => apply wp_errors_append
  | |- wp _ (tokens_append _) _ _ => apply wp_tokens_append
  | |- wp _ (append_if_token (Some _)) _ _ => apply wp_tokens_append
  | |- wp _ (append_if_token None) _ _ => apply wp_ret
  | |- wp _ (append_advance _) _ _ => unfold append_advance
  | |- wp _ (if _ then _ else _) _ _ => decide_if
  | |- wp _ (match Some _ with Some _ => _ | None => _ end) _ _ => cbv iota
  | |- wp _ (match @None _ with Some _ => _ | None => _ end) _ _ => cbv iota
  | |- wp _ (match inl _ with inl _ => _ | inr _ => _ end) _ _ => cbv iota
  | |- wp _ (match inr _ with inl _ => _ | inr _ => _ end) _ _ => cbv iota
  | |- wp _ (match (_, _) with (_, _) => _ end) _ _ => cbv iota
  | |- wp _ (CODE_get _) _ _ => eapply wp_CODE_get; [vm_compute; reflexivity|]
  end; cbv beta.

Ltac rwp := repeat rwp_step.

(** ** Comments *)

Lemma has_close_cons (x : ascii) (t : str) :
  has_close (x :: t) = false ->
  Ascii.eqb x "*" && opt_is (hd_error t) "/" = false /\ has_close t = false.
Proof.
  cbn [has_close]; intros H; apply orb_false_iff in H; destruct H as [H1 H2].
  split; [|exact H2].
  destruct t; exact H1.
Qed.

(** X.  A line comment is skipped up to the end of its line, the newline
    not included; nothing is recorded. *)
Theorem line_comment_skipped (s : Lexer) (body tail : str) :
  rest s = "/"%char :: "/"%char :: body ++ tail ->
  one_line body ->
  tail = [] \/ hd_error tail = Some NL ->
  _skip_comment s = Ok true (consumed ("/"%char :: "/"%char :: body) s) /\
  rest (consumed ("/"%char :: "/"%char :: body) s) = tail /\
  errors (consumed ("/"%char :: "/"%char :: body) s) = errors s /\
  tokens (consumed ("/"%char :: "/"%char :: body) s) = tokens s.
Proof.
  intros Hrest Hbody Htail.
  destruct (consumed_frame ("/"%char :: "/"%char :: body) s)
    as (_ & _ & Ht & He & _).
  split; [|split; [|split; assumption]].
  2: { apply rest_consumed; exact Hrest. }
  apply wp_Ok; unfold _skip_comment; rwp.
  apply wp_skip_run_text
    with (v := "/"%char :: "/"%char :: body) (tail := tail).
  - exact Hrest.
  - repeat constructor; exact Hbody.
  - destruct Htail as [-> | ->]; reflexivity.
  - rwp; split; reflexivity.
Qed.

Lemma line_comment_skipped_witness :
  _skip_comment example_line_comment
  = Ok true (consumed (py "// a") example_line_comment) /\
  rest (consumed (py "// a") example_line_comment) = NL :: py "b" /\
  errors (consumed (py "// a") example_line_comment) = [] /\
  tokens (consumed (py "// a") example_line_comment) = [].
Proof.
  apply (line_comment_skipped example_line_comment (py " a") (NL :: py "b"));
    [reflexivity | repeat constructor | right; reflexivity].
Defined.

(** X.  A block comment that is closed is skipped up to its first [*/],
    this included, across lines; nothing is recorded. *)
Theorem block_comment_skipped (s : Lexer) (body tail : str) :
  rest s = "/"%char :: "*"%char :: body ++ "*"%char :: "/"%char :: tail ->
  has_close body = false ->
  exists s',
    _skip_comment s = Ok true s' /\
    s' = consumed ("/"%char :: "*"%char :: body ++ ["*"%char; "/"%char]) s /\
    rest s' = tail /\ errors s' = errors s /\ tokens s' = tokens s.
Proof.
  intros Hrest Hbody.
  eexists; split; [|split; [reflexivity|]].
  2: { destruct (consumed_frame
                   ("/"%char :: "*"%char :: body ++ ["*"%char; "/"%char]) s)
         as (_ & _ & Ht & He & _).
       split; [|split; assumption].
       apply rest_consumed; rewrite Hrest; cbn [app].
       rewrite <- app_assoc; reflexivity. }
  apply wp_Ok; unfold _skip_comment; rwp.
  apply wp_mono with
    (Q := fun (r : unit + bool) s2 =>
            r = inr true /\
            s2 = consumed
                   ("/"%char :: "*"%char :: body ++ ["*"%char; "/"%char]) s).
  2: { intros r s2 (-> & ->); rwp; split; reflexivity. }
  apply wp_while with
    (I := fun (_ : unit) s1 =>
            exists d t,
              body = d ++ t /\
              s1 = consumed ("/"%char :: "*"%char :: d) s /\
              rest s1 = t ++ "*"%char :: "/"%char :: tail /\
              has_close t = false).
  { exists [], body; repeat split; assumption. }
  intros [] s1 (d & t & -> & -> & Hr & Hc).
  apply wp_char_is_rest; split; [lia|].
  rewrite Hr.
  destruct t as [|x t]; cbn [app hd_error opt_test].
  - cbn [app] in Hr; rwp.
    split; [reflexivity|].
    rewrite app_nil_r, app_comm_cons, app_comm_cons, consumed_app.
    reflexivity.
  - apply has_close_cons in Hc; destruct Hc as [Hx Ht].
    change ((x :: t) ++ "*"%char :: "/"%char :: tail)
      with (x :: (t ++ "*"%char :: "/"%char :: tail)) in Hr.
    apply wp_bind, wp_char_rest; rewrite Hr; cbn [hd_error].
    apply wp_bind, wp_peek_rest; rewrite Hr.
    assert (opt_is (Some x) "*"
            && opt_is (nth_error (x :: t ++ "*"%char :: "/"%char :: tail) 1)
                 "/"
            = false) as ->.
    { destruct t as [|y t]; cbn [app nth_error hd_error opt_is] in *.
      - apply andb_false_r.
      - exact Hx. }
    rwp; split.
    + exists (d ++ [x]), t; rewrite <- app_assoc; repeat split.
      * rewrite 2 app_comm_cons, consumed_app; reflexivity.
      * apply (rest_advanced _ x); exact Hr.
      * exact Ht.
    + rewrite !remaining_rest, (rest_advanced _ x _ Hr), Hr.
      cbn [List.length]; lia.
Qed.

Lemma block_comment_skipped_witness :
  exists s',
    _skip_comment example_block_comment = Ok true s' /\
    s' = consumed (py "/* a" ++ [NL] ++ py "*/") example_block_comment /\
    rest s' = py "b" /\ errors s' = [] /\ tokens s' = [].
Proof.
  apply (block_comment_skipped example_block_comment (py " a" ++ [NL])
           (py "b")); reflexivity.
Defined.

(** X.  [_skip_comment] never raises; it answers [True] exactly at [//] or
    [/*] and has then consumed a character at least, without a token or a
    table entry; when it answers [False] the scanner is as it was. *)
Theorem skip_comment_answer (s : Lexer) :
  exists s',
    _skip_comment s = Ok (comment_start s) s' /\
    (comment_start s = false -> s' = s) /\
    (comment_start s = true ->
     src s' = src s /\ pos s < pos s' /\ tokens s' = tokens s /\
     sym_table s' = sym_table s /\ const_table s' = const_table s).
Proof.
  pose (P := fun x : Lexer =>
               tokens x = tokens s /\ sym_table x = sym_table s /\
               const_table x = const_table s).
  assert (adv_closed P) as HP by (intros x ch H _; exact H).
  assert (err_closed (line s) (col s) P) as HE by (intros x e H _ _; exact H).
  pose proof (_skip_comment_spec P (line s) (col s) HP HE False s
                (conj eq_refl (conj eq_refl eq_refl)) eq_refl eq_refl) as Hwp.
  destruct (wp_False_Ok _ _ _ Hwp) as (r & s' & Hrun & Hr).
  exists s'.
  destruct r.
  - destruct Hr as ((Ht & Hs & Hc) & Hsrc & Hpos).
    assert (comment_start s = true) as Hstart.
    { destruct (comment_start s) eqn:Hcs; [reflexivity|].
      exfalso; revert Hrun Hpos.
      unfold _skip_comment, comment_start in *.
      unfold bind, _char, _peek, ret.
      destruct (opt_is (nth_error (src s) (pos s)) "/"); cbn [negb andb] in *.
      - apply orb_false_iff in Hcs; destruct Hcs as [-> ->].
        intros [= <-]; lia.
      - intros [= <-]; lia. }
    rewrite Hstart; split; [exact Hrun|].
    split; [discriminate|].
    intros _; repeat split; (assumption || lia).
  - destruct Hr as [-> Hcs]; rewrite Hcs.
    split; [exact Hrun|]; split; [reflexivity | discriminate].
Qed.

(** ** The tables: what an insertion returns and keeps *)

Lemma add_to_idem (v : str) (t : list str) : add_to v (add_to v t) = add_to v t.
Proof.
  unfold add_to; destruct (str_in v t) eqn:H; [rewrite H; reflexivity|].
  assert (str_in v (t ++ [v]) = true) as ->; [|reflexivity].
  apply str_in_In, in_or_app; right; left; reflexivity.
Qed.

Lemma add_to_prefix (v : str) (t : list str) (i : nat) (x : str) :
  nth_error t i = Some x -> nth_error (add_to v t) i = Some x.
Proof.
  intros H; unfold add_to; destruct (str_in v t); [exact H|].
  rewrite nth_error_app1; [exact H|].
  apply nth_error_Some; congruence.
Qed.

Lemma add_to_index_Some (v : str) (t : list str) :
  exists idx, index_of v (add_to v t) = Some idx.
Proof. apply index_of_In, add_to_elem; right; reflexivity. Qed.

Lemma _add_sym_eq (name : str) (s : Lexer) (idx : nat) :
  index_of name (add_to name (sym_table s)) = Some idx ->
  _add_sym name s = Ok idx (with_sym_table (add_to name (sym_table s)) s).
Proof.
  intros H; apply wp_Ok, wp_add_sym; intros i Hi.
  split; [congruence | reflexivity].
Qed.

Lemma _add_const_eq (val : str) (s : Lexer) (idx : nat) :
  index_of val (add_to val (const_table s)) = Some idx ->
  _add_const val s = Ok idx (with_const_table (add_to val (const_table s)) s).
Proof.
  intros H; apply wp_Ok, wp_add_const; intros i Hi.
  split; [congruence | reflexivity].
Qed.

(** X.  [_add_sym] and [_add_const] never raise.  They return the index of
    the first entry that equals the name, in a table that is the old one with
    the name appended when it was absent: the entries keep their indices, a
    table without duplicates stays so, and adding the name once more returns
    the same index and changes nothing. *)
Theorem table_lookup_or_insert (name : str) (s : Lexer) :
  (exists idx,
     let t := add_to name (sym_table s) in
     _add_sym name s = Ok idx (with_sym_table t s) /\
     nth_error t idx = Some name /\
     (forall j, j < idx -> nth_error t j <> Some name) /\
     (forall i x, nth_error (sym_table s) i = Some x -> nth_error t i = Some x) /\
     (NoDup (sym_table s) -> NoDup t) /\
     _add_sym name (with_sym_table t s) = Ok idx (with_sym_table t s)) /\
  (exists idx,
     let t := add_to name (const_table s) in
     _add_const name s = Ok idx (with_const_table t s) /\
     nth_error t idx = Some name /\
     (forall j, j < idx -> nth_error t j <> Some name) /\
     (forall i x,
        nth_error (const_table s) i = Some x -> nth_error t i = Some x) /\
     (NoDup (const_table s) -> NoDup t) /\
     _add_const name (with_const_table t s) = Ok idx (with_const_table t s)).
Proof.
  split.
  - destruct (add_to_index_Some name (sym_table s)) as [idx Hidx].
    exists idx; cbv zeta.
    destruct (index_of_Some_nth _ _ _ Hidx) as [Hnth Hfirst].
    split; [apply _add_sym_eq, Hidx|].
    split; [exact Hnth|]; split; [exact Hfirst|].
    split; [intros i x; apply add_to_prefix|].
    split; [apply add_to_NoDup|].
    rewrite (_add_sym_eq name _ idx); cbn [sym_table with_sym_table];
      rewrite add_to_idem; [reflexivity | exact Hidx].
  - destruct (add_to_index_Some name (const_table s)) as [idx Hidx].
    exists idx; cbv zeta.
    destruct (index_of_Some_nth _ _ _ Hidx) as [Hnth Hfirst].
    split; [apply _add_const_eq, Hidx|].
    split; [exact Hnth|]; split; [exact Hfirst|].
    split; [intros i x; apply add_to_prefix|].
    split; [apply add_to_NoDup|].
    rewrite (_add_const_eq name _ idx); cbn [const_table with_const_table];
      rewrite add_to_idem; [reflexivity | exact Hidx].
Qed.

(** ** Identifiers and keywords *)

Lemma keyword_code_range (v : str) :
  str_in v KEYWORDS = true ->
  exists c, assoc str_eqb v CODE = Some c /\ 1 <= c <= 21.
Proof.
  intros H; apply str_in_In in H; unfold KEYWORDS in H; simpl in H.
  repeat (destruct H as [<-|H];
          [eexists; split; [vm_compute; reflexivity | lia]|]).
  destruct H.
Qed.

(** X.  [_scan_id] never raises and consumes exactly the run of letters,
    digits and underscores at the cursor.  When the run in lower case is a
    keyword, the token has the keyword's code (1 to 21) and no attribute, its
    value is the run as it is written, and the identifier table is not
    touched; otherwise the token is an ID (code 50) whose attribute is the
    index of the run in the identifier table, where it was looked up or
    inserted. *)
Theorem scan_id_keyword_or_identifier (s : Lexer) :
  if str_in (lower_str (ident_run s)) KEYWORDS then
    exists c,
      assoc str_eqb (lower_str (ident_run s)) CODE = Some c /\ 1 <= c <= 21 /\
      _scan_id s
      = Ok (mkToken c (ident_run s) NoAttr (line s) (col s))
          (consumed (ident_run s) s)
  else
    exists idx,
      index_of (ident_run s) (add_to (ident_run s) (sym_table s)) = Some idx /\
      _scan_id s
      = Ok (mkToken 50 (ident_run s) (SYM idx) (line s) (col s))
          (with_sym_table (add_to (ident_run s) (sym_table s))
             (consumed (ident_run s) s)).
Proof.
  destruct (consumed_frame (ident_run s) s) as (_ & _ & _ & _ & Hsym & _).
  destruct (str_in (lower_str (ident_run s)) KEYWORDS) eqn:Hkw.
  - destruct (keyword_code_range _ Hkw) as (c & Hc & Hrange).
    exists c; split; [exact Hc|]; split; [exact Hrange|].
    apply wp_Ok; unfold _scan_id.
    apply wp_bind, wp_get, wp_bind, wp_get, wp_bind, wp_take_run.
    cbn [app]; fold (ident_run s); rewrite Hkw.
    apply wp_bind; eapply wp_CODE_get; [exact Hc|].
    apply wp_ret; split; reflexivity.
  - destruct (add_to_index_Some (ident_run s) (sym_table s)) as [idx Hidx].
    exists idx; split; [exact Hidx|].
    apply wp_Ok; unfold _scan_id.
    apply wp_bind, wp_get, wp_bind, wp_get, wp_bind, wp_take_run.
    cbn [app]; fold (ident_run s); rewrite Hkw.
    apply wp_bind, wp_add_sym; rewrite Hsym; intros i Hi.
    apply wp_bind; eapply wp_CODE_get; [vm_compute; reflexivity|].
    apply wp_ret; split; [|reflexivity].
    congruence.
Qed.

(** X.  [_scan_illegal_id] never raises and never returns a token: it
    consumes the run of letters, digits and underscores at the cursor (which
    may be empty) and records one ILLEGAL_ID error for it, at the line and
    column where it started. *)
Theorem scan_illegal_id_records_run (s : Lexer) :
  _scan_illegal_id s
  = Ok None
      (push_error
         (mkLexError ILLEGAL_ID (line s) (col s) (ident_run s)
            "标识符不能以数字开头")
         (consumed (ident_run s) s)).
Proof.
  apply wp_Ok; unfold _scan_illegal_id.
  apply wp_bind, wp_get, wp_bind, wp_get, wp_bind, wp_take_run.
  cbn [app]; fold (ident_run s).
  apply wp_bind, wp_errors_append, wp_ret; split; reflexivity.
Qed.

(** ** Decimal literals *)

Lemma wp_const_token_code E kind c val sl sc Q s :
  assoc str_eqb (py kind) CODE = Some c ->
  (forall idx,
     index_of val (add_to val (const_table s)) = Some idx ->
     Q (Some (mkToken c val (CONST idx) sl sc))
       (with_const_table (add_to val (const_table s)) s)) ->
  wp E (const_token kind val sl sc) Q s.
Proof.
  intros Hc HQ; unfold const_token.
  apply wp_bind, wp_add_const; intros idx Hidx.
  apply wp_bind, (wp_CODE_get E _ c); [assumption|].
  apply wp_ret, HQ; assumption.
Qed.

Lemma number_end_head (tail : str) :
  number_end tail ->
  opt_test isdigit (hd_error tail) = false /\
  opt_test isalpha (hd_error tail) = false /\
  opt_is (hd_error tail) "_" = false /\
  opt_is (hd_error tail) "." = false.
Proof.
  unfold number_end; destruct tail as [|c tail]; cbn [hd_error opt_test opt_is];
    [repeat split|].
  intros H.
  apply orb_false_iff in H; destruct H as [H H4].
  apply orb_false_iff in H; destruct H as [H H3].
  apply orb_false_iff in H; destruct H as [H1 H2].
  repeat split; assumption.
Qed.

Lemma digits_head (d tail : str) :
  digits d -> d <> [] -> opt_test isdigit (hd_error (d ++ tail)) = true.
Proof.
  intros Hd Hne; destruct d as [|c d]; [contradiction|].
  inversion Hd; assumption.
Qed.

Lemma isdigit_class (c : ascii) :
  isdigit c = true ->
  isalpha c = false /\ Ascii.eqb c "." = false /\ Ascii.eqb c "_" = false /\
  Ascii.eqb c "+" = false /\ Ascii.eqb c "-" = false /\
  Ascii.eqb (lower c) "e" = false.
Proof.
  destruct c as [[] [] [] [] [] [] [] []]; vm_compute; intros H;
    try discriminate H; repeat split.
Qed.

Lemma lower_e (c : ascii) :
  Ascii.eqb (lower c) "e" = true -> c = "e"%char \/ c = "E"%char.
Proof.
  destruct c as [[] [] [] [] [] [] [] []]; vm_compute; intros H;
    try discriminate H; auto.
Qed.

Lemma alpha_not_e (x : option ascii) :
  opt_test isalpha x = false ->
  opt_test (fun c => Ascii.eqb (lower c) "e") x = false.
Proof.
  destruct x as [c|]; cbn [opt_test]; [|reflexivity].
  intros H; destruct (Ascii.eqb (lower c) "e") eqn:He; [|reflexivity].
  apply lower_e in He; destruct He as [-> | ->]; discriminate H.
Qed.

Lemma literal_stop_head (ex tail : str) :
  literal_stop ex tail ->
  opt_test isdigit (hd_error tail) = false /\
  opt_is (hd_error tail) "." = false.
Proof.
  intros [H _]; destruct tail as [|c tail]; cbn [hd_error opt_test opt_is] in *;
    [split; reflexivity|].
  apply orb_false_iff in H; exact H.
Qed.

Lemma number_end_stop (ex tail : str) :
  number_end tail -> literal_stop ex tail /\ starts_name tail = false.
Proof.
  intros H; destruct (number_end_head tail H) as (H1 & H2 & H3 & H4).
  unfold literal_stop, starts_name.
  destruct tail as [|c tail]; cbn [hd_error opt_test opt_is] in *;
    [repeat split|].
  rewrite H1, H2, H3, H4; repeat split.
  intros _; apply (alpha_not_e (Some c)); exact H2.
Qed.

(** The first character after the integer part, the fraction or the exponent
    of a literal. *)
Lemma exponent_head (ex tail : str) :
  exponent ex -> literal_stop ex tail ->
  opt_test isdigit (hd_error (ex ++ tail)) = false /\
  opt_is (hd_error (ex ++ tail)) "." = false.
Proof.
  intros [-> | (e & sg & ed & -> & He & _)] Ht.
  - cbn [app]; apply (literal_stop_head []); exact Ht.
  - destruct He as [-> | ->]; split; reflexivity.
Qed.

Lemma fraction_head (frac ex tail : str) :
  fraction frac -> exponent ex -> literal_stop ex tail ->
  opt_test isdigit (hd_error (frac ++ ex ++ tail)) = false.
Proof.
  intros [-> | (fd & -> & _)] Hex Ht; [|reflexivity].
  exact (proj1 (exponent_head ex tail Hex Ht)).
Qed.

(** The fraction of a literal: the block of [_scan_decimal_part] that reads
    it leaves the text and the cursor after it. *)
Ltac scan_fraction Hfrac Hip Hxd Hxp :=
  let fd := fresh "fd" in
  let Hfd := fresh "Hfd" in
  destruct Hfrac as [-> | (fd & -> & Hfd)]; cbn [app] in *;
  [ rewrite Hxp; apply wp_ret; rewrite app_nil_r; repeat split; assumption
  | cbn [hd_error]; rwp;
    match goal with
    | |- context [opt_is (hd_error (fd ++ ?l)) "."] =>
        assert (opt_is (hd_error (fd ++ l)) "." = false) as ->;
        [ destruct fd as [|? ?]; cbn [app hd_error]; [exact Hxp|];
          match goal with
          | H : digits (?d :: _) |- _ =>
              inversion H as [|? ? Hdg _]; subst;
              apply isdigit_class in Hdg; cbn [opt_is]; tauto
          end
        | rwp;
          eapply wp_take_run_text with (v := fd) (tail := l);
          [ eassumption | exact Hfd | exact Hxd | ];
          match goal with
          | |- context [negb (nonempty ([] ++ fd)) && negb (nonempty ?ip)] =>
              assert (negb (nonempty ([] ++ fd)) && negb (nonempty ip) = false)
                as ->;
              [ destruct Hip as [Hip | (? & ? & [= ->])];
                [ destruct ip; [contradiction | apply andb_false_r]
                | reflexivity ]
              | ]
          end;
          apply wp_bind, wp_char_rest;
          match goal with
          | H : rest _ = fd ++ l |- _ =>
              rewrite (rest_consumed fd l _ H), Hxp;
              apply wp_ret; split; [|split];
              [ cbn [app nonempty]; rewrite <- app_assoc; reflexivity
              | reflexivity
              | apply (rest_consumed fd l _ H) ]
          end ]
    end ].

(** [_scan_decimal_part] on a fraction and an exponent that are well formed:
    a token, unless a name follows. *)
Lemma decimal_part_scanned (sl sc : nat) (s : Lexer) (ip frac ex tail : str) :
  rest s = frac ++ ex ++ tail ->
  fraction frac -> exponent ex ->
  (ip <> [] \/ exists c fd, frac = "."%char :: c :: fd) ->
  literal_stop ex tail ->
  wp False (_scan_decimal_part ip sl sc)
    (fun r x =>
       if starts_name tail then
         r = None /\
         x = push_error
               (mkLexError ILLEGAL_NUMBER sl sc
                  ((ip ++ frac ++ ex) ++ take_while is_ident_char tail)
                  "数字后不能直接跟字母")
               (consumed ((frac ++ ex) ++ take_while is_ident_char tail) s)
       else
         exists idx,
           index_of (ip ++ frac ++ ex)
             (add_to (ip ++ frac ++ ex) (const_table s)) = Some idx /\
           r = Some (mkToken (if nonempty frac || nonempty ex then 52 else 51)
                       (ip ++ frac ++ ex) (CONST idx) sl sc) /\
           x = with_const_table
                 (add_to (ip ++ frac ++ ex) (const_table s))
                 (consumed (frac ++ ex) s)) s.
Proof.
  intros Hrest Hfrac Hex Hip Htail.
  destruct (exponent_head ex tail Hex Htail) as [Hxd Hxp].
  destruct (literal_stop_head ex tail Htail) as (Htd & Htp).
  unfold _scan_decimal_part; cbv zeta.
  apply wp_bind, wp_char_rest; rewrite Hrest.
  wp_seq (fun (r : str * bool + option Token) x =>
            r = inl (ip ++ frac, nonempty frac) /\ x = consumed frac s /\
            rest x = ex ++ tail).
  { scan_fraction Hfrac Hip Hxd Hxp. }
  intros r x (-> & -> & Hr); cbv iota beta.
  apply wp_bind, wp_char_rest; rewrite Hr.
  wp_seq (fun (r : str * bool + option Token) x =>
            r = inl ((ip ++ frac) ++ ex, nonempty ex) /\
            x = consumed ex (consumed frac s) /\ rest x = tail).
  { destruct Hex as [-> | (e & sg & ed & -> & He & Hsg & Hne & Hed)];
      cbn [app] in *.
    - rewrite (proj2 Htail eq_refl); apply wp_ret.
      rewrite app_nil_r; repeat split; assumption.
    - assert (opt_test isdigit (hd_error (ed ++ tail)) = true) as Hhd
        by (apply digits_head; assumption).
      assert (nonempty ([] ++ ed) = true) as Hned
        by (destruct ed; [contradiction | reflexivity]).
      destruct He as [-> | ->];
        destruct Hsg as [-> | [-> | ->]]; cbn [app] in *; rwp.
      all: try (assert (opt_is (hd_error (ed ++ tail)) "+"
                        || opt_is (hd_error (ed ++ tail)) "-" = false) as ->
                  by (destruct ed as [|d ed]; [contradiction|];
                      inversion Hed as [|? ? Hdg _]; subst;
                      apply isdigit_class in Hdg; cbn [app hd_error opt_is];
                      apply orb_false_iff; tauto)).
      all: rwp.
      all: eapply wp_take_run_text with (v := ed) (tail := tail);
        [eassumption | exact Hed | exact Htd |].
      all: cbn [app]; rewrite Hned; cbn [negb]; apply wp_ret.
      all: split; [|split; [reflexivity|]].
      all: try (cbn [app nonempty]; rewrite <- ?app_assoc; reflexivity).
      all: eapply rest_consumed; eassumption. }
  intros r x (-> & -> & Hr'); cbv iota beta.
  apply wp_bind, wp_char_rest; rewrite Hr'; fold (starts_name tail).
  rewrite <- (app_assoc ip frac ex).
  destruct (starts_name tail) eqn:Hname.
  - apply wp_bind, wp_take_run; rewrite Hr'; cbn [app].
    apply wp_bind, wp_errors_append, wp_ret.
    split; [reflexivity|].
    rewrite !consumed_app; reflexivity.
  - assert (nonempty (ip ++ frac ++ ex) = true) as ->.
    { destruct Hip as [Hip | (c & fd' & ->)].
      - destruct ip; [contradiction | reflexivity].
      - destruct ip; reflexivity. }
    cbn [negb].
    destruct (add_to_index_Some (ip ++ frac ++ ex) (const_table s))
      as [idx Hidx].
    destruct (consumed_frame ex (consumed frac s))
      as (_ & _ & _ & _ & _ & Hc1).
    destruct (consumed_frame frac s) as (_ & _ & _ & _ & _ & Hc2).
    destruct (nonempty frac || nonempty ex);
      (eapply wp_const_token_code; [vm_compute; reflexivity|]);
      rewrite Hc1, Hc2; intros i Hi; exists idx;
      (split; [exact Hidx|]);
      (split; [congruence|]);
      rewrite consumed_app; reflexivity.
Qed.

Lemma decimal_scanned (sl sc : nat) (s : Lexer) (ip frac ex tail : str) :
  rest s = ip ++ frac ++ ex ++ tail ->
  digits ip -> fraction frac -> exponent ex ->
  (ip <> [] \/ exists c fd, frac = "."%char :: c :: fd) ->
  literal_stop ex tail ->
  wp False (_scan_decimal sl sc)
    (fun r x =>
       if starts_name tail then
         r = None /\
         x = push_error
               (mkLexError ILLEGAL_NUMBER sl sc
                  ((ip ++ frac ++ ex) ++ take_while is_ident_char tail)
                  "数字后不能直接跟字母")
               (consumed ((ip ++ frac ++ ex) ++ take_while is_ident_char tail)
                  s)
       else
         exists idx,
           index_of (ip ++ frac ++ ex)
             (add_to (ip ++ frac ++ ex) (const_table s)) = Some idx /\
           r = Some (mkToken (if nonempty frac || nonempty ex then 52 else 51)
                       (ip ++ frac ++ ex) (CONST idx) sl sc) /\
           x = with_const_table
                 (add_to (ip ++ frac ++ ex) (const_table s))
                 (consumed (ip ++ frac ++ ex) s)) s.
Proof.
  intros Hrest Hip Hfrac Hex Hdig Htail.
  unfold _scan_decimal.
  apply wp_bind.
  eapply wp_take_run_text with (v := ip) (tail := frac ++ ex ++ tail);
    [exact Hrest | exact Hip | apply fraction_head; assumption |].
  cbn [app].
  eapply wp_mono.
  - apply decimal_part_scanned with (frac := frac) (ex := ex) (tail := tail);
      try assumption.
    apply rest_consumed; exact Hrest.
  - cbv beta; intros r x.
    destruct (consumed_frame ip s) as (_ & _ & _ & _ & _ & Hc).
    destruct (starts_name tail).
    + intros [-> ->]; split; [reflexivity|].
      rewrite <- !app_assoc, (consumed_app ip); reflexivity.
    + intros (idx & Hidx & -> & ->).
      rewrite Hc in *; exists idx.
      split; [exact Hidx|]; split; [reflexivity|].
      rewrite (consumed_app ip); reflexivity.
Qed.

Lemma scan_num_decimal (s : Lexer) :
  opt_is (current s) "0" = false \/
  opt_is (nth_error (rest s) 1) "x" || opt_is (nth_error (rest s) 1) "X"
  || opt_test isdigit (nth_error (rest s) 1) = false ->
  _scan_num s = _scan_decimal (line s) (col s) s.
Proof.
  intros H; unfold _scan_num, bind at 1 2 3 4, get, _char, _peek.
  rewrite current_char, rest_chars; fold (rest s).
  destruct H as [-> | H]; [reflexivity|].
  apply orb_false_iff in H; destruct H as [H ->].
  rewrite H, !andb_false_r; reflexivity.
Qed.

Lemma scan_leading_dot_decimal (s : Lexer) (d : ascii) (l : str) :
  rest s = "."%char :: d :: l -> isdigit d = true ->
  _scan_leading_dot_number s = _scan_decimal (line s) (col s) s.
Proof.
  intros Hrest Hd.
  unfold _scan_leading_dot_number, _scan_decimal, take_run, while_.
  unfold bind at 1 2 3 4 5 6 7, get, _char, _peek.
  rewrite current_char, rest_chars; fold (rest s).
  unfold current; rewrite Hrest; cbn [hd_error nth_error opt_is opt_test].
  rewrite Hd; cbn [while_fuel andb Ascii.eqb Bool.eqb].
  unfold char_is at 1, bind at 1, _char, ret.
  rewrite current_char; unfold current; rewrite Hrest; reflexivity.
Qed.

(** X.  A well-formed decimal literal (digits, a fraction or none, an
    exponent or none, with a digit before or after the point, and nothing
    after it that could go on with a number) makes [_scan_decimal] return one
    token for exactly this text: a FLOAT (code 52) when there is a fraction
    or an exponent, an INT (code 51) otherwise.  Its attribute is the index
    of the text in the constant table, where it was looked up or inserted;
    no error is recorded and the cursor is after the literal.  [_scan_num]
    gives the same when the literal does not start with a zero and a second
    digit, and so does [_scan_leading_dot_number] when it starts with the
    point. *)
Theorem decimal_literal_accepted (sl sc : nat) (s : Lexer)
    (ip frac ex tail : str) :
  rest s = ip ++ frac ++ ex ++ tail ->
  digits ip -> fraction frac -> exponent ex ->
  (ip <> [] \/ exists c fd, frac = "."%char :: c :: fd) ->
  number_end tail ->
  let v := ip ++ frac ++ ex in
  exists idx s',
    _scan_decimal sl sc s
    = Ok (Some (mkToken (if nonempty frac || nonempty ex then 52 else 51)
                  v (CONST idx) sl sc)) s' /\
    nth_error (const_table s') idx = Some v /\
    const_table s' = add_to v (const_table s) /\
    rest s' = tail /\ errors s' = errors s /\ tokens s' = tokens s /\
    (sl = line s -> sc = col s -> (forall d ip', ip <> "0"%char :: d :: ip') ->
     _scan_num s = _scan_decimal sl sc s) /\
    (sl = line s -> sc = col s -> ip = [] ->
     _scan_leading_dot_number s = _scan_decimal sl sc s).
Proof.
  intros Hrest Hip Hfrac Hex Hdig Htail v.
  destruct (number_end_stop ex tail Htail) as [Hstop Hname].
  pose proof (decimal_scanned sl sc s ip frac ex tail
                Hrest Hip Hfrac Hex Hdig Hstop) as Hwp.
  rewrite Hname in Hwp; fold v in Hwp.
  destruct (wp_False_Ok _ _ _ Hwp) as (r & s' & Hrun & idx & Hidx & -> & ->).
  exists idx; eexists; split; [exact Hrun|].
  destruct (consumed_frame v s) as (_ & _ & Ht & He & _ & Hc).
  cbn [const_table errors tokens with_const_table].
  split; [apply index_of_Some_nth in Hidx; apply Hidx|].
  split; [reflexivity|].
  split; [|split; [assumption|split; [assumption|]]].
  { change (rest (with_const_table (add_to v (const_table s)) (consumed v s)))
      with (rest (consumed v s)).
    apply rest_consumed; unfold v; rewrite <- !app_assoc; exact Hrest. }
  destruct (number_end_head tail Htail) as (Htd & Hta & Htu & Htp).
  split.
  - intros -> -> Hzero; apply scan_num_decimal.
    destruct (opt_is (current s) "0") eqn:Hc0; [right | left; reflexivity].
    unfold current in Hc0; rewrite Hrest in *.
    destruct ip as [|z [|d ip]].
    + exfalso; cbn [app] in Hc0.
      destruct Hfrac as [-> | (fd & -> & _)]; [|discriminate Hc0].
      cbn [app] in Hc0.
      destruct Hex as [-> | (e & sg & ed & -> & [-> | ->] & _)];
        try discriminate Hc0.
      cbn [app] in Hc0; destruct tail as [|c tail]; [discriminate|].
      cbn [hd_error opt_is opt_test] in *.
      apply Ascii.eqb_eq in Hc0; subst c; discriminate Htd.
    + cbn [app nth_error].
      destruct Hfrac as [-> | (fd & -> & _)]; [|reflexivity].
      cbn [app].
      destruct Hex as [-> | (e & sg & ed & -> & [-> | ->] & _)];
        try reflexivity.
      cbn [app]; destruct tail as [|c tail]; [reflexivity|].
      cbn [hd_error opt_is opt_test] in *; rewrite Htd.
      destruct (Ascii.eqb_spec c "x"); [subst; discriminate Hta|].
      destruct (Ascii.eqb_spec c "X"); [subst; discriminate Hta|].
      reflexivity.
    + exfalso; cbn [app hd_error opt_is] in Hc0.
      apply Ascii.eqb_eq in Hc0; subst z; apply (Hzero d ip); reflexivity.
  - intros -> -> ->.
    destruct Hdig as [Hne | (c & fd & ->)]; [contradiction|].
    destruct Hfrac as [Hf | (fd' & [= <-] & Hfd)]; [discriminate|].
    inversion Hfd; subst.
    eapply scan_leading_dot_decimal; [exact Hrest | assumption].
Qed.

Lemma decimal_literal_accepted_witness :
  exists idx s',
    _scan_decimal 1 1 example_float
    = Ok (Some (mkToken 52 (py "12.5e-3") (CONST idx) 1 1)) s' /\
    nth_error (const_table s') idx = Some (py "12.5e-3") /\
    const_table s' = add_to (py "12.5e-3") [] /\
    rest s' = py ";" /\ errors s' = [] /\ tokens s' = [] /\
    (1 = line example_float -> 1 = col example_float ->
     (forall d ip', py "12" <> "0"%char :: d :: ip') ->
     _scan_num example_float = _scan_decimal 1 1 example_float) /\
    (1 = line example_float -> 1 = col example_float -> py "12" = [] ->
     _scan_leading_dot_number example_float
     = _scan_decimal 1 1 example_float).
Proof.
  apply (decimal_literal_accepted 1 1 example_float
           (py "12") (py ".5") (py "e-3") (py ";")).
  - reflexivity.
  - repeat constructor.
  - right; exists (py "5"); split; [reflexivity | repeat constructor].
  - right; exists "e"%char, ["-"%char], (py "3").
    split; [reflexivity|]; split; [left; reflexivity|].
    split; [right; right; reflexivity|].
    split; [discriminate | repeat constructor].
  - left; discriminate.
  - reflexivity.
Defined.
(** X.  A name that follows a number without a separator is not a token of
    its own: the number, however well formed, and the whole run of letters,
    digits and underscores after it are recorded as one ILLEGAL_NUMBER error
    at the start of the number, and no token is returned.  ([_scan_num]
    behaves so when the number does not start with a zero.) *)
Theorem number_then_name_rejected (sl sc : nat) (s : Lexer)
    (ip frac ex tail : str) :
  rest s = ip ++ frac ++ ex ++ tail ->
  digits ip -> fraction frac -> exponent ex ->
  (ip <> [] \/ exists c fd, frac = "."%char :: c :: fd) ->
  literal_stop ex tail ->
  starts_name tail = true ->
  let bad := (ip ++ frac ++ ex) ++ take_while is_ident_char tail in
  let s' := push_error
              (mkLexError ILLEGAL_NUMBER sl sc bad "数字后不能直接跟字母")
              (consumed bad s) in
  _scan_decimal sl sc s = Ok None s' /\
  errors s'
  = errors s ++ [mkLexError ILLEGAL_NUMBER sl sc bad "数字后不能直接跟字母"] /\
  pos s' = pos s + List.length bad /\
  tokens s' = tokens s /\ const_table s' = const_table s /\
  (sl = line s -> sc = col s -> opt_is (hd_error ip) "0" = false ->
   _scan_num s = _scan_decimal sl sc s).
Proof.
  intros Hrest Hip Hfrac Hex Hdig Hstop Hname bad s'.
  pose proof (decimal_scanned sl sc s ip frac ex tail
                Hrest Hip Hfrac Hex Hdig Hstop) as Hwp.
  rewrite Hname in Hwp.
  destruct (consumed_frame bad s) as (_ & Hp & Ht & He & _ & Hc).
  split; [apply wp_Ok; exact Hwp|].
  unfold s'; cbn [errors pos tokens const_table push_error].
  rewrite He; repeat split; try assumption.
  intros -> -> Hzero; apply scan_num_decimal; left.
  unfold current; rewrite Hrest.
  destruct ip as [|z ip]; [|exact Hzero].
  cbn [app].
  destruct Hfrac as [-> | (fd & -> & _)]; [|reflexivity].
  cbn [app].
  destruct Hex as [-> | (e & sg & ed & -> & [-> | ->] & _)]; try reflexivity.
  exfalso; destruct Hdig as [H | (c & fd & H)]; [apply H; reflexivity|].
  discriminate H.
Qed.

Lemma number_then_name_rejected_witness :
  _scan_decimal 1 1 example_bad_number
  = Ok None
      (push_error
         (mkLexError ILLEGAL_NUMBER 1 1 (py "12abc") "数字后不能直接跟字母")
         (consumed (py "12abc") example_bad_number)) /\
  _scan_num example_bad_number = _scan_decimal 1 1 example_bad_number.
Proof.
  destruct (number_then_name_rejected 1 1 example_bad_number
              (py "12") [] [] (py "abc;")) as (H1 & _ & _ & _ & _ & H2).
  - reflexivity.
  - repeat constructor.
  - left; reflexivity.
  - left; reflexivity.
  - left; discriminate.
  - split; [reflexivity | intros _; reflexivity].
  - reflexivity.
  - split; [exact H1 | apply H2; reflexivity].
Defined.

(** X.  Digits in front of two points are an integer in front of a range:
    [_scan_decimal] returns an INT token for the digits and leaves both
    points to the scanner of delimiters; nothing is recorded. *)
Theorem integer_before_two_points (sl sc : nat) (s : Lexer) (ip tail : str) :
  rest s = ip ++ "."%char :: "."%char :: tail ->
  digits ip -> ip <> [] ->
  exists idx,
    index_of ip (add_to ip (const_table s)) = Some idx /\
    _scan_decimal sl sc s
    = Ok (Some (mkToken 51 ip (CONST idx) sl sc))
        (with_const_table (add_to ip (const_table s)) (consumed ip s)) /\
    rest (consumed ip s) = "."%char :: "."%char :: tail /\
    errors (consumed ip s) = errors s.
Proof.
  intros Hrest Hip Hne.
  destruct (add_to_index_Some ip (const_table s)) as [idx Hidx].
  destruct (consumed_frame ip s) as (_ & _ & _ & He & _ & Hc).
  pose proof (rest_consumed ip _ s Hrest) as Hr.
  exists idx; split; [exact Hidx|]; split; [|split; assumption].
  apply wp_Ok; unfold _scan_decimal.
  apply wp_bind.
  eapply wp_take_run_text with (v := ip);
    [exact Hrest | exact Hip | reflexivity |].
  cbn [app]; unfold _scan_decimal_part; cbv zeta; rwp.
  assert (nonempty ip = true) as -> by (destruct ip; [contradiction | reflexivity]).
  apply wp_bind.
  eapply wp_const_token_code; [vm_compute; reflexivity|].
  rewrite Hc; intros i Hi; rwp.
  split; [congruence | reflexivity].
Qed.

Lemma integer_before_two_points_witness :
  exists idx,
    index_of (py "1") (add_to (py "1") (const_table example_range))
    = Some idx /\
    _scan_decimal 1 1 example_range
    = Ok (Some (mkToken 51 (py "1") (CONST idx) 1 1))
        (with_const_table (add_to (py "1") (const_table example_range))
           (consumed (py "1") example_range)) /\
    rest (consumed (py "1") example_range) = py "..5" /\
    errors (consumed (py "1") example_range) = errors example_range.
Proof.
  apply (integer_before_two_points 1 1 example_range (py "1") (py "5"));
    [reflexivity | repeat constructor | discriminate].
Defined.

Lemma exponent_without_digits (sl sc : nat) (s : Lexer) (ip frac : str)
    (e : ascii) (sg tail : str) :
  rest s = frac ++ e :: sg ++ tail ->
  fraction frac ->
  (ip <> [] \/ exists c fd, frac = "."%char :: c :: fd) ->
  e = "e"%char \/ e = "E"%char ->
  sg = [] \/ sg = ["+"%char] \/ sg = ["-"%char] ->
  opt_test isdigit (hd_error tail) = false ->
  (sg = [] ->
   opt_is (hd_error tail) "+" || opt_is (hd_error tail) "-" = false) ->
  wp False (_scan_decimal_part ip sl sc)
    (fun r x =>
       r = None /\
       x = push_error
             (mkLexError ILLEGAL_FLOAT sl sc (ip ++ frac ++ e :: sg)
                "指数部分缺少数字")
             (consumed (frac ++ e :: sg) s)) s.
Proof.
  intros Hrest Hfrac Hip He Hsg Htd Hsign.
  assert (opt_test isdigit (hd_error (e :: sg ++ tail)) = false) as Hxd
    by (destruct He as [-> | ->]; reflexivity).
  assert (opt_is (hd_error (e :: sg ++ tail)) "." = false) as Hxp
    by (destruct He as [-> | ->]; reflexivity).
  unfold _scan_decimal_part; cbv zeta.
  apply wp_bind, wp_char_rest; rewrite Hrest.
  wp_seq (fun (r : str * bool + option Token) x =>
            r = inl (ip ++ frac, nonempty frac) /\ x = consumed frac s /\
            rest x = e :: sg ++ tail).
  { scan_fraction Hfrac Hip Hxd Hxp. }
  intros r x (-> & -> & Hr); cbv iota beta.
  apply wp_bind, wp_char_rest; rewrite Hr.
  apply wp_bind.
  destruct He as [-> | ->];
    destruct Hsg as [-> | [-> | ->]]; cbn [app] in *; rwp.
  all: try (rewrite (Hsign eq_refl); rwp).
  all: eapply wp_take_run_text with (v := []) (tail := tail);
    [cbn [app]; eassumption | constructor | exact Htd |].
  all: cbn [app nonempty negb]; rwp.
  all: split; [reflexivity|].
  all: rewrite <- ?app_assoc, consumed_app; reflexivity.
Qed.

(** X.  Two malformed floats are reported without a token, at the start of
    the number.  A second point after the fraction takes the whole run of
    digits and points with it into one ILLEGAL_FLOAT error; an [e] or [E]
    (with a sign or none) that no digit follows is an ILLEGAL_FLOAT error
    for the text up to it. *)
Theorem malformed_float_rejected (sl sc : nat) (s : Lexer) :
  (forall ip fd l : str,
     rest s = ip ++ "."%char :: fd ++ "."%char :: l ->
     digits ip -> digits fd -> fd <> [] ->
     let bad :=
       (ip ++ "."%char :: fd)
       ++ take_while (fun c => isdigit c || Ascii.eqb c ".") ("."%char :: l) in
     _scan_decimal sl sc s
     = Ok None
         (push_error (mkLexError ILLEGAL_FLOAT sl sc bad "多个小数点")
            (consumed bad s))) /\
  (forall (ip frac : str) (e : ascii) (sg tail : str),
     rest s = ip ++ frac ++ e :: sg ++ tail ->
     digits ip -> fraction frac ->
     (ip <> [] \/ exists c fd, frac = "."%char :: c :: fd) ->
     e = "e"%char \/ e = "E"%char ->
     sg = [] \/ sg = ["+"%char] \/ sg = ["-"%char] ->
     opt_test isdigit (hd_error tail) = false ->
     (sg = [] ->
      opt_is (hd_error tail) "+" || opt_is (hd_error tail) "-" = false) ->
     let bad := ip ++ frac ++ e :: sg in
     _scan_decimal sl sc s
     = Ok None
         (push_error (mkLexError ILLEGAL_FLOAT sl sc bad "指数部分缺少数字")
            (consumed bad s))).
Proof.
  split.
  - intros ip fd l Hrest Hip Hfd Hne bad.
    apply wp_Ok; unfold _scan_decimal.
    apply wp_bind.
    eapply wp_take_run_text with (v := ip);
      [exact Hrest | exact Hip | reflexivity |].
    pose proof (rest_consumed ip _ s Hrest) as Hr.
    cbn [app]; unfold _scan_decimal_part; cbv zeta; rwp.
    assert (opt_is (hd_error (fd ++ "."%char :: l)) "." = false) as ->.
    { destruct fd as [|d fd]; [contradiction|].
      inversion Hfd as [|? ? Hdg _]; subst.
      apply isdigit_class in Hdg; cbn [app hd_error opt_is]; tauto. }
    rwp.
    eapply wp_take_run_text with (v := fd) (tail := "."%char :: l);
      [eassumption | exact Hfd | reflexivity |].
    assert (nonempty ([] ++ fd) = true) as ->
      by (destruct fd; [contradiction | reflexivity]).
    cbn [negb andb].
    apply wp_bind, wp_char_rest.
    match goal with
    | H : rest _ = fd ++ _ |- _ =>
        pose proof (rest_consumed fd _ _ H) as Hr2
    end.
    rewrite Hr2; cbn [hd_error]; rwp.
    apply wp_take_run; rewrite Hr2; rwp.
    split; [reflexivity|].
    unfold bad; cbn [app]; rewrite <- !app_assoc; cbn [app].
    rewrite (consumed_app ip); cbn [consumed fold_left].
    fold (consumed fd (advanced "." (consumed ip s))).
    rewrite <- consumed_app; reflexivity.
  - intros ip frac e sg tail Hrest Hip Hfrac Hdig He Hsg Htd Hsign bad.
    apply wp_Ok; unfold _scan_decimal.
    apply wp_bind.
    eapply wp_take_run_text with (v := ip) (tail := frac ++ e :: sg ++ tail);
      [exact Hrest | exact Hip | |].
    { destruct Hfrac as [-> | (fd & -> & _)]; [|reflexivity].
      destruct He as [-> | ->]; reflexivity. }
    cbn [app].
    eapply wp_mono.
    + apply (exponent_without_digits sl sc _ ip frac e sg tail);
        try assumption.
      apply rest_consumed; exact Hrest.
    + cbv beta; intros r x [-> ->]; split; [reflexivity|].
      unfold bad; rewrite (consumed_app ip); reflexivity.
Qed.

Lemma malformed_float_rejected_witness :
  _scan_decimal 1 1 example_two_points
  = Ok None
      (push_error (mkLexError ILLEGAL_FLOAT 1 1 (py "1.2.3") "多个小数点")
         (consumed (py "1.2.3") example_two_points)) /\
  _scan_decimal 1 1 example_no_exponent
  = Ok None
      (push_error (mkLexError ILLEGAL_FLOAT 1 1 (py "1e+") "指数部分缺少数字")
         (consumed (py "1e+") example_no_exponent)).
Proof.
  split.
  - apply (proj1 (malformed_float_rejected 1 1 example_two_points)
             (py "1") (py "2") (py "3;"));
      [reflexivity | repeat constructor | repeat constructor | discriminate].
  - apply (proj2 (malformed_float_rejected 1 1 example_no_exponent)
             (py "1") [] "e"%char ["+"%char] (py ";")).
    + reflexivity.
    + repeat constructor.
    + left; reflexivity.
    + left; discriminate.
    + left; reflexivity.
    + right; left; reflexivity.
    + reflexivity.
    + discriminate.
Defined.

(** ** Hexadecimal and octal literals *)

Ltac change_consumed_nil :=
  repeat match goal with
         | |- context [consumed [] ?x] => change (consumed [] x) with x
         end.

(** X.  [0x] or [0X] without a hexadecimal digit after it is an ILLEGAL_HEX
    error at the start of the number and no token: when a letter follows, the
    whole run of letters, digits and underscores is taken into the error;
    otherwise only the two characters are consumed. *)
Theorem hex_without_digits (s : Lexer) (x : ascii) (tail : str) :
  rest s = "0"%char :: x :: tail ->
  x = "x"%char \/ x = "X"%char ->
  opt_test is_hex_char (hd_error tail) = false ->
  _scan_num s
  = if opt_test isalpha (hd_error tail) then
      Ok None
        (push_error
           (mkLexError ILLEGAL_HEX (line s) (col s)
              ("0"%char :: x :: take_while is_ident_char tail) "包含非法字符")
           (consumed ("0"%char :: x :: take_while is_ident_char tail) s))
    else
      Ok None
        (push_error
           (mkLexError ILLEGAL_HEX (line s) (col s) ["0"%char; x]
              "缺少十六进制数字")
           (consumed ["0"%char; x] s)).
Proof.
  intros Hrest Hx Hhex.
  destruct (opt_test isalpha (hd_error tail)) eqn:Halpha.
  - apply wp_Ok; unfold _scan_num.
    destruct Hx as [-> | ->]; rwp; unfold _scan_hex; rwp.
    all: eapply wp_take_run_text with (v := []) (tail := tail);
      [eassumption | constructor | exact Hhex |].
    all: cbn [app nonempty negb]; change_consumed_nil; rwp.
    all: apply wp_take_run; rewrite_rest; cbn [app]; rwp.
    all: split; reflexivity.
  - apply wp_Ok; unfold _scan_num.
    destruct Hx as [-> | ->]; rwp; unfold _scan_hex; rwp.
    all: eapply wp_take_run_text with (v := []) (tail := tail);
      [eassumption | constructor | exact Hhex |].
    all: cbn [app nonempty negb]; change_consumed_nil; rwp.
    all: split; reflexivity.
Qed.

Lemma hex_without_digits_witness :
  _scan_num example_bad_hex
  = Ok None
      (push_error
         (mkLexError ILLEGAL_HEX 1 1 (py "0xg1") "包含非法字符")
         (consumed (py "0xg1") example_bad_hex)) /\
  _scan_num example_empty_hex
  = Ok None
      (push_error
         (mkLexError ILLEGAL_HEX 1 1 (py "0x") "缺少十六进制数字")
         (consumed (py "0x") example_empty_hex)).
Proof.
  split.
  - apply (hex_without_digits example_bad_hex "x"%char (py "g1;"));
      [reflexivity | left; reflexivity | reflexivity].
  - apply (hex_without_digits example_empty_hex "x"%char (py ";"));
      [reflexivity | left; reflexivity | reflexivity].
Defined.

Lemma existsb_snoc {A} (f : A -> bool) (l : list A) (x : A) :
  existsb f (l ++ [x]) = existsb f l || f x.
Proof. rewrite existsb_app; cbn [existsb]; rewrite orb_false_r; reflexivity. Qed.

(** The loop of [_scan_octal] over the digits after the zero. *)
Lemma octal_digits_scanned (sl sc : nat) (s : Lexer) (ds tail : str) Q :
  rest s = "0"%char :: ds ++ tail ->
  digits ds -> opt_test isdigit (hd_error tail) = false ->
  (if existsb is_89 ds then
     Q None
       (push_error
          (mkLexError ILLEGAL_OCT sl sc ("0"%char :: ds) "八进制数不能包含8或9")
          (consumed ("0"%char :: ds) s))
   else
     wp False
       (c <- _char ;;
        if opt_test isalpha c then
          val <- take_run is_ident_char ("0"%char :: ds) ;;
          errors_append (mkLexError ILLEGAL_NUMBER sl sc val "") ;;
          ret None
        else
          p <- _peek 1 ;;
          if opt_is c "." && opt_test isdigit p then
            _scan_decimal_part ("0"%char :: ds) sl sc
          else const_token "OCT" ("0"%char :: ds) sl sc)
       Q (consumed ("0"%char :: ds) s)) ->
  wp False (_scan_octal sl sc) Q s.
Proof.
  intros Hrest Hds Htail HQ; unfold _scan_octal; rwp.
  apply wp_mono with
    (Q := fun (r : str + option Token) x =>
            if existsb is_89 ds then
              r = inr None /\
              x = push_error
                    (mkLexError ILLEGAL_OCT sl sc ("0"%char :: ds)
                       "八进制数不能包含8或9")
                    (consumed ("0"%char :: ds) s)
            else r = inl ("0"%char :: ds) /\ x = consumed ("0"%char :: ds) s);
    cbv beta.
  - apply wp_while with
      (I := fun val s1 =>
              exists d t,
                ds = d ++ t /\ val = "0"%char :: d /\
                s1 = consumed ("0"%char :: d) s /\
                rest s1 = t ++ tail /\ existsb is_89 d = false).
    { exists [], ds; repeat split; assumption. }
    intros val s1 (d & t & -> & -> & -> & Hr & Hd).
    apply wp_char_is_rest; split; [lia|].
    rewrite Hr.
    apply Forall_app in Hds; destruct Hds as [_ Ht].
    destruct t as [|c t]; cbn [app hd_error opt_test].
    + rewrite Htail, app_nil_r, Hd; split; reflexivity.
    + inversion Ht as [|? ? Hc Ht']; subst; rewrite Hc.
      change ((c :: t) ++ tail) with (c :: (t ++ tail)) in Hr.
      apply wp_bind, wp_char_rest; rewrite Hr; cbn [hd_error]; rwp.
      fold (is_89 c); destruct (is_89 c) eqn:H89.
      * apply wp_bind.
        eapply wp_take_run_text with (v := c :: t) (tail := tail);
          [exact Hr | exact Ht | exact Htail |].
        rwp.
        rewrite existsb_app; cbn [existsb]; rewrite H89, orb_true_r.
        cbn [orb].
        split; [reflexivity|].
        change ("0"%char :: d ++ c :: t) with (("0"%char :: d) ++ c :: t).
        rewrite consumed_app; reflexivity.
      * rwp; split.
        -- exists (d ++ [c]), t; rewrite <- app_assoc; repeat split.
           ++ change ("0"%char :: d ++ [c]) with (("0"%char :: d) ++ [c]).
              rewrite consumed_app; reflexivity.
           ++ apply (rest_advanced _ c); exact Hr.
           ++ rewrite existsb_snoc, Hd, H89; reflexivity.
        -- rewrite !remaining_rest, (rest_advanced _ c _ Hr), Hr.
           cbn [List.length]; lia.
  - intros r x Hr.
    destruct (existsb is_89 ds); destruct Hr as [-> ->]; cbv iota beta.
    + apply wp_ret; exact HQ.
    + exact HQ.
Qed.

(** X.  A zero followed by digits is read as an octal literal.  When one of
    the digits is an 8 or a 9, the zero and the whole run of digits are an
    ILLEGAL_OCT error and nothing more is consumed, so that a name after the
    digits is scanned on its own; otherwise, when nothing follows that could
    go on with a number, the zero and the digits are one OCT token (code
    56). *)
Theorem octal_literal_scanned (s : Lexer) (ds tail : str) :
  rest s = "0"%char :: ds ++ tail ->
  digits ds -> ds <> [] -> opt_test isdigit (hd_error tail) = false ->
  let v := "0"%char :: ds in
  (existsb is_89 ds = true ->
   _scan_num s
   = Ok None
       (push_error
          (mkLexError ILLEGAL_OCT (line s) (col s) v "八进制数不能包含8或9")
          (consumed v s))) /\
  (existsb is_89 ds = false -> number_end tail ->
   exists idx,
     index_of v (add_to v (const_table s)) = Some idx /\
     _scan_num s
     = Ok (Some (mkToken 56 v (CONST idx) (line s) (col s)))
         (with_const_table (add_to v (const_table s)) (consumed v s))).
Proof.
  intros Hrest Hds Hne Htail v; subst v.
  assert (_scan_num s = _scan_octal (line s) (col s) s) as ->.
  { unfold _scan_num, bind at 1 2 3 4, get, _char, _peek.
    rewrite current_char, rest_chars; fold (rest s).
    unfold current; rewrite Hrest.
    destruct ds as [|d ds]; [contradiction|].
    inversion Hds as [|? ? Hd _]; subst.
    cbn [app hd_error nth_error opt_is opt_test]; rewrite Hd.
    destruct (isdigit_class d Hd) as (Ha & _).
    destruct (Ascii.eqb_spec d "x"); [subst; discriminate Ha|].
    destruct (Ascii.eqb_spec d "X"); [subst; discriminate Ha|].
    reflexivity. }
  split.
  - intros H89; apply wp_Ok.
    apply (octal_digits_scanned _ _ s ds tail); try assumption.
    rewrite H89; split; reflexivity.
  - intros H89 Hend.
    destruct (number_end_head tail Hend) as (_ & Ha & _ & Hp).
    destruct (add_to_index_Some ("0"%char :: ds) (const_table s))
      as [idx Hidx].
    destruct (consumed_frame ("0"%char :: ds) s) as (_ & _ & _ & _ & _ & Hc).
    exists idx; split; [exact Hidx|].
    apply wp_Ok.
    apply (octal_digits_scanned _ _ s ds tail); try assumption.
    rewrite H89.
    apply wp_bind, wp_char_rest.
    rewrite (rest_consumed ("0"%char :: ds) tail s Hrest), Ha.
    apply wp_bind, wp_peek_rest; rewrite Hp; cbn [andb].
    eapply wp_const_token_code; [vm_compute; reflexivity|].
    rewrite Hc; intros i Hi.
    split; [congruence | reflexivity].
Qed.

Lemma octal_literal_scanned_witness :
  _scan_num example_bad_octal
  = Ok None
      (push_error
         (mkLexError ILLEGAL_OCT 1 1 (py "089") "八进制数不能包含8或9")
         (consumed (py "089") example_bad_octal)) /\
  exists idx,
    index_of (py "017") (add_to (py "017") []) = Some idx /\
    _scan_num example_octal
    = Ok (Some (mkToken 56 (py "017") (CONST idx) 1 1))
        (with_const_table (add_to (py "017") [])
           (consumed (py "017") example_octal)).
Proof.
  split.
  - apply (proj1 (octal_literal_scanned example_bad_octal (py "89") (py "abc")
                    eq_refl ltac:(repeat constructor) ltac:(discriminate)
                    eq_refl)).
    reflexivity.
  - apply (proj2 (octal_literal_scanned example_octal (py "17") (py ";")
                    eq_refl ltac:(repeat constructor) ltac:(discriminate)
                    eq_refl)); reflexivity.
Defined.

(** ** Character literals *)

(** The loop of [_scan_char] over the characters after the first one. *)
Lemma extra_chars_scanned E (s0 : Lexer) (dv extra tail : str) Q :
  rest s0 = extra ++ tail ->
  Forall (fun c => not_quote_nl c = true) extra ->
  opt_test not_quote_nl (hd_error tail) = false ->
  Q (inl (extra, dv ++ extra)) (consumed extra s0) ->
  wp E
    (while_ (R := unit) (fun _ => char_is not_quote_nl)
       (fun st =>
          let '(extra_chars, display_val) := st in
          extra_chars <- append_advance extra_chars ;;
          c <- str_last extra_chars ;;
          ret (Continue (extra_chars, display_val ++ [c])))
       ([], dv)) Q s0.
Proof.
  intros Hrest Hextra Htail HQ.
  apply wp_while with
    (I := fun (st : str * str) s1 =>
            exists d t,
              extra = d ++ t /\ st = (d, dv ++ d) /\ s1 = consumed d s0 /\
              rest s1 = t ++ tail).
  { exists [], extra; rewrite app_nil_r; repeat split; assumption. }
  intros st s1 (d & t & -> & -> & -> & Hr).
  apply wp_char_is_rest; split; [lia|].
  rewrite Hr.
  apply Forall_app in Hextra; destruct Hextra as [_ Ht].
  destruct t as [|c t]; cbn [app hd_error opt_test].
  - rewrite Htail; rewrite app_nil_r in HQ; exact HQ.
  - inversion Ht as [|? ? Hc Ht']; subst; rewrite Hc.
    change ((c :: t) ++ tail) with (c :: (t ++ tail)) in Hr.
    rwp.
    apply wp_str_last_snoc, wp_ret; split.
    + exists (d ++ [c]), t; rewrite <- !app_assoc; repeat split.
      * rewrite consumed_app; reflexivity.
      * apply (rest_advanced _ c); exact Hr.
    + rewrite !remaining_rest, (rest_advanced _ c _ Hr), Hr.
      cbn [List.length]; lia.
Qed.

Lemma char_body_head (h tail : str) :
  char_body h ->
  exists c h', h = c :: h' /\ c <> NL /\ c <> "'"%char.
Proof.
  intros [(c & -> & Hc & _) | (e & -> & _)].
  - exists c, []; split; [reflexivity|].
    unfold not_quote_nl in Hc; apply andb_true_iff in Hc; destruct Hc as [H1 H2].
    split; intros ->; discriminate.
  - exists "\"%char, [e]; repeat split; discriminate.
Qed.

(** X.  A character literal of one character, written as itself or as a
    backslash and one of the escape letters of [ESCAPE_CHARS], makes
    [_scan_char] return a CHAR token (code 53) whose value is the literal as
    it is written, both quotes included and the escape not decoded; nothing
    is recorded and the cursor is after the closing quote. *)
Theorem char_literal_accepted (s : Lexer) (h tail : str) :
  rest s = "'"%char :: h ++ "'"%char :: tail ->
  char_body h ->
  let v := "'"%char :: h ++ ["'"%char] in
  exists idx,
    index_of v (add_to v (const_table s)) = Some idx /\
    _scan_char s
    = Ok (Some (mkToken 53 v (CONST idx) (line s) (col s)))
        (with_const_table (add_to v (const_table s)) (consumed v s)) /\
    rest (consumed v s) = tail /\ errors (consumed v s) = errors s.
Proof.
  intros Hrest Hbody v; subst v.
  destruct (add_to_index_Some ("'"%char :: h ++ ["'"%char]) (const_table s))
    as [idx Hidx].
  destruct (consumed_frame ("'"%char :: h ++ ["'"%char]) s)
    as (_ & _ & _ & He & _ & Hc).
  exists idx; split; [exact Hidx|]; split; [|split; [|exact He]].
  2: { apply rest_consumed; rewrite Hrest; cbn [app].
       rewrite <- app_assoc; reflexivity. }
  apply wp_Ok; unfold _scan_char.
  destruct Hbody as [(c & -> & Hc1 & Hc2) | (e & -> & He1)]; cbn [app] in *.
  - pose proof Hc1 as Hc3; unfold not_quote_nl in Hc3.
    apply andb_true_iff in Hc3; destruct Hc3 as [Hq Hn].
    apply negb_true_iff in Hq, Hn.
    assert (Ascii.eqb c "\" = false) as Hb
      by (destruct (Ascii.eqb_spec c "\"); [contradiction | reflexivity]).
    rwp; cbn [opt_is]; unfold NL in *; rewrite ?Hn, ?Hq, ?Hb; rwp.
    eapply extra_chars_scanned with (extra := []) (tail := "'"%char :: tail);
      [eassumption | constructor | reflexivity |].
    change_consumed_nil; cbn [app]; rwp.
    eapply wp_const_token_code; [vm_compute; reflexivity|].
    intros i Hi; split; [|reflexivity].
    cbn [const_table advanced app py list_ascii_of_string] in *; congruence.
  - rwp.
    assert (Ascii.eqb e "x" = false) as ->.
    { destruct (Ascii.eqb_spec e "x"); [subst; exfalso; apply He1|];
        reflexivity. }
    destruct (escape_lookup e ESCAPE_CHARS) as [n|]; [|contradiction].
    rwp.
    eapply extra_chars_scanned with (extra := []) (tail := "'"%char :: tail);
      [eassumption | constructor | reflexivity |].
    change_consumed_nil; cbn [app]; rwp.
    eapply wp_const_token_code; [vm_compute; reflexivity|].
    intros i Hi; split; [|reflexivity].
    cbn [const_table advanced app py list_ascii_of_string] in *; congruence.
Qed.

Lemma char_literal_accepted_witness :
  exists idx,
    index_of (py "'\n'") (add_to (py "'\n'") (const_table example_char))
    = Some idx /\
    _scan_char example_char
    = Ok (Some (mkToken 53 (py "'\n'") (CONST idx) 1 1))
        (with_const_table (add_to (py "'\n'") (const_table example_char))
           (consumed (py "'\n'") example_char)) /\
    rest (consumed (py "'\n'") example_char) = py ";" /\
    errors (consumed (py "'\n'") example_char) = errors example_char.
Proof.
  apply (char_literal_accepted example_char (py "\n") (py ";"));
    [reflexivity|].
  right; exists "n"%char; split; [reflexivity | discriminate].
Defined.
(** X.  The character literals that [_scan_char] rejects, each with one
    error at the opening quote and without a token: a quote at the end of
    the input or of the line (UNCLOSED_CHAR, one character consumed); two
    quotes with nothing between them (EMPTY_CHAR, both consumed); and, after
    a first character that stands for itself, more characters before the
    closing quote (MULTI_CHAR for the whole literal, the closing quote
    included) or no closing quote on the line (UNCLOSED_CHAR for the text up
    to the end of the line, which is not consumed). *)
Theorem char_literal_rejected (s : Lexer) :
  (forall tail : str,
     rest s = "'"%char :: tail ->
     tail = [] \/ hd_error tail = Some NL ->
     _scan_char s
     = Ok None
         (push_error (mkLexError UNCLOSED_CHAR (line s) (col s) (py "'") "")
            (consumed (py "'") s))) /\
  (forall tail : str,
     rest s = "'"%char :: "'"%char :: tail ->
     _scan_char s
     = Ok None
         (push_error (mkLexError EMPTY_CHAR (line s) (col s) (py "''") "")
            (consumed (py "''") s))) /\
  (forall (c : ascii) (extra tail : str),
     rest s = "'"%char :: c :: extra ++ "'"%char :: tail ->
     not_quote_nl c = true -> c <> "\"%char ->
     Forall (fun x => not_quote_nl x = true) extra -> extra <> [] ->
     let v := "'"%char :: c :: extra ++ ["'"%char] in
     _scan_char s
     = Ok None
         (push_error (mkLexError MULTI_CHAR (line s) (col s) v "")
            (consumed v s))) /\
  (forall (c : ascii) (extra tail : str),
     rest s = "'"%char :: c :: extra ++ tail ->
     not_quote_nl c = true -> c <> "\"%char ->
     Forall (fun x => not_quote_nl x = true) extra ->
     tail = [] \/ hd_error tail = Some NL ->
     let v := "'"%char :: c :: extra in
     _scan_char s
     = Ok None
         (push_error (mkLexError UNCLOSED_CHAR (line s) (col s) v "")
            (consumed v s))).
Proof.
  split; [|split; [|split]].
  - intros tail Hrest Htail; apply wp_Ok; unfold _scan_char; rwp.
    destruct Htail as [-> | Htail].
    + rwp; split; reflexivity.
    + destruct tail as [|n tail]; [discriminate|].
      injection Htail as ->; rwp; split; reflexivity.
  - intros tail Hrest; apply wp_Ok; unfold _scan_char; rwp.
    split; reflexivity.
  - intros c extra tail Hrest Hc1 Hc2 Hextra Hne v; subst v.
    apply wp_Ok; unfold _scan_char.
    pose proof Hc1 as Hc3; unfold not_quote_nl in Hc3.
    apply andb_true_iff in Hc3; destruct Hc3 as [Hq Hn].
    apply negb_true_iff in Hq, Hn.
    assert (Ascii.eqb c "\" = false) as Hb
      by (destruct (Ascii.eqb_spec c "\"); [contradiction | reflexivity]).
    rwp; cbn [opt_is]; unfold NL in *; rewrite ?Hn, ?Hq, ?Hb; rwp.
    eapply extra_chars_scanned
      with (extra := extra) (tail := "'"%char :: tail);
      [eassumption | exact Hextra | reflexivity |].
    match goal with
    | H : rest _ = extra ++ _ |- _ =>
        pose proof (rest_consumed extra _ _ H) as Hr
    end.
    rwp.
    assert (nonempty extra = true) as ->
      by (destruct extra; [contradiction | reflexivity]).
    rwp; split; [reflexivity|].
    assert (consumed ("'"%char :: c :: extra ++ ["'"%char]) s
            = advanced "'" (consumed extra (advanced c (advanced "'" s))))
      as ->.
    { change ("'"%char :: c :: extra ++ ["'"%char])
        with (["'"%char; c] ++ extra ++ ["'"%char]).
      rewrite (consumed_app ["'"%char; c]), consumed_app; reflexivity. }
    cbn [py list_ascii_of_string app]; reflexivity.
  - intros c extra tail Hrest Hc1 Hc2 Hextra Htail v; subst v.
    apply wp_Ok; unfold _scan_char.
    pose proof Hc1 as Hc3; unfold not_quote_nl in Hc3.
    apply andb_true_iff in Hc3; destruct Hc3 as [Hq Hn].
    apply negb_true_iff in Hq, Hn.
    assert (Ascii.eqb c "\" = false) as Hb
      by (destruct (Ascii.eqb_spec c "\"); [contradiction | reflexivity]).
    assert (opt_test not_quote_nl (hd_error tail) = false) as Hstop
      by (destruct Htail as [-> | Htail]; [|rewrite Htail]; reflexivity).
    assert (opt_is (hd_error tail) "'" = false) as Hopen
      by (destruct Htail as [-> | Htail]; [|rewrite Htail]; reflexivity).
    rwp; cbn [opt_is]; unfold NL in *; rewrite ?Hn, ?Hq, ?Hb; rwp.
    eapply extra_chars_scanned with (extra := extra) (tail := tail);
      [eassumption | exact Hextra | exact Hstop |].
    match goal with
    | H : rest _ = extra ++ _ |- _ =>
        pose proof (rest_consumed extra _ _ H) as Hr
    end.
    rwp; rewrite Hopen; cbn [negb]; rwp.
    split; [reflexivity|].
    assert (consumed ("'"%char :: c :: extra) s
            = consumed extra (advanced c (advanced "'" s))) as ->.
    { change ("'"%char :: c :: extra) with (["'"%char; c] ++ extra).
      rewrite consumed_app; reflexivity. }
    cbn [py list_ascii_of_string app]; reflexivity.
Qed.

Lemma char_literal_rejected_witness :
  _scan_char example_empty_char
  = Ok None
      (push_error (mkLexError EMPTY_CHAR 1 1 (py "''") "")
         (consumed (py "''") example_empty_char)) /\
  _scan_char example_multi_char
  = Ok None
      (push_error (mkLexError MULTI_CHAR 1 1 (py "'ab'") "")
         (consumed (py "'ab'") example_multi_char)) /\
  _scan_char example_open_char
  = Ok None
      (push_error (mkLexError UNCLOSED_CHAR 1 1 (py "'a") "")
         (consumed (py "'a") example_open_char)).
Proof.
  split; [|split].
  - apply (proj1 (proj2 (char_literal_rejected example_empty_char)) (py ";")).
    reflexivity.
  - apply (proj1 (proj2 (proj2 (char_literal_rejected example_multi_char)))
             "a"%char (py "b") (py ";"));
      [reflexivity | reflexivity | discriminate | repeat constructor
      | discriminate].
  - apply (proj2 (proj2 (proj2 (char_literal_rejected example_open_char)))
             "a"%char [] []);
      [reflexivity | reflexivity | discriminate | constructor
      | left; reflexivity].
Defined.

(** ** Characters that start no lexeme *)

Lemma double_starts_single (c : ascii) (l : str) :
  str_in (c :: l) DOUBLE_OPS = true -> str_in [c] SINGLE_OPS = true.
Proof.
  intros H; apply str_in_In in H; unfold DOUBLE_OPS in H; simpl in H.
  repeat (destruct H as [H|H]; [injection H as <- _; reflexivity|]).
  destruct H.
Qed.

(** X.  A character that starts no lexeme costs one ILLEGAL_CHAR error, at
    its line and column and with the character as its value, and exactly
    this character: [dispatch] goes on with the next one and appends no
    token.  Among the printable ASCII characters these are the dollar sign,
    the question mark, the at sign, the backslash and the backquote. *)
Theorem illegal_char_skipped :
  (forall (s : Lexer) (c : ascii) (tail : str),
     rest s = c :: tail -> starts_nothing c = true ->
     dispatch s
     = Ok (Continue tt)
         (advanced c
            (push_error (mkLexError ILLEGAL_CHAR (line s) (col s) [c] "") s))) /\
  filter starts_nothing
    (map (fun n => ascii_of_nat (33 + n)) (seq 0 94))
  = ["$"; "?"; "@"; "\"; "`"]%char.
Proof.
  split; [|vm_compute; reflexivity].
  intros s c tail Hrest Hc.
  unfold starts_nothing in Hc; apply negb_true_iff in Hc.
  apply orb_false_iff in Hc; destruct Hc as [Hc Hdelim].
  apply orb_false_iff in Hc; destruct Hc as [Hc Hsingle].
  apply orb_false_iff in Hc; destruct Hc as [Hc Hdquote].
  apply orb_false_iff in Hc; destruct Hc as [Hc Hquote].
  apply orb_false_iff in Hc; destruct Hc as [Hc Hdigit].
  apply orb_false_iff in Hc; destruct Hc as [Halpha Hunder].
  assert (forall l, str_in (c :: l) DOUBLE_OPS = false) as Hdouble.
  { intros l; destruct (str_in (c :: l) DOUBLE_OPS) eqn:Hd; [|reflexivity].
    apply double_starts_single in Hd; congruence. }
  assert (Ascii.eqb c "." = false) as Hpoint.
  { destruct (Ascii.eqb_spec c "."); [subst; discriminate Hdelim|].
    reflexivity. }
  apply wp_Ok; unfold dispatch.
  apply wp_bind, wp_char_rest; rewrite Hrest; cbn [hd_error].
  apply wp_bind, wp_nonnull, wp_bind, wp_get, wp_bind, wp_get.
  apply wp_bind, wp_peek_rest.
  rewrite Halpha, Hunder, Hdigit, Hpoint, Hquote, Hdquote, Hsingle, Hdelim.
  cbn [orb andb]; rewrite Hdouble.
  apply wp_bind, wp_errors_append, wp_bind.
  eapply wp_advance_rest; [exact Hrest|].
  apply wp_ret; split; reflexivity.
Qed.

Lemma illegal_char_skipped_witness :
  dispatch example_at
  = Ok (Continue tt)
      (advanced "@"
         (push_error (mkLexError ILLEGAL_CHAR 1 1 (py "@") "") example_at)).
Proof.
  apply (proj1 illegal_char_skipped example_at "@"%char (py "x"));
    reflexivity.
Defined.

(** ** The calculus with a condition on the exception *)

Lemma wpe_of_wp {A} E (m : M A) Q s : wp False m Q s -> wpe E m Q s.
Proof. unfold wp, wpe; destruct (m s); tauto. Qed.

Lemma wpe_ret {A} E (a : A) Q s : Q a s -> wpe E (ret a) Q s.
Proof. exact (fun H => H). Qed.

Lemma wpe_bind {A B} E (m : M A) (k : A -> M B) Q s :
  wpe E m (fun a s' => wpe E (k a) Q s') s -> wpe E (bind m k) Q s.
Proof. unfold wpe, bind; destruct (m s); auto. Qed.

Lemma wpe_mono {A} E (m : M A) (Q Q' : A -> Lexer -> Prop) s :
  wpe E m Q s -> (forall a s', Q a s' -> Q' a s') -> wpe E m Q' s.
Proof. unfold wpe; destruct (m s); auto. Qed.

Lemma wpe_nonnull (E : exn -> Prop) e x Q s :
  match x with Some c => Q c s | None => E e end -> wpe E (nonnull e x) Q s.
Proof. destruct x; exact (fun H => H). Qed.

Lemma wpe_int_base (E : exn -> Prop) base v Q s :
  E ValueError -> (forall n, Q n s) -> wpe E (int_base base v) Q s.
Proof.
  intros HE HQ; unfold int_base; destruct v; [exact HE|].
  destruct (int_digits base (a :: v) 0); [apply HQ | exact HE].
Qed.

(** [int] on the digits of a hexadecimal escape does not raise; on those of
    an octal escape it raises only when the first one is no octal digit. *)
Lemma wpe_int_base_hex (E : exn -> Prop) (v : str) Q s :
  nonempty v = true -> Forall (fun c => is_hex_digit c = true) v ->
  (forall n, Q n s) -> wpe E (int_base 16 v) Q s.
Proof.
  intros Hne Hv HQ; apply wpe_of_wp, wp_int_base_digits; [| |exact HQ].
  - destruct v; [discriminate Hne | discriminate].
  - eapply Forall_impl; [|exact Hv].
    intros c Hc; apply hex_digit_value in Hc; tauto.
Qed.

Lemma wpe_int_base_oct (E : exn -> Prop) (e : ascii) (ds : str) Q s :
  Forall (fun c => is_oct_digit c = true) ds ->
  (is_oct_digit e = false -> E ValueError) ->
  (forall n, Q n s) -> wpe E (int_base 8 (e :: ds)) Q s.
Proof.
  intros Hds He HQ.
  destruct (is_oct_digit e) eqn:Hoct.
  - apply wpe_of_wp, wp_int_base_digits; [discriminate | | exact HQ].
    constructor; [apply oct_digit_value in Hoct; tauto|].
    eapply Forall_impl; [|exact Hds].
    intros c Hc; apply oct_digit_value in Hc; tauto.
  - apply wpe_int_base; [apply He; reflexivity | exact HQ].
Qed.

Lemma wpe_while_fuel {A R} E (I : A -> Lexer -> Prop)
    (Q : A + R -> Lexer -> Prop) (cond : A -> M bool)
    (body : A -> M (ctl A R)) :
  (forall a s, I a s ->
     wpe E (cond a)
       (fun b s1 =>
          remaining s1 <= remaining s /\
          if b then
            wpe E (body a)
              (fun c s2 =>
                 match c with
                 | Continue a' => I a' s2 /\ remaining s2 < remaining s1
                 | Break a' => Q (inl a') s2
                 | Return r => Q (inr r) s2
                 end) s1
          else Q (inl a) s1) s) ->
  forall fuel a s, remaining s < fuel -> I a s ->
    wpe E (while_fuel fuel cond body a) Q s.
Proof.
  intros Hstep fuel; induction fuel as [|fuel IH]; intros a s Hf HI; [lia|].
  specialize (Hstep a s HI); unfold wpe in *; simpl.
  destruct (cond a s) as [b s1| |]; auto.
  destruct Hstep as [Hle Hstep].
  destruct b; auto.
  destruct (body a s1) as [[a'|a'|r] s2| |]; auto.
  destruct Hstep as [HI' Hlt]; apply IH; [lia | assumption].
Qed.

Lemma wpe_while {A R} E (I : A -> Lexer -> Prop) (Q : A + R -> Lexer -> Prop)
    (cond : A -> M bool) (body : A -> M (ctl A R)) a s :
  I a s ->
  (forall a s, I a s ->
     wpe E (cond a)
       (fun b s1 =>
          remaining s1 <= remaining s /\
          if b then
            wpe E (body a)
              (fun c s2 =>
                 match c with
                 | Continue a' => I a' s2 /\ remaining s2 < remaining s1
                 | Break a' => Q (inl a') s2
                 | Return r => Q (inr r) s2
                 end) s1
          else Q (inl a) s1) s) ->
  wpe E (while_ cond body a) Q s.
Proof.
  intros HI Hstep; unfold while_.
  apply (wpe_while_fuel E I Q cond body Hstep); [lia | assumption].
Qed.

(** The rules of the operations that do not raise. *)
Lemma wpe_get {A} E (f : Lexer -> A) Q s : Q (f s) s -> wpe E (get f) Q s.
Proof. exact (fun H => H). Qed.

Lemma wpe_char E Q s : Q (nth_error (src s) (pos s)) s -> wpe E _char Q s.
Proof. exact (fun H => H). Qed.

Lemma wpe_peek E k Q s :
  Q (nth_error (src s) (pos s + k)) s -> wpe E (_peek k) Q s.
Proof. exact (fun H => H). Qed.

Lemma wpe_char_is E p Q s :
  Q (opt_test p (nth_error (src s) (pos s))) s -> wpe E (char_is p) Q s.
Proof. exact (fun H => H). Qed.

Lemma wpe_advance E Q s :
  (forall ch, nth_error (src s) (pos s) = Some ch -> Q (Some ch) (advanced ch s)) ->
  (nth_error (src s) (pos s) = None -> Q None s) ->
  wpe E _advance Q s.
Proof. intros H1 H2; apply wpe_of_wp, wp_advance; assumption. Qed.

Lemma wpe_errors_append E e Q s :
  Q tt (push_error e s) -> wpe E (errors_append e) Q s.
Proof. exact (fun H => H). Qed.

Lemma wpe_tokens_append E t Q s :
  Q tt (push_token t s) -> wpe E (tokens_append t) Q s.
Proof. exact (fun H => H). Qed.

Lemma wpe_str_last_snoc E (d : str) (c : ascii) Q s :
  Q c s -> wpe E (str_last (d ++ [c])) Q s.
Proof. intros H; apply wpe_of_wp, wp_str_last_snoc, H. Qed.

Lemma wpe_CODE_get E key c Q s :
  assoc str_eqb key CODE = Some c -> Q c s -> wpe E (CODE_get key) Q s.
Proof. intros H HQ; apply wpe_of_wp, (wp_CODE_get False key c); assumption. Qed.

Lemma wpe_add_sym E val Q s :
  (forall idx,
     index_of val (add_to val (sym_table s)) = Some idx ->
     Q idx (with_sym_table (add_to val (sym_table s)) s)) ->
  wpe E (_add_sym val) Q s.
Proof. intros H; apply wpe_of_wp, wp_add_sym, H. Qed.

Lemma wpe_const_token E kind val sl sc Q s :
  In kind const_kinds ->
  (forall idx c,
     index_of val (add_to val (const_table s)) = Some idx ->
     assoc str_eqb (py kind) CODE = Some c -> 51 <= c <= 56 ->
     Q (Some (mkToken c val (CONST idx) sl sc))
       (with_const_table (add_to val (const_table s)) s)) ->
  wpe E (const_token kind val sl sc) Q s.
Proof. intros Hk H; apply wpe_of_wp, wp_const_token; assumption. Qed.

Lemma wpe_take_run E P p acc s :
  adv_closed P -> P s ->
  wpe E (take_run p acc)
    (fun r s' =>
       stepped P s 0 s' /\ r = acc ++ between s s' /\
       (opt_test p (nth_error (src s) (pos s)) = true -> pos s < pos s') /\
       opt_test p (nth_error (src s') (pos s')) = false) s.
Proof. intros HP Hs; apply wpe_of_wp, take_run_spec; assumption. Qed.

Lemma wpe_skip_run E P p s :
  adv_closed P -> P s ->
  wpe E (skip_run p)
    (fun _ s' =>
       stepped P s 0 s' /\
       (opt_test p (nth_error (src s) (pos s)) = true -> pos s < pos s')) s.
Proof. intros HP Hs; apply wpe_of_wp, skip_run_spec; assumption. Qed.

(** The digits that the rounds of an escape's digit loop collect pass the
    test of the loop. *)
Lemma escape_digit_digits E P p digits val s :
  adv_closed P -> P s ->
  wp E (escape_digit p (digits, val))
    (fun r s' =>
       stepped P s 0 s' /\ snd r = val ++ between s s' /\
       exists ds, fst r = digits ++ ds /\ Forall (fun c => p c = true) ds) s.
Proof.
  intros HP Hs; unfold escape_digit.
  apply wp_bind, wp_char_is.
  destruct (opt_test p (nth_error (src s) (pos s))) eqn:Hc.
  - unfold append_advance; wp_run; [|no_char].
    apply wp_str_last_snoc, wp_ret; split; [lex_solve|]; split.
    + cbn [snd].
      rewrite (between_advanced s s), between_refl
        by (assumption || lia || reflexivity).
      reflexivity.
    + exists [ch]; split; [reflexivity|].
      match goal with
      | H : nth_error _ _ = Some ch |- _ => rewrite H in Hc
      end.
      constructor; [exact Hc | constructor].
  - wp_run; split; [lex_solve|]; split.
    + cbn [snd]; rewrite between_refl, app_nil_r; reflexivity.
    + exists []; rewrite app_nil_r; split; [reflexivity | constructor].
Qed.

Lemma wpe_twice_escape_digit E P p digits val s :
  adv_closed P -> P s ->
  wpe E (twice (escape_digit p) (digits, val))
    (fun r s' =>
       stepped P s 0 s' /\ snd r = val ++ between s s' /\
       exists ds, fst r = digits ++ ds /\ Forall (fun c => p c = true) ds) s.
Proof.
  intros HP Hs; apply wpe_of_wp; unfold twice.
  apply wp_bind.
  eapply wp_mono; [apply escape_digit_digits; eassumption|].
  cbv beta; intros [d1 v1] s1 (H1 & H2 & ds1 & H3 & H4).
  eapply wp_mono; [apply escape_digit_digits; [eassumption | lex_solve]|].
  cbv beta; intros [d2 v2] s2 (H5 & H6 & ds2 & H7 & H8).
  cbn [fst snd] in *; subst.
  split; [lex_solve|]; split.
  - open_stepped.
    rewrite (between_trans s s1 s2) by (assumption || lia).
    rewrite app_assoc; reflexivity.
  - exists (ds1 ++ ds2); rewrite app_assoc; split; [reflexivity|].
    apply Forall_app; split; assumption.
Qed.

Lemma expected_TypeError : expected TypeError.
Proof. left; reflexivity. Qed.

Lemma expected_ValueError : expected ValueError.
Proof. right; reflexivity. Qed.

Ltac wpe_step :=
  lazymatch goal with
  | |- wpe _ (bind _ _) _ _ => apply wpe_bind
  | |- wpe _ (ret _) _ _ => apply wpe_ret
  | |- wpe _ (get _) _ _ => apply wpe_get
  | |- wpe _ _char _ _ => apply wpe_char
  | |- wpe _ (_peek _) _ _ => apply wpe_peek
  | |- wpe _ _advance _ _ => apply wpe_advance; [intros ? ? | intros ?]
  | |- wpe _ (as_str _) _ _ => unfold as_str
  | |- wpe _ (nonnull _ _) _ _ =>
      apply wpe_nonnull; cbv beta iota;
      lazymatch goal with
      | |- match ?x with Some _ => _ | None => _ end => destruct x eqn:?
      | |- _ => idtac
      end
  | |- wpe _ (errors_append _) _ _ => apply wpe_errors_append
  | |- wpe _ (tokens_append _) _ _ => apply wpe_tokens_append
  | |- wpe _ (take_run _ _) _ _ =>
      eapply wpe_mono;
      [ eapply wpe_take_run; [eassumption | solve [lex_solve]]
      | cbv beta; intros ? ? (? & ? & ? & ?) ]
  | |- wpe _ (skip_run _) _ _ =>
      eapply wpe_mono;
      [ eapply wpe_skip_run; [eassumption | solve [lex_solve]]
      | cbv beta; intros ? ? (? & ?) ]
  | |- wpe _ (append_advance _) _ _ => unfold append_advance
  | |- wpe _ (twice (escape_digit _) _) _ _ =>
      eapply wpe_mono;
      [ eapply wpe_twice_escape_digit; [eassumption | solve [lex_solve]]
      | cbv beta; intros [? ?] ? (? & ? & ? & ? & ?) ]
  | |- wpe _ (str_last (_ ++ [_])) _ _ => apply wpe_str_last_snoc
  | |- wpe _ (int_base 16 _) _ _ =>
      cbn [fst snd] in *; subst_str;
      apply wpe_int_base_hex; [assumption | assumption | intros ?]
  | |- wpe _ (int_base 8 _) _ _ =>
      cbn [fst snd] in *; subst_str;
      apply wpe_int_base_oct; [assumption | | intros ?]
  | |- wpe _ (const_token (if ?b then _ else _) _ _ _) _ _ => destruct b
  | |- wpe _ (const_token _ _ _ _) _ _ =>
      apply wpe_const_token; [simpl; tauto | intros ? ? ? ? ?]
  | |- wpe _ (if ?b then _ else _) _ _ => destruct b eqn:?
  | |- wpe _ (match ?x with inl _ => _ | inr _ => _ end) _ _ => destruct x
  | |- wpe _ (match ?x with Some _ => _ | None => _ end) _ _ => destruct x eqn:?
  | |- wpe _ (match ?x with (_, _) => _ end) _ _ => destruct x
  end; cbv beta.

Ltac wpe_go := repeat wpe_step.

Ltac wpe_at_block :=
  lazymatch goal with
  | |- wpe _ (bind (if _ then _ else _) _) _ _ => idtac
  | |- wpe _ (bind (match _ with Some _ => _ | None => _ end) _) _ _ => idtac
  | |- wpe _ (bind (match _ with (_, _) => _ end) _) _ _ => idtac
  | |- wpe _ (bind (while_ _ _ _) _) _ _ => idtac
  end.

Ltac wpe_lin := repeat (tryif wpe_at_block then fail else wpe_step).

Ltac wpe_seq mid :=
  apply wpe_bind; apply wpe_mono with (Q := mid); [| cbv beta].

(** The text between two cursors, from the steps that lead from the one to
    the other. *)
Ltac expand_between :=
  cbn [snd fst] in *; subst_str;
  repeat match goal with
         | |- context [between ?s0 (push_error ?e ?x)] =>
             change (between s0 (push_error e x)) with (between s0 x)
         | |- context [between ?s0 (advanced ?ch ?x)] =>
             rewrite (between_advanced s0 x ch)
               by (first [assumption | solve [lex_solve]])
         | H : stepped _ ?x _ ?s' |- context [between ?s0 ?s'] =>
             tryif constr_eq s0 x then fail
             else rewrite (between_trans s0 x s') by (solve [lex_solve])
         end;
  rewrite ?between_refl; cbn [app]; rewrite ?app_nil_r, <- ?app_assoc;
  cbn [app]; try reflexivity.

(** Closing a branch of a scanner of constants. *)
(** A branch that raises [TypeError] for a character that is [None], where
    the character is known. *)
Ltac no_raise :=
  lazymatch goal with
  | |- _ TypeError => idtac
  end;
  first
    [ no_char
    | exfalso; cbn [opt_test opt_is src pos advanced] in *; discriminate
    | exfalso; cbn [opt_test opt_is src pos advanced] in *;
      rewrite ?Nat.add_1_r in *; congruence ].

Ltac raw_leaf :=
  try no_char; try no_raise;
  use_strict; unfold raw_scanned; cbn [code value attr tline tcol];
  first
    [ solve [lex_solve]
    | solve [split; [reflexivity|]; split; [reflexivity|];
             eexists; split; [| split]; revgoals;
             [ right; right; cbn [code value attr]; split; [lia|];
               eexists; split; [reflexivity|]; split;
               [eassumption | reflexivity]
             | expand_between
             | lex_solve ]] ].
